(** * ImageFlow: cache, layout, culling, zoom and navigation of the gallery

    A shallow embedding of the core of the image gallery (the most evolved
    of the three variants of the viewer): the bounded cache
    [FastImageCache], the aspect-ratio resolver, one iteration of the
    thumbnail worker, the masonry layout, the viewport renderer, the zoom
    buttons and the previous/next navigation.

    Conventions.
    - Python [int] is [Z]; a capacity or a length is [nat].
    - A Python [float] is a binary64 number, modelled by the rational it
      denotes ([Q]).  An arithmetic operation on floats returns the exact
      result rounded to 53 significant bits, ties to even ([round64]); the
      bounds of the exponent are not modelled, since sizes in pixels keep
      every value far from them.  The zoom level moves in steps of 0.25,
      on which the addition is exact.  [int(x)] on a float truncates
      toward zero; a comparison of an [int] with a [float] is exact.
    - An [OrderedDict] and a [dict] that is iterated are association lists
      in insertion order without duplicate keys; a [dict] that is only
      looked up is a [gmap].
    - The image library is an oracle: [image_open] gives the pixel size of
      a file or fails, [resize_ok] tells whether a resampling succeeds.
    - Widget decoration (labels, colours, cursor arrows) is outside the
      model.  The threads started by [preload_adjacent] are run to their
      end at once, in the order in which they are started. *)

From stdpp Require Import base option list strings gmap pretty sorting.
From Stdlib Require Import ZArith QArith Qround Qpower Qabs Qcanon Lia Lqa.

Local Open Scope Z_scope.

(** ** Ordered dictionaries *)

Module OrderedDict.
Section od.
Context {K V : Type} `{EqDecision K}.

Definition t := list (K * V).

Definition keys (d : t) : list K := d.*1.

(** [key in d] *)
Definition contains (k : K) (d : t) : bool := bool_decide (k ∈ keys d).

(** [d[key]] *)
Fixpoint getitem (k : K) (d : t) : option V :=
  match d with
  | [] => None
  | (k', v) :: d' => if decide (k = k') then Some v else getitem k d'
  end.

(** [d[key] = value]: an existing key keeps its place, a new key goes
    to the end. *)
Fixpoint setitem (k : K) (v : V) (d : t) : t :=
  match d with
  | [] => [(k, v)]
  | (k', v') :: d' =>
      if decide (k = k') then (k, v) :: d' else (k', v') :: setitem k v d'
  end.

(** [del d[key]] *)
Fixpoint delitem (k : K) (d : t) : t :=
  match d with
  | [] => []
  | (k', v') :: d' =>
      if decide (k = k') then d' else (k', v') :: delitem k d'
  end.

(** [d.move_to_end(key)]; raises [KeyError] (here: no change) when the
    key is absent. *)
Definition move_to_end (k : K) (d : t) : t :=
  match getitem k d with
  | Some v => delitem k d ++ [(k, v)]
  | None => d
  end.

(** [d.popitem(last=False)]; raises [KeyError] (here: no change) when
    the dictionary is empty. *)
Definition popitem_first (d : t) : t := tail d.

End od.
End OrderedDict.

(** ** FastImageCache *)

Module FastImageCache.
Import OrderedDict.
Section cache.
Context {K V : Type} `{EqDecision K}.

Record t := mk { cache : list (K * V); max_size : nat }.

(** [__init__] *)
Definition init (max_size : nat) : t := mk [] max_size.

(** [get]: a hit moves the entry to the end and returns its value. *)
Definition get (k : K) (c : t) : t * option V :=
  if contains k (cache c)
  then let d := move_to_end k (cache c) in
       (mk d (max_size c), getitem k d)
  else (c, None).

(** [put]: store, then drop the first entry when the size passed the
    maximum. *)
Definition put (k : K) (v : V) (c : t) : t :=
  let d := setitem k v (cache c) in
  if bool_decide (max_size c < length d)%nat
  then mk (popitem_first d) (max_size c)
  else mk d (max_size c).

Definition size (c : t) : nat := length (cache c).
Definition holds (k : K) (c : t) : Prop := k ∈ keys (cache c).

Inductive op := Get (k : K) | Put (k : K) (v : V).

Definition step (c : t) (o : op) : t :=
  match o with
  | Get k => (get k c).1
  | Put k v => put k v c
  end.

Definition run (ops : list op) (c : t) : t := foldl step c ops.

End cache.
Global Arguments t : clear implicits.
Global Arguments op : clear implicits.
End FastImageCache.

(** ** Numbers *)

(** [binade q], for [0 < q]: the exponent [e] with [2^e <= q < 2^(e+1)]. *)
Definition binade (q : Q) : Z :=
  let k := Z.log2 (Qnum q) - Z.log2 (Z.pos (Qden q)) in
  if Qle_bool (2 ^ k) q then k else k - 1.

(** The integer nearest to [q], the even one of two that are equally
    near. *)
Definition round_half_even (q : Q) : Z :=
  let f := Qfloor q in
  match ((q - inject_Z f) ?= (1 # 2))%Q with
  | Lt => f
  | Gt => f + 1
  | Eq => if Z.even f then f else f + 1
  end.

(** The binary64 number nearest to [q]: [q] rounded to a significand of
    53 bits, ties to even, in lowest terms. *)
Definition round64 (q : Q) : Q :=
  let q := Qred q in
  if Qeq_bool q 0 then 0%Q else
  let e := binade (Qabs q) - 52 in
  Qred (inject_Z (round_half_even (q / 2 ^ e)) * 2 ^ e).

(** [float(n)] for an int, and the operations [a / b], [a * b], [a + b]
    and [a - b] on floats. *)
Definition float_of_int (n : Z) : Q := round64 (inject_Z n).
Definition fdiv (a b : Q) : Q := round64 (a / b).
Definition fmul (a b : Q) : Q := round64 (a * b).
Definition fadd (a b : Q) : Q := round64 (a + b).
Definition fsub (a b : Q) : Q := round64 (a - b).

(** [a / b] for two ints: the quotient, rounded once. *)
Definition int_truediv (a b : Z) : Q := round64 (inject_Z a / inject_Z b).

(** [1 + 2^-53]: rounding a number that is not negative multiplies it by
    this factor at most. *)
Definition ulp_bound : Q := 1 + (1 # 9007199254740992).

(** [int(x)] for a float [x]: truncation toward zero. *)
Definition py_int (q : Q) : Z := Z.quot (Qnum q) (Z.pos (Qden q)).

Definition Qltb (x y : Q) : bool := negb (Qle_bool y x).

(** [min(a, b)] and [max(a, b)] keep the first argument unless the second
    is strictly smaller (larger). *)
Definition py_min2 (a b : Q) : Q := if Qltb b a then b else a.
Definition py_max2 (a b : Q) : Q := if Qltb a b then b else a.

(** [min(l)] and [max(l)] of a list of integers; [None] stands for the
    [ValueError] on an empty list. *)
Definition py_min (l : list Z) : option Z :=
  match l with
  | [] => None
  | x :: l' => Some (foldl Z.min x l')
  end.

Definition py_max (l : list Z) : option Z :=
  match l with
  | [] => None
  | x :: l' => Some (foldl Z.max x l')
  end.

(** [l.index(x)]: the first position of [x]; [None] stands for the
    [ValueError] when [x] is absent. *)
Fixpoint py_index (x : Z) (l : list Z) : option nat :=
  match l with
  | [] => None
  | y :: l' => if decide (x = y) then Some O else S <$> py_index x l'
  end.

(** [l[i]] for a Python list: a negative index counts from the end;
    [None] stands for the [IndexError]. *)
Definition py_getitem {A} (l : list A) (i : Z) : option A :=
  if decide (0 <= i) then l !! Z.to_nat i
  else if decide (- Z.of_nat (length l) <= i)
       then l !! Z.to_nat (Z.of_nat (length l) + i)
       else None.

(** ** Data of the gallery *)

(** An entry of [self.images] / [self.filtered_images]. *)
Record ImageData := mkImageData {
  path : string;
  name : string;
  selected : bool
}.

Inductive Resampling := LANCZOS | BILINEAR.

(** A decoded or resampled picture: where it came from, its size, and the
    filter that produced it ([None] for the decoded original). *)
Record Bitmap := mkBitmap {
  bm_src : string;
  bm_width : Z;
  bm_height : Z;
  bm_filter : option Resampling
}.

(** The image library: [image_open p] is the size [(width, height)] of
    the file, or [None] when [Image.open] raises; [resize_ok p w h] tells
    whether resampling the picture of [p] to [(w, h)] succeeds. *)
Record Pillow := mkPillow {
  image_open : string → option (Z * Z);
  resize_ok : string → Z → Z → bool
}.

(** [(path, width, priority)] *)
Definition Task : Type := string * Z * Z.
(** [(key, thumb, path)] *)
Definition Result : Type := string * Bitmap * string.
(** [(x, y, w, h)] *)
Definition Position : Type := Z * Z * Z * Z.

(** What the renderer draws: the selection border, the placeholder
    rectangle, a thumbnail (anchored at its top-left corner) and the
    picture of the single view (anchored at its centre). *)
Inductive CanvasItem :=
  | Highlight (x0 y0 x1 y1 : Z)
  | Placeholder (x0 y0 x1 y1 : Z)
  | ThumbImage (x y : Z) (photo : Bitmap)
  | FullImage (x y : Z) (photo : Bitmap).

(** The canvas widget: its size, the top of the visible part as a
    fraction of the scroll region ([yview()[0]]), the scroll region and
    the items drawn. *)
Record Canvas := mkCanvas {
  winfo_width : Z;
  winfo_height : Z;
  yview_top : Q;
  scrollregion : option (Z * Z * Z * Z);
  items : list CanvasItem
}.

(** The attributes of [self] that the modelled methods read or write.
    [canvas] stands for the canvas widget; [zoom_pan_timer] tells
    whether a high-quality render is scheduled; [opened] records the
    paths handed to [Image.open], in order. *)
Record ImageGallery := mkImageGallery {
  filtered_images : list ImageData;
  current_index : Z;
  zoom_level : Q;
  single_view_mode : bool;
  zoom_pan_timer : bool;
  pan_x : Z;
  pan_y : Z;
  thumb_cache : FastImageCache.t string Bitmap;
  img_cache : FastImageCache.t string Bitmap;
  aspect_cache : gmap string Q;
  gap : Z;
  num_columns : Z;
  view_mode : string;
  thumb_queue : list Task;
  result_queue : list Result;
  image_positions : list (string * Position);
  canvas : Canvas;
  last_size : option (Z * Z * string);
  opened : list string
}.

(** Assignments to the attributes of [self]. *)
Definition set_filtered_images v (g : ImageGallery) : ImageGallery :=
  mkImageGallery
    v (current_index g) (zoom_level g) (single_view_mode g)
    (zoom_pan_timer g) (pan_x g) (pan_y g) (thumb_cache g) (img_cache g)
    (aspect_cache g) (gap g) (num_columns g) (view_mode g)
    (thumb_queue g) (result_queue g) (image_positions g) (canvas g)
    (last_size g) (opened g).
Definition set_current_index v (g : ImageGallery) : ImageGallery :=
  mkImageGallery
    (filtered_images g) v (zoom_level g) (single_view_mode g)
    (zoom_pan_timer g) (pan_x g) (pan_y g) (thumb_cache g) (img_cache g)
    (aspect_cache g) (gap g) (num_columns g) (view_mode g)
    (thumb_queue g) (result_queue g) (image_positions g) (canvas g)
    (last_size g) (opened g).
Definition set_zoom_level v (g : ImageGallery) : ImageGallery :=
  mkImageGallery
    (filtered_images g) (current_index g) v (single_view_mode g)
    (zoom_pan_timer g) (pan_x g) (pan_y g) (thumb_cache g) (img_cache g)
    (aspect_cache g) (gap g) (num_columns g) (view_mode g)
    (thumb_queue g) (result_queue g) (image_positions g) (canvas g)
    (last_size g) (opened g).
Definition set_single_view_mode v (g : ImageGallery) : ImageGallery :=
  mkImageGallery
    (filtered_images g) (current_index g) (zoom_level g) v
    (zoom_pan_timer g) (pan_x g) (pan_y g) (thumb_cache g) (img_cache g)
    (aspect_cache g) (gap g) (num_columns g) (view_mode g)
    (thumb_queue g) (result_queue g) (image_positions g) (canvas g)
    (last_size g) (opened g).
Definition set_zoom_pan_timer v (g : ImageGallery) : ImageGallery :=
  mkImageGallery
    (filtered_images g) (current_index g) (zoom_level g)
    (single_view_mode g) v (pan_x g) (pan_y g) (thumb_cache g)
    (img_cache g) (aspect_cache g) (gap g) (num_columns g) (view_mode g)
    (thumb_queue g) (result_queue g) (image_positions g) (canvas g)
    (last_size g) (opened g).
Definition set_pan_x v (g : ImageGallery) : ImageGallery :=
  mkImageGallery
    (filtered_images g) (current_index g) (zoom_level g)
    (single_view_mode g) (zoom_pan_timer g) v (pan_y g) (thumb_cache g)
    (img_cache g) (aspect_cache g) (gap g) (num_columns g) (view_mode g)
    (thumb_queue g) (result_queue g) (image_positions g) (canvas g)
    (last_size g) (opened g).
Definition set_pan_y v (g : ImageGallery) : ImageGallery :=
  mkImageGallery
    (filtered_images g) (current_index g) (zoom_level g)
    (single_view_mode g) (zoom_pan_timer g) (pan_x g) v (thumb_cache g)
    (img_cache g) (aspect_cache g) (gap g) (num_columns g) (view_mode g)
    (thumb_queue g) (result_queue g) (image_positions g) (canvas g)
    (last_size g) (opened g).
Definition set_thumb_cache v (g : ImageGallery) : ImageGallery :=
  mkImageGallery
    (filtered_images g) (current_index g) (zoom_level g)
    (single_view_mode g) (zoom_pan_timer g) (pan_x g) (pan_y g) v
    (img_cache g) (aspect_cache g) (gap g) (num_columns g) (view_mode g)
    (thumb_queue g) (result_queue g) (image_positions g) (canvas g)
    (last_size g) (opened g).
Definition set_img_cache v (g : ImageGallery) : ImageGallery :=
  mkImageGallery
    (filtered_images g) (current_index g) (zoom_level g)
    (single_view_mode g) (zoom_pan_timer g) (pan_x g) (pan_y g)
    (thumb_cache g) v (aspect_cache g) (gap g) (num_columns g)
    (view_mode g) (thumb_queue g) (result_queue g) (image_positions g)
    (canvas g) (last_size g) (opened g).
Definition set_aspect_cache v (g : ImageGallery) : ImageGallery :=
  mkImageGallery
    (filtered_images g) (current_index g) (zoom_level g)
    (single_view_mode g) (zoom_pan_timer g) (pan_x g) (pan_y g)
    (thumb_cache g) (img_cache g) v (gap g) (num_columns g) (view_mode g)
    (thumb_queue g) (result_queue g) (image_positions g) (canvas g)
    (last_size g) (opened g).
Definition set_gap v (g : ImageGallery) : ImageGallery :=
  mkImageGallery
    (filtered_images g) (current_index g) (zoom_level g)
    (single_view_mode g) (zoom_pan_timer g) (pan_x g) (pan_y g)
    (thumb_cache g) (img_cache g) (aspect_cache g) v (num_columns g)
    (view_mode g) (thumb_queue g) (result_queue g) (image_positions g)
    (canvas g) (last_size g) (opened g).
Definition set_thumb_queue v (g : ImageGallery) : ImageGallery :=
  mkImageGallery
    (filtered_images g) (current_index g) (zoom_level g)
    (single_view_mode g) (zoom_pan_timer g) (pan_x g) (pan_y g)
    (thumb_cache g) (img_cache g) (aspect_cache g) (gap g)
    (num_columns g) (view_mode g) v (result_queue g) (image_positions g)
    (canvas g) (last_size g) (opened g).
Definition set_result_queue v (g : ImageGallery) : ImageGallery :=
  mkImageGallery
    (filtered_images g) (current_index g) (zoom_level g)
    (single_view_mode g) (zoom_pan_timer g) (pan_x g) (pan_y g)
    (thumb_cache g) (img_cache g) (aspect_cache g) (gap g)
    (num_columns g) (view_mode g) (thumb_queue g) v (image_positions g)
    (canvas g) (last_size g) (opened g).
Definition set_image_positions v (g : ImageGallery) : ImageGallery :=
  mkImageGallery
    (filtered_images g) (current_index g) (zoom_level g)
    (single_view_mode g) (zoom_pan_timer g) (pan_x g) (pan_y g)
    (thumb_cache g) (img_cache g) (aspect_cache g) (gap g)
    (num_columns g) (view_mode g) (thumb_queue g) (result_queue g) v
    (canvas g) (last_size g) (opened g).
Definition set_canvas v (g : ImageGallery) : ImageGallery :=
  mkImageGallery
    (filtered_images g) (current_index g) (zoom_level g)
    (single_view_mode g) (zoom_pan_timer g) (pan_x g) (pan_y g)
    (thumb_cache g) (img_cache g) (aspect_cache g) (gap g)
    (num_columns g) (view_mode g) (thumb_queue g) (result_queue g)
    (image_positions g) v (last_size g) (opened g).
Definition set_last_size v (g : ImageGallery) : ImageGallery :=
  mkImageGallery
    (filtered_images g) (current_index g) (zoom_level g)
    (single_view_mode g) (zoom_pan_timer g) (pan_x g) (pan_y g)
    (thumb_cache g) (img_cache g) (aspect_cache g) (gap g)
    (num_columns g) (view_mode g) (thumb_queue g) (result_queue g)
    (image_positions g) (canvas g) v (opened g).
Definition set_opened v (g : ImageGallery) : ImageGallery :=
  mkImageGallery
    (filtered_images g) (current_index g) (zoom_level g)
    (single_view_mode g) (zoom_pan_timer g) (pan_x g) (pan_y g)
    (thumb_cache g) (img_cache g) (aspect_cache g) (gap g)
    (num_columns g) (view_mode g) (thumb_queue g) (result_queue g)
    (image_positions g) (canvas g) (last_size g) v.
Definition set_winfo_width v (c : Canvas) : Canvas :=
  mkCanvas v (winfo_height c) (yview_top c) (scrollregion c) (items c).
Definition set_winfo_height v (c : Canvas) : Canvas :=
  mkCanvas (winfo_width c) v (yview_top c) (scrollregion c) (items c).
Definition set_yview_top v (c : Canvas) : Canvas :=
  mkCanvas (winfo_width c) (winfo_height c) v (scrollregion c) (items c).
Definition set_scrollregion v (c : Canvas) : Canvas :=
  mkCanvas (winfo_width c) (winfo_height c) (yview_top c) v (items c).
Definition set_items v (c : Canvas) : Canvas :=
  mkCanvas (winfo_width c) (winfo_height c) (yview_top c) (scrollregion c) v.

(** [__init__]: the attributes of a new gallery around its canvas. *)
Definition init_gallery (cv : Canvas) : ImageGallery :=
  mkImageGallery [] 0 1 false false 0 0
    (FastImageCache.init 400) (FastImageCache.init 30) ∅
    4 4 "all" [] [] [] cv None [].

(** ** Methods of ImageGallery *)

(** What [calculate_layout] did: postponed itself because the canvas has
    no width yet, stopped on an exception, or laid the images out. *)
Inductive LayoutOutcome := Deferred | Raised | Done.

(** [canvas.coords(item, x, y)] moves a picture; on a rectangle the two
    coordinates are refused and the caller swallows the error. *)
Definition move_item (it : CanvasItem) (x y : Z) : CanvasItem :=
  match it with
  | ThumbImage _ _ photo => ThumbImage x y photo
  | FullImage _ _ photo => FullImage x y photo
  | Highlight _ _ _ _ | Placeholder _ _ _ _ => it
  end.

(** [not l] for a list. *)
Definition is_empty {A} (l : list A) : bool :=
  match l with [] => true | _ => false end.

(** [queue.Queue(maxsize=100)] *)
Definition thumb_queue_maxsize : nat := 100.

Section methods.
Variable pil : Pillow.

(** [f"{path}_{width}"] *)
Definition thumb_key (p : string) (width : Z) : string :=
  p +:+ "_" +:+ pretty width.

(** [Image.open(path)], recorded in [opened]. *)
Definition open_image (p : string) (g : ImageGallery)
  : ImageGallery * option (Z * Z) :=
  (set_opened (opened g ++ [p]) g, image_open pil p).

(** One pass of the body of the loop of [thumbnail_worker] on a task
    taken from the queue. *)
Definition worker_task (task : Task) (g : ImageGallery) : ImageGallery :=
  let '(p, width, priority) := task in
  let key := thumb_key p width in
  let '(tc, cached) := FastImageCache.get key (thumb_cache g) in
  let g := set_thumb_cache tc g in
  match cached with
  | Some _ => g
  | None =>
      let '(g, img) := open_image p g in
      match img with
      | None => g
      | Some (w, h) =>
          if decide (h = 0) then g else
          let aspect := int_truediv w h in
          if Qeq_bool aspect 0 then g else
          let new_h := py_int (fdiv (float_of_int width) aspect) in
          let resample :=
            if decide (5 < priority) then LANCZOS else BILINEAR in
          if resize_ok pil p width new_h
          then set_result_queue
                 (result_queue g ++
                  [(key, mkBitmap p width new_h (Some resample), p)]) g
          else g
      end
  end.

(** [thumbnail_worker]: one turn of the loop; an empty queue times out
    and the loop goes on.  The stop flag and the [None] sentinel that
    end the loop at shutdown are not modelled. *)
Definition thumbnail_worker (g : ImageGallery) : ImageGallery :=
  match thumb_queue g with
  | [] => g
  | task :: q => worker_task task (set_thumb_queue q g)
  end.

(** [get_aspect_ratio_fast] *)
Definition get_aspect_ratio_fast (p : string) (g : ImageGallery)
  : ImageGallery * Q :=
  match aspect_cache g !! p with
  | Some ratio => (g, ratio)
  | None =>
      let '(g, img) := open_image p g in
      match img with
      | Some (w, h) =>
          if decide (h = 0) then (g, 1%Q) else
          let ratio := int_truediv w h in
          (set_aspect_cache (<[p := ratio]> (aspect_cache g)) g, ratio)
      | None => (g, 1%Q)
      end
  end.

(** [queue_thumbnail]: a full queue drops the task. *)
Definition queue_thumbnail (p : string) (width priority : Z)
    (g : ImageGallery) : ImageGallery :=
  if decide (length (thumb_queue g) < thumb_queue_maxsize)%nat
  then set_thumb_queue (thumb_queue g ++ [(p, width, priority)]) g
  else g.

(** [get_thumbnail] *)
Definition get_thumbnail (p : string) (width : Z) (g : ImageGallery)
  : ImageGallery * option Bitmap :=
  let '(tc, thumb) :=
    FastImageCache.get (thumb_key p width) (thumb_cache g) in
  (set_thumb_cache tc g, thumb).

(** [get_image] *)
Definition get_image (p : string) (g : ImageGallery)
  : ImageGallery * option Bitmap :=
  let '(ic, cached) := FastImageCache.get p (img_cache g) in
  let g := set_img_cache ic g in
  match cached with
  | Some img => (g, Some img)
  | None =>
      let '(g, r) := open_image p g in
      match r with
      | Some (w, h) =>
          let img := mkBitmap p w h None in
          (set_img_cache (FastImageCache.put p img (img_cache g)) g,
           Some img)
      | None => (g, None)
      end
  end.

(** [instant_transform] *)
Definition instant_transform (g : ImageGallery) : ImageGallery :=
  if negb (single_view_mode g) then g else
  let cw := Z.max (winfo_width (canvas g)) 100 in
  let ch := Z.max (winfo_height (canvas g)) 100 in
  let x := cw / 2 + pan_x g in
  let y := ch / 2 + pan_y g in
  match items (canvas g) with
  | [] => g
  | it :: rest =>
      set_canvas (set_items (move_item it x y :: rest) (canvas g)) g
  end.

(** [debounced_display] *)
Definition debounced_display (g : ImageGallery) : ImageGallery :=
  set_zoom_pan_timer true (instant_transform g).

(** [zoom_in_fn] *)
Definition zoom_in_fn (g : ImageGallery) : ImageGallery :=
  let g := set_zoom_level (py_min2 5 (zoom_level g + (1 # 4))) g in
  debounced_display g.

(** [zoom_out_fn] *)
Definition zoom_out_fn (g : ImageGallery) : ImageGallery :=
  let g := set_zoom_level (py_max2 (1 # 4) (zoom_level g - (1 # 4))) g in
  let g := if Qle_bool (zoom_level g) 1
           then set_pan_y 0 (set_pan_x 0 g) else g in
  debounced_display g.

(** [calculate_layout], the choice of the number of columns. *)
Definition layout_columns (g : ImageGallery) : Z :=
  let cols :=
    if decide (view_mode g = "selected") then
      let count := length (filtered_images g) in
      if decide (count = 2%nat) then 2
      else if decide (count = 3%nat) then 3
      else if decide (0 < num_columns g) then num_columns g else 4
    else if decide (0 < num_columns g) then num_columns g else 4 in
  if decide (cols = 0) then 1 else cols.

(** [calculate_layout], the width of a column. *)
Definition column_width (canvas_width gap cols : Z) : Z :=
  Z.max 50 ((canvas_width - gap * (cols + 1)) / cols).

(** [calculate_layout], the loop over [filtered_images]; [None] when an
    exception leaves the loop. *)
Fixpoint place_images (col_w gap : Z) (imgs : list ImageData)
    (col_heights : list Z) (g : ImageGallery)
  : ImageGallery * option (list Z) :=
  match imgs with
  | [] => (g, Some col_heights)
  | img :: rest =>
      match py_min col_heights ≫= λ m, py_index m col_heights with
      | None => (g, None)
      | Some min_col =>
          let '(g, aspect) := get_aspect_ratio_fast (path img) g in
          if Qeq_bool aspect 0 then (g, None) else
          let img_h := py_int (fdiv (float_of_int col_w) aspect) in
          let x := gap + Z.of_nat min_col * (col_w + gap) in
          match col_heights !! min_col with
          | None => (g, None)
          | Some y =>
              let g :=
                set_image_positions
                  (OrderedDict.setitem (path img) (x, y, col_w, img_h)
                     (image_positions g)) g in
              place_images col_w gap rest
                (<[min_col := y + img_h + gap]> col_heights) g
          end
      end
  end.

(** [calculate_layout] *)
Definition calculate_layout (g : ImageGallery)
  : ImageGallery * LayoutOutcome :=
  let canvas_width := winfo_width (canvas g) in
  if decide (canvas_width <= 1) then (g, Deferred) else
  let cols := layout_columns g in
  let gap := gap g in
  let col_w := column_width canvas_width gap cols in
  let col_heights := replicate (Z.to_nat cols) gap in
  let g := set_image_positions [] g in
  let '(g, r) := place_images col_w gap (filtered_images g) col_heights g in
  match r with
  | None => (g, Raised)
  | Some col_heights =>
      let total_h :=
        match py_max col_heights with
        | Some m => m + gap
        | None => 0
        end in
      (set_canvas
         (set_scrollregion (Some (0, 0, canvas_width, total_h)) (canvas g))
         g, Done)
  end.

(** [update_visible_thumbs], the body of the loop over
    [image_positions]. *)
Definition render_entry (visible_top visible_bottom : Q)
    (g : ImageGallery) (entry : string * Position) : ImageGallery :=
  let '(p, (x, y, w, h)) := entry in
  if Qltb (inject_Z (y + h)) visible_top || Qltb visible_bottom (inject_Z y)
  then g else
  let '(g, thumb) := get_thumbnail p w g in
  match thumb with
  | Some photo =>
      let img_data :=
        head (filter (λ img, path img = p) (filtered_images g)) in
      let border :=
        match img_data with
        | Some img =>
            if selected img
            then [Highlight (x - 2) (y - 2) (x + w + 2) (y + h + 2)]
            else []
        | None => []
        end in
      set_canvas
        (set_items (items (canvas g) ++ border ++ [ThumbImage x y photo])
           (canvas g)) g
  | None =>
      let g :=
        set_canvas
          (set_items (items (canvas g) ++ [Placeholder x y (x + w) (y + h)])
             (canvas g)) g in
      let priority :=
        if Qle_bool (fadd visible_top 300) (inject_Z y)
           && Qle_bool (inject_Z y) (fsub visible_bottom 300)
        then 10 else 5 in
      queue_thumbnail p w priority g
  end.

(** [update_visible_thumbs], the window computed from the scroll
    position: [(visible_top, visible_bottom)].  [yview()[0]] is a float:
    the fraction is rounded when it is read. *)
Definition visible_window (g : ImageGallery) : Q * Q :=
  let canvas_h := winfo_height (canvas g) in
  let total_h :=
    match scrollregion (canvas g) with
    | Some (_, _, _, h) => h
    | None => canvas_h
    end in
  let st_fraction := round64 (yview_top (canvas g)) in
  let visible_top := fmul st_fraction (float_of_int total_h) in
  let visible_bottom :=
    fadd (fadd visible_top (float_of_int canvas_h)) 600 in
  let visible_top := fsub visible_top 300 in
  (visible_top, visible_bottom).

(** [update_visible_thumbs] *)
Definition update_visible_thumbs (g : ImageGallery) : ImageGallery :=
  let '(visible_top, visible_bottom) := visible_window g in
  let g := set_canvas (set_items [] (canvas g)) g in
  foldl (render_entry visible_top visible_bottom) g (image_positions g).

(** [_preload_single] *)
Definition preload_single (p : string) (g : ImageGallery)
    : ImageGallery :=
  let '(ic, cached) := FastImageCache.get p (img_cache g) in
  let g := set_img_cache ic g in
  match cached with
  | Some _ => g
  | None =>
      let '(g, r) := open_image p g in
      match r with
      | Some (w, h) =>
          set_img_cache
            (FastImageCache.put p (mkBitmap p w h None) (img_cache g)) g
      | None => g
      end
  end.

(** [preload_adjacent]: one thread per neighbour at distance one or two
    that exists, each running [_preload_single]. *)
Definition preload_adjacent (g : ImageGallery) : ImageGallery :=
  if negb (single_view_mode g) || is_empty (filtered_images g) then g else
  foldl
    (λ g offset,
       let idx := current_index g + offset in
       if decide (0 <= idx < Z.of_nat (length (filtered_images g))) then
         match py_getitem (filtered_images g) idx with
         | Some img_data => preload_single (path img_data) g
         | None => g
         end
       else g)
    g [-2; -1; 1; 2].

(** [display_current_image] *)
Definition display_current_image (g : ImageGallery) : ImageGallery :=
  if is_empty (filtered_images g)
     || bool_decide (Z.of_nat (length (filtered_images g))
                     <= current_index g)
  then g else
  match py_getitem (filtered_images g) (current_index g) with
  | None => g
  | Some img_data =>
      let p := path img_data in
      let g :=
        set_canvas
          (set_items [] (set_scrollregion (Some (0, 0, 0, 0)) (canvas g)))
          g in
      let '(g, r) := get_image p g in
      match r with
      | None => g
      | Some img =>
          let cw := Z.max (winfo_width (canvas g)) 100 in
          let ch := Z.max (winfo_height (canvas g)) 100 in
          let iw := bm_width img in
          let ih := bm_height img in
          if decide (iw = 0 ∨ ih = 0) then g else
          let scale :=
            fmul (py_min2 (int_truediv cw iw) (int_truediv ch ih))
              (zoom_level g) in
          let new_w := Z.max 1 (py_int (fmul (float_of_int iw) scale)) in
          let new_h := Z.max 1 (py_int (fmul (float_of_int ih) scale)) in
          let g := set_last_size (Some (new_w, new_h, p)) g in
          if resize_ok pil p new_w new_h then
            let x := cw / 2 + pan_x g in
            let y := ch / 2 + pan_y g in
            let g :=
              set_canvas
                (set_items
                   (items (canvas g) ++
                    [FullImage x y (mkBitmap p new_w new_h (Some LANCZOS))])
                   (canvas g)) g in
            preload_adjacent g
          else g
      end
  end.

(** [prev_img] *)
Definition prev_img (g : ImageGallery) : ImageGallery :=
  if negb (is_empty (filtered_images g))
     && bool_decide (0 < current_index g)
  then
    let g := set_current_index (current_index g - 1) g in
    let g := set_pan_y 0 (set_pan_x 0 g) in
    let g := set_zoom_level 1%Q g in
    display_current_image g
  else g.

(** [next_img] *)
Definition next_img (g : ImageGallery) : ImageGallery :=
  if negb (is_empty (filtered_images g))
     && bool_decide (current_index g
                     < Z.of_nat (length (filtered_images g)) - 1)
  then
    let g := set_current_index (current_index g + 1) g in
    let g := set_pan_y 0 (set_pan_x 0 g) in
    let g := set_zoom_level 1%Q g in
    display_current_image g
  else g.

End methods.

(** ** Recency, as the specification words it *)

Module Recency.
Import FastImageCache.
Section recency.
Context {K V : Type} `{EqDecision K}.

(** The key that an operation is about. *)
Definition key_of (o : op K V) : K :=
  match o with Get k => k | Put k _ => k end.

(** The time of the last access to [k]: the position, counted from one,
    of the last operation on [k] in the history; zero when there is
    none.  For a stored key that operation is the [put] that wrote it
    or a later [get] that hit it. *)
Fixpoint last_access (k : K) (ops : list (op K V)) : nat :=
  match ops with
  | [] => 0
  | o :: ops' =>
      match last_access k ops' with
      | S n => S (S n)
      | O => if decide (key_of o = k) then 1 else 0
      end
  end.

(** The key that [put k v] removes from [c], if any. *)
Definition evicted (k : K) (v : V) (c : t K V) : option K :=
  let d := OrderedDict.setitem k v (cache c) in
  if bool_decide (max_size c < length d)%nat then fst <$> head d else None.

(** A cache as [get] and [put] keep it. *)
Definition wf (c : t K V) : Prop :=
  NoDup (OrderedDict.keys (cache c)) ∧ (size c ≤ max_size c)%nat.

(** One [put] per pair, in order. *)
Definition puts (kvs : list (K * V)) : list (op K V) :=
  (λ kv, Put kv.1 kv.2) <$> kvs.

(** No [put] of the history writes a key that is stored at that time. *)
Definition no_overwrite (M : nat) (ops : list (op K V)) : Prop :=
  ∀ ops1 k v ops2,
    ops = ops1 ++ Put k v :: ops2 → ¬ holds k (run ops1 (init M)).

(** [a] was last accessed before [b]. *)
Definition older (ops : list (op K V)) (a b : K) : Prop :=
  (last_access a ops < last_access b ops)%nat.

(** [k] is stored with at most [n] entries after it. *)
Definition behind (k : K) (n : nat) (c : t K V) : Prop :=
  ∃ l r, OrderedDict.keys (cache c) = l ++ k :: r ∧ (length r ≤ n)%nat.

(** The promotion property with as many insertions as the cache has
    room for: on a full cache, a hit on [k] followed by [max_size] new
    distinct keys keeps [k]. *)
Definition survives_max_size_puts : Prop :=
  ∀ (c : t K V) (k : K) (kvs : list (K * V)),
    wf c → size c = max_size c → holds k c →
    NoDup kvs.*1 → k ∉ kvs.*1 →
    (∀ k', k' ∈ kvs.*1 → ¬ holds k' c) →
    length kvs = max_size c →
    holds k (run (puts kvs) (get k c).1).

End recency.
End Recency.

(** ** Sequences of zoom and navigation steps *)

(** A press on a zoom button, and a sequence of presses. *)
Inductive ZoomOp := ZoomIn | ZoomOut.

Definition zoom_step (g : ImageGallery) (o : ZoomOp) : ImageGallery :=
  match o with ZoomIn => zoom_in_fn g | ZoomOut => zoom_out_fn g end.

Definition zoom_run (ops : list ZoomOp) (g : ImageGallery) : ImageGallery :=
  foldl zoom_step g ops.

(** The zoom level lies in [[0.25, 5.0]]. *)
Definition zoom_in_range (g : ImageGallery) : Prop :=
  (1 # 4 <= zoom_level g)%Q ∧ (zoom_level g <= 5)%Q.

(** The zoom property with every step of exactly 0.25: after any
    sequence of presses the level is in range, a further zoom-in adds
    0.25, a further zoom-out takes 0.25 away, and a zoom-out that leaves
    the level at most 1.0 resets the pan offset. *)
Definition zoom_steps_exact : Prop :=
  ∀ (g : ImageGallery) (ops : list ZoomOp),
  zoom_in_range g →
  let g' := zoom_run ops g in
  zoom_in_range g'
  ∧ (zoom_level (zoom_in_fn g') == zoom_level g' + (1 # 4))%Q
  ∧ (zoom_level (zoom_out_fn g') == zoom_level g' - (1 # 4))%Q
  ∧ ((zoom_level (zoom_out_fn g') <= 1)%Q →
     pan_x (zoom_out_fn g') = 0 ∧ pan_y (zoom_out_fn g') = 0).

(** A press on the previous or next key, and a sequence of presses. *)
Inductive NavOp := Prev | Next.

Definition nav_step (pil : Pillow) (g : ImageGallery) (o : NavOp)
    : ImageGallery :=
  match o with Prev => prev_img pil g | Next => next_img pil g end.

Definition nav_run (pil : Pillow) (ops : list NavOp) (g : ImageGallery)
    : ImageGallery :=
  foldl (nav_step pil) g ops.

(** The index points into the list (which is then not empty). *)
Definition index_in_range (g : ImageGallery) : Prop :=
  0 <= current_index g < Z.of_nat (length (filtered_images g)).

(** The attributes that navigation is about. *)
Definition view_of (g : ImageGallery) : list ImageData * Z * Q * Z * Z :=
  (filtered_images g, current_index g, zoom_level g, pan_x g, pan_y g).

(** ** Statements about the resolver, the worker and the renderer *)

(** The decode inside [get_aspect_ratio_fast] fails: the file does not
    open, or its height is zero and the division raises. *)
Definition decode_fails (pil : Pillow) (p : string) : Prop :=
  image_open pil p = None ∨ ∃ w, image_open pil p = Some (w, 0).

(** Successive calls of the resolver, one per path. *)
Definition resolve_many (pil : Pillow) (ps : list string) (g : ImageGallery)
    : ImageGallery :=
  foldl (λ g q, (get_aspect_ratio_fast pil q g).1) g ps.

(** What one task adds to the result queue. *)
Definition published (pil : Pillow) (task : Task) (g : ImageGallery)
    : list Result → Prop :=
  λ rs, result_queue (worker_task pil task g) = result_queue g ++ rs.

(** The claim on the worker without a condition on decoding: a task whose
    key is cached publishes nothing, any other publishes one result. *)
Definition one_result_per_uncached_task : Prop :=
  ∀ (pil : Pillow) (p : string) (width priority : Z) (g : ImageGallery),
  (FastImageCache.holds (thumb_key p width) (thumb_cache g) →
   published pil (p, width, priority) g [])
  ∧ (¬ FastImageCache.holds (thumb_key p width) (thumb_cache g) →
     ∃ r, published pil (p, width, priority) g [r]).

(** The margin around the viewport, in pixels. *)
Definition overscan : Z := 300.

(** The window in the words of the specification:
    [visible_top = scroll_fraction × total_height − overscan] and
    [visible_bottom = visible_top + viewport_height + 2×overscan]. *)
Definition claimed_window (g : ImageGallery) : Q * Q :=
  let total_h :=
    match scrollregion (canvas g) with
    | Some (_, _, _, h) => h
    | None => winfo_height (canvas g)
    end in
  let visible_top :=
    (yview_top (canvas g) * inject_Z total_h - inject_Z overscan)%Q in
  (visible_top,
   (visible_top + inject_Z (winfo_height (canvas g))
    + 2 * inject_Z overscan)%Q).

(** The vertical span of [pos] lies entirely outside the window. *)
Definition outside (window : Q * Q) (pos : Position) : Prop :=
  let '(_, y, _, h) := pos in
  (inject_Z (y + h) < window.1)%Q ∨ (window.2 < inject_Z y)%Q.

(** The items that a pass can put on the canvas for [pos]. *)
Definition item_at (pos : Position) (it : CanvasItem) : Prop :=
  let '(x, y, w, h) := pos in
  it = Placeholder x y (x + w) (y + h)
  ∨ it = Highlight (x - 2) (y - 2) (x + w + 2) (y + h + 2)
  ∨ ∃ photo, it = ThumbImage x y photo.

(** ** The masonry rule, in the words of the specification *)

(** The ratio that the resolver yields for a path. *)
Definition resolved (pil : Pillow) (g : ImageGallery) (p : string) : Q :=
  (get_aspect_ratio_fast pil p g).2.

(** The horizontal place of column [c]. *)
Definition column_x (col_w gap : Z) (c : nat) : Z :=
  gap + Z.of_nat c * (col_w + gap).

(** "For each image in catalog order, select the column with the minimum
    current height, compute the image's height from column_width /
    aspect_ratio, place it at (column_x, column_height), and advance that
    column's height by image_height + gap."  [masonry_by height col_w gap
    heights imgs placed heights'] relates the accumulators before, the
    images with their ratios, the placements, and the accumulators after,
    for a tile of height [height aspect]. *)
Inductive masonry_by (height : Q → Z) (col_w gap : Z)
  : list Z → list (string * Q) → list (string * Position) → list Z → Prop :=
  | masonry_done heights : masonry_by height col_w gap heights [] [] heights
  | masonry_place heights p aspect rest (c : nat) y placed heights' :
      heights !! c = Some y →
      (∀ y', y' ∈ heights → y <= y') →
      masonry_by height col_w gap
        (<[c := y + height aspect + gap]> heights) rest placed heights' →
      masonry_by height col_w gap heights ((p, aspect) :: rest)
        ((p, (column_x col_w gap c, y, col_w, height aspect)) :: placed)
        heights'.

(** The height of a tile as floats give it: [int(col_w / aspect)], the
    quotient rounded to binary64 and then truncated. *)
Definition tile_height (col_w : Z) (aspect : Q) : Z :=
  py_int (fdiv (float_of_int col_w) aspect).

(** The rule with the heights that floats give. *)
Definition masonry (col_w gap : Z)
  : list Z → list (string * Q) → list (string * Position) → list Z → Prop :=
  masonry_by (tile_height col_w) col_w gap.

(** The position map of a list of placements: a later placement of a path
    takes the place of an earlier one. *)
Definition add_placements (d placed : list (string * Position))
    : list (string * Position) :=
  foldl (λ d e, OrderedDict.setitem e.1 e.2 d) d placed.

(** The images of the gallery with the ratios the resolver yields. *)
Definition with_ratios (pil : Pillow) (g : ImageGallery)
    : list (string * Q) :=
  (λ img, (path img, resolved pil g (path img))) <$> filtered_images g.

(** The content height that a layout left in the scroll region. *)
Definition total_height (g : ImageGallery) : option Z :=
  match scrollregion (canvas g) with
  | Some (_, _, _, h) => Some h
  | None => None
  end.

(** "Identical ordered image list, identical memoized aspect ratios,
    identical column count, canvas width and gap." *)
Definition same_memoized_inputs (g1 g2 : ImageGallery) : Prop :=
  filtered_images g1 = filtered_images g2
  ∧ aspect_cache g1 = aspect_cache g2
  ∧ layout_columns g1 = layout_columns g2
  ∧ winfo_width (canvas g1) = winfo_width (canvas g2)
  ∧ gap g1 = gap g2.

(** "The produced position maps and total heights are identical", for a
    run that decodes with [pil1] and a run that decodes with [pil2]. *)
Definition same_layout (pil1 pil2 : Pillow) (g1 g2 : ImageGallery) : Prop :=
  image_positions (calculate_layout pil1 g1).1
  = image_positions (calculate_layout pil2 g2).1
  ∧ total_height (calculate_layout pil1 g1).1
    = total_height (calculate_layout pil2 g2).1.

(** One image whose file cannot be read at first and can be read later,
    in a gallery that has memoized nothing. *)
Definition unreadable : Pillow := mkPillow (λ _, None) (λ _ _ _, true).

Definition readable : Pillow :=
  mkPillow (λ _, Some (400, 200)) (λ _ w h, bool_decide (0 < w ∧ 0 < h)).

Definition one_image_gallery : ImageGallery :=
  set_filtered_images [mkImageData "late.png" "late" false]
    (init_gallery (mkCanvas 804 600 0 None [])).

(** Two galleries give the layout the same inputs. *)
Definition same_layout_inputs (pil1 pil2 : Pillow) (g1 g2 : ImageGallery)
    : Prop :=
  filtered_images g1 = filtered_images g2
  ∧ layout_columns g1 = layout_columns g2
  ∧ winfo_width (canvas g1) = winfo_width (canvas g2)
  ∧ gap g1 = gap g2
  ∧ ∀ img, img ∈ filtered_images g1 →
      resolved pil1 g1 (path img) = resolved pil2 g2 (path img).

(** What the loop leaves alone. *)
Definition layout_frame (pil : Pillow) (g g' : ImageGallery) : Prop :=
  filtered_images g' = filtered_images g
  ∧ view_mode g' = view_mode g
  ∧ num_columns g' = num_columns g
  ∧ gap g' = gap g
  ∧ winfo_width (canvas g') = winfo_width (canvas g)
  ∧ ∀ q, resolved pil g' q = resolved pil g q.

(** Twelve images of ratio 1.0 with distinct paths, four columns,
    gap 4, on a canvas whose width is an integer that floats represent
    exactly. *)
Definition twelve_squares (pil : Pillow) (g : ImageGallery) : Prop :=
  1 < winfo_width (canvas g) < 2 ^ 53
  ∧ gap g = 4 ∧ layout_columns g = 4
  ∧ length (filtered_images g) = 12%nat
  ∧ NoDup (path <$> filtered_images g)
  ∧ ∀ img, img ∈ filtered_images g → (resolved pil g (path img) == 1)%Q.

(** A catalog for the examples. *)
Definition catalog_of_twelve : list ImageData :=
  [mkImageData "01.png" "01" false;
   mkImageData "02.png" "02" false;
   mkImageData "03.png" "03" false;
   mkImageData "04.png" "04" false;
   mkImageData "05.png" "05" false;
   mkImageData "06.png" "06" false;
   mkImageData "07.png" "07" false;
   mkImageData "08.png" "08" false;
   mkImageData "09.png" "09" false;
   mkImageData "10.png" "10" false;
   mkImageData "11.png" "11" false;
   mkImageData "12.png" "12" false].

(** ** Cache keys *)

(** The separator of [thumb_key], the character of ["_"]. *)
Definition underscore : Ascii.ascii :=
  Ascii.Ascii true true true true true false true false.

(** The character [a] occurs in [s]. *)
Fixpoint occurs (a : Ascii.ascii) (s : string) : Prop :=
  match s with
  | EmptyString => False
  | String b s' => a = b ∨ occurs a s'
  end.

(** ** Geometry of a layout *)

(** The decoder yields positive sizes only. *)
Definition positive_sizes (pil : Pillow) : Prop :=
  ∀ p w h, image_open pil p = Some (w, h) → 0 < w ∧ 0 < h.

(** Every memoized ratio is positive. *)
Definition positive_ratios (g : ImageGallery) : Prop :=
  ∀ p r, aspect_cache g !! p = Some r → (0 < r)%Q.

(** The placements, in order, keep clear of each other inside a column:
    of two placements with the same [x], the later one starts at least a
    gap below the end of the earlier one. *)
Definition stacked (gap : Z) (placed : list (string * Position)) : Prop :=
  ∀ (i j : nat) p x y w h p' y' w' h',
    (i < j)%nat →
    placed !! i = Some (p, (x, y, w, h)) →
    placed !! j = Some (p', (x, y', w', h')) →
    y + h + gap <= y'.

(** A decoder and a gallery of six images, the third of which does not
    decode, for the examples. *)
Definition sample_pil : Pillow :=
  mkPillow
    (λ p, if decide (p = "wide.png") then Some (400, 200)
          else if decide (p = "tall.png") then Some (200, 400)
          else if decide (p = "bad.png") then None
          else Some (300, 300))
    (λ _ w h, bool_decide (0 < w ∧ 0 < h)).

Definition sample_gallery : ImageGallery :=
  set_filtered_images
    [mkImageData "wide.png" "wide" false;
     mkImageData "tall.png" "tall" true;
     mkImageData "bad.png" "bad" false;
     mkImageData "d.png" "d" false;
     mkImageData "e.png" "e" true;
     mkImageData "f.png" "f" false]
    (init_gallery (mkCanvas 804 600 0 None [])).

(** ** What a render pass leaves alone *)

(** The image that [update_visible_thumbs] looks up for a path: the first
    of [filtered_images] with this path. *)
Definition image_of_path (p : string) (g : ImageGallery)
    : option ImageData :=
  head (filter (λ img, path img = p) (filtered_images g)).

(** [g'] differs from [g] at most in the canvas items, the order of the
    thumbnail cache and the task queue. *)
Definition render_frame (g g' : ImageGallery) : Prop :=
  filtered_images g' = filtered_images g
  ∧ image_positions g' = image_positions g
  ∧ aspect_cache g' = aspect_cache g
  ∧ img_cache g' = img_cache g
  ∧ result_queue g' = result_queue g
  ∧ opened g' = opened g
  ∧ view_of g' = view_of g
  ∧ winfo_width (canvas g') = winfo_width (canvas g)
  ∧ winfo_height (canvas g') = winfo_height (canvas g)
  ∧ yview_top (canvas g') = yview_top (canvas g)
  ∧ scrollregion (canvas g') = scrollregion (canvas g).

(** The thumbnail caches of [g] and [g'] hold the same bitmaps. *)
Definition same_thumbs (g g' : ImageGallery) : Prop :=
  ∀ k, OrderedDict.getitem k (FastImageCache.cache (thumb_cache g'))
       = OrderedDict.getitem k (FastImageCache.cache (thumb_cache g)).

(** A gallery after a layout pass whose thumbnail cache holds the
    thumbnail of one tile, for the examples. *)
Definition sample_laid_out : ImageGallery :=
  let g := (calculate_layout sample_pil sample_gallery).1 in
  set_thumb_cache
    (FastImageCache.put (thumb_key "tall.png" 196)
       (mkBitmap "tall.png" 196 392 (Some LANCZOS)) (thumb_cache g)) g.

(** ** Handlers of the mouse and of the result queue *)

(** [self] with the attributes that the handlers below use besides those
    of [ImageGallery]: the flag of the grid view and the point where the
    last drag step started. *)
Record Viewer := mkViewer {
  gallery : ImageGallery;
  grid_mode : bool;
  pan_start_x : Z;
  pan_start_y : Z
}.

Definition set_gallery v (s : Viewer) : Viewer :=
  mkViewer v (grid_mode s) (pan_start_x s) (pan_start_y s).
Definition set_grid_mode v (s : Viewer) : Viewer :=
  mkViewer (gallery s) v (pan_start_x s) (pan_start_y s).
Definition set_pan_start_x v (s : Viewer) : Viewer :=
  mkViewer (gallery s) (grid_mode s) v (pan_start_y s).
Definition set_pan_start_y v (s : Viewer) : Viewer :=
  mkViewer (gallery s) (grid_mode s) (pan_start_x s) v.

(** [__init__]: a new gallery starts in the grid view. *)
Definition init_viewer (cv : Canvas) : Viewer :=
  mkViewer (init_gallery cv) true 0 0.

#[global] Instance ImageData_eq_dec : EqDecision ImageData.
Proof. solve_decision. Defined.

(** [list.index] on the catalog: the first position of an entry equal to
    [x]; [None] stands for [x not in l]. *)
Fixpoint index_of (x : ImageData) (l : list ImageData) : option nat :=
  match l with
  | [] => None
  | y :: l' => if decide (y = x) then Some 0%nat else S <$> index_of x l'
  end.

(** [x <= click_x <= x + w and y <= click_y <= y + h] *)
Definition hit (click_x click_y : Q) (pos : Position) : bool :=
  let '(x, y, w, h) := pos in
  Qle_bool (inject_Z x) click_x && Qle_bool click_x (inject_Z (x + w))
  && Qle_bool (inject_Z y) click_y && Qle_bool click_y (inject_Z (y + h)).

(** [check_results], the loop that takes at most [fuel] results from the
    queue, with the number of results taken. *)
Fixpoint drain_results (fuel : nat) (g : ImageGallery)
    : ImageGallery * nat :=
  match fuel with
  | O => (g, O)
  | S fuel' =>
      match result_queue g with
      | [] => (g, O)
      | (key, thumb, _) :: rest =>
          let g := set_result_queue rest g in
          let g :=
            set_thumb_cache
              (FastImageCache.put key thumb (thumb_cache g)) g in
          let '(g, count) := drain_results fuel' g in
          (g, S count)
      end
  end.

Section handlers.
Variable pil : Pillow.

(** [show_single_img] *)
Definition show_single_img (img_data : ImageData) (s : Viewer) : Viewer :=
  match index_of img_data (filtered_images (gallery s)) with
  | None => s
  | Some i =>
      let g := set_current_index (Z.of_nat i) (gallery s) in
      let g := set_single_view_mode true g in
      let s := set_grid_mode false (set_gallery g s) in
      let g := set_zoom_level 1%Q (gallery s) in
      let g := set_pan_y 0 (set_pan_x 0 g) in
      set_gallery (display_current_image pil g) s
  end.

(** [handle_grid_click], the loop over [image_positions]; [click_x] and
    [click_y] are the canvas coordinates of the click, as [canvasx] and
    [canvasy] give them. *)
Fixpoint grid_click (click_x click_y : Q)
    (entries : list (string * Position)) (s : Viewer) : Viewer :=
  match entries with
  | [] => s
  | (p, pos) :: rest =>
      if hit click_x click_y pos then
        match image_of_path p (gallery s) with
        | Some img_data => show_single_img img_data s
        | None => grid_click click_x click_y rest s
        end
      else grid_click click_x click_y rest s
  end.

(** [handle_grid_click] *)
Definition handle_grid_click (click_x click_y : Q) (s : Viewer) : Viewer :=
  grid_click click_x click_y (image_positions (gallery s)) s.

(** [on_click] for an event at [(x, y)] in window coordinates and
    [(click_x, click_y)] in canvas coordinates.  The ghost arrows that a
    click shows in the full-screen single view are widgets outside the
    model. *)
Definition on_click (x y : Z) (click_x click_y : Q) (s : Viewer) : Viewer :=
  if grid_mode s then handle_grid_click click_x click_y s
  else if single_view_mode (gallery s) then
    if Qltb 1 (zoom_level (gallery s))
    then set_pan_start_y y (set_pan_start_x x s)
    else s
  else s.

(** [on_drag] for an event at [(x, y)]. *)
Definition on_drag (x y : Z) (s : Viewer) : Viewer :=
  if single_view_mode (gallery s) && Qltb 1 (zoom_level (gallery s)) then
    let g := gallery s in
    let g := set_pan_x (pan_x g + (x - pan_start_x s)) g in
    let g := set_pan_y (pan_y g + (y - pan_start_y s)) g in
    let s := set_pan_start_y y (set_pan_start_x x s) in
    set_gallery (debounced_display g) s
  else s.

(** [check_results]; the timer that calls it again is outside the
    model. *)
Definition check_results (s : Viewer) : Viewer :=
  let '(g, count) := drain_results 10 (gallery s) in
  if bool_decide (0 < count)%nat && grid_mode s
  then set_gallery (update_visible_thumbs g) s
  else set_gallery g s.

End handlers.

(** The events of the single view and of the grid that the model
    covers. *)
Inductive ViewOp :=
  | OpZoomIn
  | OpZoomOut
  | OpPrev
  | OpNext
  | OpClick (x y : Z) (click_x click_y : Q)
  | OpDrag (x y : Z)
  | OpResults.

Definition view_step (pil : Pillow) (s : Viewer) (o : ViewOp) : Viewer :=
  match o with
  | OpZoomIn => set_gallery (zoom_in_fn (gallery s)) s
  | OpZoomOut => set_gallery (zoom_out_fn (gallery s)) s
  | OpPrev => set_gallery (prev_img pil (gallery s)) s
  | OpNext => set_gallery (next_img pil (gallery s)) s
  | OpClick x y click_x click_y => on_click pil x y click_x click_y s
  | OpDrag x y => on_drag x y s
  | OpResults => check_results s
  end.

Definition view_run (pil : Pillow) (ops : list ViewOp) (s : Viewer)
    : Viewer :=
  foldl (view_step pil) s ops.

(** A drag: the pointer moves through [pts] with the button held. *)
Definition drag_run (pts : list (Z * Z)) (s : Viewer) : Viewer :=
  foldl (λ s pt, on_drag pt.1 pt.2 s) s pts.

(** A picture that fits the canvas is centred: at a zoom level of at most
    1 there is no pan offset. *)
Definition fit_centred (g : ImageGallery) : Prop :=
  (zoom_level g <= 1)%Q → pan_x g = 0 ∧ pan_y g = 0.

(** The two mode flags agree. *)
Definition modes_agree (s : Viewer) : Prop :=
  grid_mode s = negb (single_view_mode (gallery s)).

(** Viewers for the examples: the sample gallery in the grid view, and the
    second image of the sample gallery in the single view at zoom level
    2. *)
Definition sample_viewer : Viewer := mkViewer sample_gallery true 0 0.

Definition sample_zoomed : Viewer :=
  let g := set_current_index 1 (set_single_view_mode true sample_gallery) in
  mkViewer (set_zoom_level 2 (display_current_image sample_pil g))
    false 0 0.

(** ** The canvas of the single view *)


(** ** Balance of the columns *)

(** The column accumulators differ by at most [bound]. *)
Definition balanced (bound : Z) (heights : list Z) : Prop :=
  ∀ a b, a ∈ heights → b ∈ heights → a - b <= bound.

(** [calculate_layout], the column accumulators when the loop over
    [filtered_images] is left; [None] when the pass is postponed or
    raises. *)
Definition final_col_heights (pil : Pillow) (g : ImageGallery)
    : option (list Z) :=
  if decide (winfo_width (canvas g) <= 1) then None else
  let cols := layout_columns g in
  let col_w := column_width (winfo_width (canvas g)) (gap g) cols in
  (place_images pil col_w (gap g) (filtered_images g)
     (replicate (Z.to_nat cols) (gap g)) (set_image_positions [] g)).2.

(** * Theorems *)

(** ** Rounding *)

Module FloatFacts.

Lemma two_pow_pos (e : Z) : (0 < 2 ^ e)%Q.
Proof. by apply Qpower_0_lt. Qed.

Lemma two_pow_succ (e : Z) : (2 ^ (e + 1) == 2 * 2 ^ e)%Q.
Proof. rewrite Qpower_plus by done. change (2 ^ 1)%Q with 2%Q. ring. Qed.

Lemma two_pow_Z (n : Z) : 0 <= n → (inject_Z (2 ^ n) == 2 ^ n)%Q.
Proof. intros Hn. by rewrite Zpower_Qpower. Qed.

Lemma binade_spec (q : Q) :
  (0 < q)%Q → (2 ^ binade q <= q)%Q ∧ (q < 2 ^ (binade q + 1))%Q.
Proof.
  intros Hq. unfold binade.
  set (n := Qnum q). set (d := Z.pos (Qden q)).
  assert (0 < n) as Hn by (unfold Qlt in Hq; cbn in Hq; lia).
  assert (0 < d) as Hd by done.
  set (ln := Z.log2 n). set (ld := Z.log2 d).
  destruct (Z.log2_spec n Hn) as [Hn1 Hn2]. fold ln in Hn1, Hn2.
  destruct (Z.log2_spec d Hd) as [Hd1 Hd2]. fold ld in Hd1, Hd2.
  pose proof (Z.log2_nonneg n) as Hln. pose proof (Z.log2_nonneg d) as Hld.
  fold ln in Hln. fold ld in Hld.
  assert (q == inject_Z n / inject_Z d)%Q as Hqd.
  { destruct q as [qn qd]. apply Qmake_Qdiv. }
  assert (0 < inject_Z n)%Q as Hn0.
  { change 0%Q with (inject_Z 0). by rewrite <-Zlt_Qlt. }
  assert (0 < inject_Z d)%Q as Hd0.
  { change 0%Q with (inject_Z 0). by rewrite <-Zlt_Qlt. }
  (* the powers as rationals *)
  assert (2 ^ ln <= inject_Z n)%Q as Qn1.
  { rewrite <-two_pow_Z by done. by rewrite <-Zle_Qle. }
  assert (inject_Z n < 2 * 2 ^ ln)%Q as Qn2.
  { rewrite <-two_pow_succ, <-two_pow_Z by lia. rewrite <-Zlt_Qlt.
    by rewrite <-Z.add_1_r in Hn2. }
  assert (2 ^ ld <= inject_Z d)%Q as Qd1.
  { rewrite <-two_pow_Z by done. by rewrite <-Zle_Qle. }
  assert (inject_Z d < 2 * 2 ^ ld)%Q as Qd2.
  { rewrite <-two_pow_succ, <-two_pow_Z by lia. rewrite <-Zlt_Qlt.
    by rewrite <-Z.add_1_r in Hd2. }
  pose proof (two_pow_pos ln) as Pn. pose proof (two_pow_pos ld) as Pd.
  assert (2 ^ (ln - ld) == 2 ^ ln / 2 ^ ld)%Q as Hk by (by apply Qpower_minus).
  assert (q * inject_Z d == inject_Z n)%Q as Hqn.
  { rewrite Hqd. field. lra. }
  assert (2 ^ (ln - ld) * 2 ^ ld == 2 ^ ln)%Q as Hk'.
  { rewrite Hk. field. lra. }
  set (K := (2 ^ (ln - ld))%Q) in *. set (A := (2 ^ ln)%Q) in *.
  set (B := (2 ^ ld)%Q) in *. set (N := inject_Z n) in *.
  set (D := inject_Z d) in *.
  (* K / 2 <= q < 2 K *)
  assert (0 < K)%Q as PK by (subst K; apply two_pow_pos).
  assert (K <= 2 * q)%Q as Hlow.
  { apply Qnot_lt_le. intros Hc.
    pose proof (Qmult_lt_0_compat (K - 2 * q) D ltac:(lra) Hd0) as H1.
    pose proof (Qmult_lt_0_compat K (2 * B - D) PK ltac:(lra)) as H2.
    lra. }
  assert (q < 2 * K)%Q as Hhigh.
  { apply Qnot_le_lt. intros Hc.
    pose proof (Qmult_le_0_compat (q - 2 * K) D ltac:(lra) ltac:(lra)) as H1.
    pose proof (Qmult_le_0_compat K (D - B) ltac:(lra) ltac:(lra)) as H2.
    lra. }
  destruct (Qle_bool K q) eqn:Hle.
  - apply Qle_bool_iff in Hle. split; [done|]. by rewrite two_pow_succ.
  - assert (q < K)%Q as Hlt.
    { apply Qnot_le_lt. intros Hc. apply Qle_bool_iff in Hc. congruence. }
    replace (ln - ld - 1 + 1) with (ln - ld) by lia.
    split; [|done].
    assert (2 * 2 ^ (ln - ld - 1) == K)%Q as HK2.
    { rewrite <-two_pow_succ. subst K.
      by replace (ln - ld - 1 + 1) with (ln - ld) by lia. }
    lra.
Qed.

(** *** Rounding to an integer *)

Lemma round_half_even_cases (q : Q) :
  let f := Qfloor q in
  let r := round_half_even q in
  (inject_Z f <= q)%Q ∧ (q < inject_Z f + 1)%Q
  ∧ ((q - inject_Z f < 1 # 2)%Q ∧ r = f
     ∨ (1 # 2 < q - inject_Z f)%Q ∧ r = f + 1
     ∨ (q - inject_Z f == 1 # 2)%Q ∧ (r = f ∨ r = f + 1)).
Proof.
  cbv zeta. pose proof (Qfloor_le q) as Hlo. pose proof (Qlt_floor q) as Hhi.
  rewrite inject_Z_plus in Hhi. change (inject_Z 1) with 1%Q in Hhi.
  split; [done|]. split; [done|]. unfold round_half_even.
  destruct ((q - inject_Z (Qfloor q)) ?= (1 # 2))%Q eqn:Hc.
  - apply Qeq_alt in Hc. right. right. split; [done|].
    destruct (Z.even _); auto.
  - apply Qlt_alt in Hc. left. done.
  - apply Qgt_alt in Hc. right. left. done.
Qed.

Lemma round_half_even_near (q : Q) :
  (inject_Z (round_half_even q) - q <= 1 # 2)%Q
  ∧ (q - inject_Z (round_half_even q) <= 1 # 2)%Q.
Proof.
  destruct (round_half_even_cases q)
    as (Hlo & Hhi & [[H ->]|[[H ->]|[H [-> | ->]]]]);
    rewrite ?inject_Z_plus; change (inject_Z 1) with 1%Q; split; lra.
Qed.

Lemma round_half_even_Z (z : Z) : round_half_even (inject_Z z) = z.
Proof.
  destruct (round_half_even_cases (inject_Z z))
    as (Hlo & Hhi & Hc). rewrite Qfloor_Z in *.
  destruct Hc as [[H ->]|[[H ->]|[H _]]]; [done|lra|lra].
Qed.

Lemma round_half_even_proper (q q' : Q) :
  (q == q')%Q → round_half_even q = round_half_even q'.
Proof.
  intros Heq. unfold round_half_even.
  rewrite (Qfloor_comp _ _ Heq).
  assert (((q - inject_Z (Qfloor q')) ?= (1 # 2))%Q
          = ((q' - inject_Z (Qfloor q')) ?= (1 # 2))%Q) as ->; [|done].
  by rewrite Heq.
Qed.

Lemma round_half_even_mono (q q' : Q) :
  (q <= q')%Q → round_half_even q <= round_half_even q'.
Proof.
  intros Hle. pose proof (Qfloor_resp_le _ _ Hle) as Hf.
  destruct (round_half_even_cases q) as (Hlo & Hhi & Hc).
  destruct (round_half_even_cases q') as (Hlo' & Hhi' & Hc').
  destruct (decide (Qfloor q = Qfloor q')) as [Heq|Hne].
  - rewrite <-Heq in *.
    destruct Hc as [[H Hr]|[[H Hr]|[H Hr]]];
      destruct Hc' as [[H' Hr']|[[H' Hr']|[H' Hr']]];
      try lia; try lra.
    (* both ties: the same value *)
    assert (q == q')%Q as Hqq by lra.
    rewrite (round_half_even_proper _ _ Hqq). lia.
  - assert (Qfloor q + 1 <= Qfloor q') by lia.
    destruct Hc as [[_ ->]|[[_ ->]|[_ [-> | ->]]]];
      destruct Hc' as [[_ ->]|[[_ ->]|[_ [-> | ->]]]]; lia.
Qed.

Lemma round_half_even_floor (q : Q) :
  Qfloor q <= round_half_even q <= Qfloor q + 1.
Proof.
  destruct (round_half_even_cases q)
    as (_ & _ & [[_ ->]|[[_ ->]|[_ [-> | ->]]]]); lia.
Qed.

(** *** Rounding to binary64 *)

Lemma round64_proper (q q' : Q) : (q == q')%Q → round64 q = round64 q'.
Proof. intros Heq. unfold round64. by rewrite (Qred_complete _ _ Heq). Qed.

Lemma round64_0 : round64 0 = 0%Q.
Proof. reflexivity. Qed.

(** The value of [round64] away from zero. *)
Lemma round64_eq (q : Q) :
  ¬ (q == 0)%Q →
  let e := binade (Qabs (Qred q)) - 52 in
  (round64 q == inject_Z (round_half_even (q / 2 ^ e)) * 2 ^ e)%Q.
Proof.
  intros Hq. cbv zeta. unfold round64.
  destruct (Qeq_bool (Qred q) 0) eqn:Hz.
  { apply Qeq_bool_iff in Hz. rewrite Qred_correct in Hz. done. }
  etransitivity; [apply Qred_correct|].
  assert (Qred q / 2 ^ (binade (Qabs (Qred q)) - 52)
          == q / 2 ^ (binade (Qabs (Qred q)) - 52))%Q as Heq
    by (generalize (binade (Qabs (Qred q)) - 52); intros e;
        by rewrite Qred_correct).
  by rewrite (round_half_even_proper _ _ Heq).
Qed.

(** The scaled significand of a positive number lies in
    [[2^52, 2^53)]. *)
Lemma significand_range (q : Q) :
  (0 < q)%Q →
  let e := binade q - 52 in
  (2 ^ 52 <= q / 2 ^ e)%Q ∧ (q / 2 ^ e < 2 ^ 53)%Q.
Proof.
  intros Hq. cbv zeta. destruct (binade_spec q Hq) as [Hlo Hhi].
  pose proof (two_pow_pos (binade q - 52)) as He.
  assert (2 ^ binade q == 2 ^ 52 * 2 ^ (binade q - 52))%Q as H1.
  { rewrite <-Qpower_plus by done. by replace (52 + (binade q - 52))
      with (binade q) by lia. }
  assert (2 ^ (binade q + 1) == 2 ^ 53 * 2 ^ (binade q - 52))%Q as H2.
  { rewrite <-Qpower_plus by done. by replace (53 + (binade q - 52))
      with (binade q + 1) by lia. }
  split.
  - apply Qle_shift_div_l; [done|]. by rewrite <-H1.
  - apply Qlt_shift_div_r; [done|]. by rewrite <-H2.
Qed.

Lemma round64_pos (q : Q) : (0 < q)%Q → (0 < round64 q)%Q.
Proof.
  intros Hq. rewrite round64_eq by lra.
  assert (Qabs (Qred q) == q)%Q as Habs.
  { rewrite Qred_correct. apply Qabs_pos. lra. }
  assert (0 < Qabs (Qred q))%Q as Hq' by (by rewrite Habs).
  destruct (significand_range _ Hq') as [Hlo _].
  set (e := binade (Qabs (Qred q)) - 52) in *.
  pose proof (two_pow_pos e) as He.
  assert (q / 2 ^ e == Qabs (Qred q) / 2 ^ e)%Q as Hx by (by rewrite Habs).
  rewrite (round_half_even_proper _ _ Hx).
  pose proof (round_half_even_floor (Qabs (Qred q) / 2 ^ e)) as [Hf _].
  pose proof (Qfloor_resp_le _ _ Hlo) as Hf'.
  assert (Qfloor (2 ^ 52) = 2 ^ 52) as Hp by reflexivity.
  rewrite Hp in Hf'.
  apply Qmult_lt_0_compat; [|done].
  change 0%Q with (inject_Z 0). rewrite <-Zlt_Qlt. lia.
Qed.

Lemma round64_nonneg (q : Q) : (0 <= q)%Q → (0 <= round64 q)%Q.
Proof.
  intros Hq. destruct (Qeq_dec q 0) as [Hz|Hnz].
  - by rewrite (round64_proper _ _ Hz).
  - apply Qlt_le_weak, round64_pos.
    destruct (Qlt_le_dec 0 q); [done|]. destruct Hnz.
    by apply Qle_antisym.
Qed.

(** An integer of at most 53 bits is a binary64 number. *)
Lemma round64_Z (n : Z) :
  0 <= n < 2 ^ 53 → round64 (inject_Z n) = inject_Z n.
Proof.
  intros [Hn0 Hn]. destruct (decide (n = 0)) as [->|Hnz]; [done|].
  assert (0 < n) as Hpos by lia.
  assert (Qred (round64 (inject_Z n)) = Qred (inject_Z n)) as Hred.
  { apply Qred_complete. rewrite round64_eq.
    2:{ intros Hc. unfold Qeq in Hc. cbn in Hc. lia. }
    cbv zeta.
    assert (Qred (inject_Z n) = inject_Z n) as -> by
      (apply Qred_identity; cbn; by rewrite Z.gcd_1_r).
    assert (Qabs (inject_Z n) = inject_Z n) as ->.
    { unfold Qabs, inject_Z. by rewrite Z.abs_eq by lia. }
    assert (binade (inject_Z n) = Z.log2 n) as ->.
    { unfold binade. cbn [Qnum Qden inject_Z]. change (Z.log2 1) with 0.
      rewrite Z.sub_0_r.
      destruct (Qle_bool (2 ^ Z.log2 n) (inject_Z n)) eqn:Hle; [done|].
      assert (2 ^ Z.log2 n <= inject_Z n)%Q as Hc;
        [|apply Qle_bool_iff in Hc; congruence].
      rewrite <-two_pow_Z by apply Z.log2_nonneg. rewrite <-Zle_Qle.
      by apply Z.log2_spec. }
    set (l := Z.log2 n).
    assert (0 <= l <= 52) as Hl.
    { split; [apply Z.log2_nonneg|].
      assert (l < 53); [|lia]. apply Z.log2_lt_pow2; done. }
    assert (2 ^ (l - 52) * inject_Z (2 ^ (52 - l)) == 1)%Q as Hinv.
    { rewrite two_pow_Z by lia. rewrite <-Qpower_plus by done.
      by replace (l - 52 + (52 - l)) with 0 by lia. }
    pose proof (two_pow_pos (l - 52)) as He.
    assert (inject_Z (2 ^ (52 - l)) == / 2 ^ (l - 52))%Q as HI.
    { apply (Qmult_inj_l _ _ (2 ^ (l - 52))); [lra|].
      rewrite Hinv, Qmult_inv_r; [done | lra]. }
    assert (inject_Z n / 2 ^ (l - 52) == inject_Z (n * 2 ^ (52 - l)))%Q as Hx.
    { rewrite inject_Z_mult, HI. reflexivity. }
    rewrite (round_half_even_proper _ _ Hx), round_half_even_Z.
    rewrite inject_Z_mult, HI. field. lra. }
  assert (∀ q, Qred (round64 q) = round64 q) as Hidem.
  { intros q. unfold round64. destruct (Qeq_bool _ _); [done|].
    apply Qred_involutive. }
  rewrite Hidem in Hred. rewrite Hred.
  apply Qred_identity. cbn. by rewrite Z.gcd_1_r.
Qed.

Lemma round64_neg (q : Q) : (q < 0)%Q → (round64 q < 0)%Q.
Proof.
  intros Hq. rewrite round64_eq by lra.
  assert (Qabs (Qred q) == - q)%Q as Habs.
  { rewrite Qred_correct. apply Qabs_neg. lra. }
  assert (0 < Qabs (Qred q))%Q as Hq' by (rewrite Habs; lra).
  destruct (significand_range _ Hq') as [Hlo _].
  set (e := binade (Qabs (Qred q)) - 52) in *.
  pose proof (two_pow_pos e) as He.
  assert (q / 2 ^ e <= - 2 ^ 52)%Q as Hx.
  { assert (q / 2 ^ e == - (Qabs (Qred q) / 2 ^ e))%Q as ->; [|lra].
    rewrite Habs. field. lra. }
  pose proof (round_half_even_floor (q / 2 ^ e)) as [_ Hf].
  pose proof (Qfloor_resp_le _ _ Hx) as Hf'.
  assert (Qfloor (- 2 ^ 52) = - 2 ^ 52) as Hp by reflexivity.
  rewrite Hp in Hf'.
  assert (inject_Z (round_half_even (q / 2 ^ e)) < 0)%Q as Hm.
  { change 0%Q with (inject_Z 0). rewrite <-Zlt_Qlt. lia. }
  assert (0 < - inject_Z (round_half_even (q / 2 ^ e)))%Q as Hm' by lra.
  pose proof (Qmult_lt_0_compat _ _ Hm' He) as Hprod.
  lra.
Qed.

Lemma round64_zero_iff (q : Q) : (round64 q == 0)%Q ↔ (q == 0)%Q.
Proof.
  split.
  - intros Hz. destruct (Q_dec q 0) as [[Hlt|Hgt]|Heq]; [| |done].
    + pose proof (round64_neg q Hlt). lra.
    + pose proof (round64_pos q Hgt). lra.
  - intros Hz. by rewrite (round64_proper _ _ Hz).
Qed.

Lemma round64_upper (q : Q) : (0 <= q)%Q → (round64 q <= q * ulp_bound)%Q.
Proof.
  intros Hq0. destruct (Qeq_dec q 0) as [Hz|Hnz].
  { rewrite (round64_proper _ _ Hz), round64_0, Hz. by vm_compute. }
  assert (0 < q)%Q as Hq.
  { destruct (Qlt_le_dec 0 q); [done|]. destruct Hnz. by apply Qle_antisym. }
  rewrite round64_eq by done.
  assert (Qabs (Qred q) == q)%Q as Habs.
  { rewrite Qred_correct. apply Qabs_pos. lra. }
  assert (0 < Qabs (Qred q))%Q as Hq' by (by rewrite Habs).
  destruct (significand_range _ Hq') as [Hlo _].
  set (e := binade (Qabs (Qred q)) - 52) in *.
  pose proof (two_pow_pos e) as He.
  assert (Qabs (Qred q) / 2 ^ e == q / 2 ^ e)%Q as Hx by (by rewrite Habs).
  rewrite Hx in Hlo.
  destruct (round_half_even_near (q / 2 ^ e)) as [Hnear _].
  assert (q == q / 2 ^ e * 2 ^ e)%Q as Hqe by (field; lra).
  set (x := (q / 2 ^ e)%Q) in *. set (r := inject_Z (round_half_even x)) in *.
  assert ((2 ^ 52 : Q) == 4503599627370496)%Q as H52 by (by vm_compute).
  rewrite H52 in Hlo. unfold ulp_bound.
  assert (r <= x * (1 + (1 # 9007199254740992)))%Q as Hr by lra.
  eapply Qle_trans; [apply Qmult_le_compat_r; [exact Hr | lra]|].
  clearbody x. generalize dependent (2 ^ e)%Q. intros t _ Hqe. lra.
Qed.

Lemma round64_nonpos (q : Q) : (q <= 0)%Q → (round64 q <= 0)%Q.
Proof.
  intros Hq. destruct (Qeq_dec q 0) as [Hz|Hnz].
  - rewrite (round64_proper _ _ Hz), round64_0. lra.
  - apply Qlt_le_weak, round64_neg.
    destruct (Qlt_le_dec q 0); [done|]. destruct Hnz. by apply Qle_antisym.
Qed.

End FloatFacts.

(** ** Arithmetic of sizes *)

Module NumberFacts.

Lemma Qltb_true x y : Qltb x y = true ↔ (x < y)%Q.
Proof.
  unfold Qltb. rewrite negb_true_iff. split.
  - intros Hb. apply Qnot_le_lt. intros Hle.
    apply Qle_bool_iff in Hle. congruence.
  - intros Hlt. destruct (Qle_bool y x) eqn:Hb; [|done].
    apply Qle_bool_iff in Hb. lra.
Qed.

Lemma Qltb_false x y : Qltb x y = false ↔ (y <= x)%Q.
Proof.
  unfold Qltb. rewrite negb_false_iff. apply Qle_bool_iff.
Qed.

Lemma py_min2_spec a b :
  ((b < a)%Q ∧ py_min2 a b = b) ∨ ((a <= b)%Q ∧ py_min2 a b = a).
Proof.
  unfold py_min2. destruct (Qltb b a) eqn:Hb.
  - left. by apply Qltb_true in Hb.
  - right. by apply Qltb_false in Hb.
Qed.

Lemma py_max2_spec a b :
  ((a < b)%Q ∧ py_max2 a b = b) ∨ ((b <= a)%Q ∧ py_max2 a b = a).
Proof.
  unfold py_max2. destruct (Qltb a b) eqn:Hb.
  - left. by apply Qltb_true in Hb.
  - right. by apply Qltb_false in Hb.
Qed.

Lemma quotient_zero_iff (w h : Z) :
  h ≠ 0 → Qeq_bool (inject_Z w / inject_Z h) 0 = true ↔ w = 0.
Proof.
  intros Hh. rewrite Qeq_bool_iff.
  unfold Qeq, Qdiv, Qmult, Qinv, inject_Z. cbn [Qnum Qden].
  destruct h as [|h|h]; [done| |]; cbn; split; nia.
Qed.

Lemma quotient_pos (w h : Z) :
  0 < w → 0 < h → (0 < inject_Z w / inject_Z h)%Q.
Proof.
  intros Hw Hh. unfold Qlt, Qdiv, Qmult, Qinv, inject_Z. cbn [Qnum Qden].
  destruct h as [|h|h]; [lia| |lia]. cbn. nia.
Qed.

(** The quotient of two ints as a float is zero for a zero numerator
    only, and positive for positive ints. *)
Lemma ratio_zero_iff (w h : Z) :
  h ≠ 0 → Qeq_bool (int_truediv w h) 0 = true ↔ w = 0.
Proof.
  intros Hh. rewrite <-(quotient_zero_iff w h Hh), !Qeq_bool_iff.
  apply FloatFacts.round64_zero_iff.
Qed.

Lemma ratio_pos (w h : Z) : 0 < w → 0 < h → (0 < int_truediv w h)%Q.
Proof.
  intros Hw Hh. apply FloatFacts.round64_pos. by apply quotient_pos.
Qed.

Lemma py_int_floor (q : Q) : (0 <= q)%Q → py_int q = Qfloor q.
Proof.
  destruct q as [n d]. unfold Qle, py_int, Qfloor. cbn. intros Hn.
  apply Z.quot_div_nonneg; lia.
Qed.

Lemma py_int_inject (z : Z) : py_int (inject_Z z) = z.
Proof. unfold py_int, inject_Z. cbn. apply Z.quot_1_r. Qed.

End NumberFacts.

(** ** The bounded cache *)

Module CacheFacts.
Import OrderedDict FastImageCache Recency.
Section facts.
Context {K V : Type} `{EqDecision K}.
Implicit Types (d : list (K * V)) (c : FastImageCache.t K V) (k : K) (v : V).

Lemma keys_setitem_in k v d : k ∈ keys d → keys (setitem k v d) = keys d.
Proof.
  unfold keys. induction d as [|[k' v'] d IH]; intros Hin.
  - by apply elem_of_nil in Hin.
  - cbn [setitem]. destruct (decide (k = k')) as [->|Hne]; [done|].
    cbn. f_equal. apply IH. cbn in Hin.
    apply elem_of_cons in Hin as [?|?]; done.
Qed.

Lemma keys_setitem_notin k v d :
  k ∉ keys d → keys (setitem k v d) = keys d ++ [k].
Proof.
  unfold keys. induction d as [|[k' v'] d IH]; intros Hin; [done|].
  cbn [setitem]. cbn in Hin. apply not_elem_of_cons in Hin as [Hne Hin].
  destruct (decide (k = k')) as [->|_]; [done|].
  cbn. f_equal. by apply IH.
Qed.

Lemma keys_setitem k v d :
  keys (setitem k v d) = if decide (k ∈ keys d) then keys d else keys d ++ [k].
Proof.
  case_decide; [by apply keys_setitem_in | by apply keys_setitem_notin].
Qed.

Lemma getitem_Some_iff k d : is_Some (getitem k d) ↔ k ∈ keys d.
Proof.
  induction d as [|[k' v'] d IH]; simpl.
  - split; [by intros [? ?] | by intros ?%elem_of_nil].
  - destruct (decide (k = k')) as [->|Hne].
    + split; [intros _; apply list_elem_of_here | eauto].
    + rewrite IH. unfold keys. cbn. rewrite elem_of_cons. tauto.
Qed.

Lemma keys_delitem_notin k d : k ∉ keys d → delitem k d = d.
Proof.
  induction d as [|[k' v'] d IH]; simpl; [done|].
  intros Hn. destruct (decide (k = k')) as [->|Hne].
  - exfalso. apply Hn. apply list_elem_of_here.
  - f_equal. apply IH. intros ?. apply Hn. by apply list_elem_of_further.
Qed.

Lemma elem_of_keys_delitem k k' d :
  NoDup (keys d) → k' ∈ keys (delitem k d) ↔ k' ∈ keys d ∧ k' ≠ k.
Proof.
  induction d as [|[k0 v0] d IH]; simpl; intros Hnd.
  - split; [by intros ?%elem_of_nil | by intros [?%elem_of_nil _]].
  - apply NoDup_cons in Hnd as [Hk0 Hnd].
    destruct (decide (k = k0)) as [->|Hne]; unfold keys in *; simpl.
    + rewrite elem_of_cons. split.
      * intros Hin. split; [by right|]. intros ->. done.
      * intros [[->|?] ?]; done.
    + rewrite !elem_of_cons, IH by done.
      split; [intros [->|[? ?]]; auto | intros [[->|?] ?]; auto].
Qed.

Lemma NoDup_keys_delitem k d : NoDup (keys d) → NoDup (keys (delitem k d)).
Proof.
  induction d as [|[k0 v0] d IH]; simpl; intros Hnd; [done|].
  apply NoDup_cons in Hnd as [Hk0 Hnd].
  destruct (decide (k = k0)) as [->|Hne]; [done|].
  unfold keys in *. simpl. apply NoDup_cons. split; [|by apply IH].
  intros Hin. apply (elem_of_keys_delitem k k0 d Hnd) in Hin as [? _]. done.
Qed.

Lemma length_delitem k d :
  k ∈ keys d → S (length (delitem k d)) = length d.
Proof.
  induction d as [|[k0 v0] d IH]; simpl; [by intros ?%elem_of_nil|].
  intros Hin. destruct (decide (k = k0)) as [->|Hne]; [done|].
  simpl. f_equal. apply IH. unfold keys in *. simpl in Hin.
  apply elem_of_cons in Hin as [?|?]; done.
Qed.

Lemma NoDup_keys_setitem k v d : NoDup (keys d) → NoDup (keys (setitem k v d)).
Proof.
  intros Hnd. rewrite keys_setitem. case_decide; [done|].
  apply NoDup_app. repeat split; [done | | apply NoDup_singleton].
  intros x Hx ->%list_elem_of_singleton. done.
Qed.

Lemma length_setitem k v d :
  length (setitem k v d) = if decide (k ∈ keys d) then length d else S (length d).
Proof.
  rewrite <-(length_fmap fst (setitem k v d)).
  change (fst <$> setitem k v d) with (keys (setitem k v d)).
  rewrite keys_setitem. case_decide.
  - unfold keys. by rewrite length_fmap.
  - unfold keys. rewrite length_app, length_fmap. simpl. lia.
Qed.

Lemma keys_move_to_end k d :
  k ∈ keys d → keys (move_to_end k d) = keys (delitem k d) ++ [k].
Proof.
  intros Hin. unfold move_to_end.
  apply getitem_Some_iff in Hin as [v ->].
  unfold keys. by rewrite fmap_app.
Qed.

Lemma wf_init M : wf (init (K:=K) (V:=V) M).
Proof. split; simpl; [apply NoDup_nil_2 | unfold size; simpl; lia]. Qed.

Lemma wf_put k v c : wf c → wf (put k v c).
Proof.
  intros [Hnd Hsz]. unfold put, wf, size in *.
  pose proof (NoDup_keys_setitem k v _ Hnd) as Hnd'.
  pose proof (length_setitem k v (cache c)) as Hlen.
  case_bool_decide as Hov; simpl.
  - split.
    + unfold popitem_first. destruct (setitem k v (cache c)) as [|[k0 v0] d'];
        simpl in *; [done|]. unfold keys in *. simpl in Hnd'.
      by apply NoDup_cons in Hnd' as [_ ?].
    + unfold popitem_first.
      destruct (setitem k v (cache c)); simpl in *; case_decide; lia.
  - split; [done | lia].
Qed.

Lemma wf_get k c : wf c → wf (get k c).1.
Proof.
  intros [Hnd Hsz]. unfold get, contains.
  case_bool_decide as Hin; simpl; [|done].
  split; simpl.
  - rewrite keys_move_to_end by done.
    apply NoDup_app. repeat split.
    + by apply NoDup_keys_delitem.
    + intros x Hx ->%list_elem_of_singleton.
      apply elem_of_keys_delitem in Hx as [_ ?]; done.
    + apply NoDup_singleton.
  - unfold size in *. simpl.
    rewrite <-(length_fmap fst). change (fst <$> ?d) with (keys d).
    rewrite keys_move_to_end by done.
    rewrite length_app. simpl. unfold keys. rewrite length_fmap.
    pose proof (length_delitem k _ Hin). lia.
Qed.

Lemma max_size_step c o : max_size (step c o) = max_size c.
Proof.
  destruct o as [k|k v]; simpl.
  - unfold get. by destruct (contains k (cache c)).
  - unfold put. by case_bool_decide.
Qed.

Lemma max_size_run ops c : max_size (run ops c) = max_size c.
Proof.
  revert c. induction ops as [|o ops IH]; intros c; simpl; [done|].
  unfold run in *. simpl. by rewrite IH, max_size_step.
Qed.

Lemma wf_step c o : wf c → wf (step c o).
Proof. destruct o; simpl; [apply wf_get | apply wf_put]. Qed.

Lemma wf_run ops c : wf c → wf (run ops c).
Proof.
  revert c. induction ops as [|o ops IH]; intros c Hwf; [done|].
  apply IH. by apply wf_step.
Qed.

(** The number of stored entries never exceeds the maximum. *)
Lemma size_bounded M ops : (size (run (K:=K) (V:=V) ops (init M)) ≤ M)%nat.
Proof.
  pose proof (wf_run ops (init M) (wf_init M)) as [_ Hsz].
  by rewrite max_size_run in Hsz.
Qed.

Lemma run_snoc ops o c : run (ops ++ [o]) c = step (run ops c) o.
Proof. unfold run. by rewrite foldl_snoc. Qed.

Lemma setitem_fresh k v d : k ∉ keys d → setitem k v d = d ++ [(k, v)].
Proof.
  unfold keys. induction d as [|[k' v'] d IH]; intros Hin; [done|].
  cbn [setitem]. cbn in Hin. apply not_elem_of_cons in Hin as [Hne Hin].
  destruct (decide (k = k')) as [->|_]; [done|].
  cbn. f_equal. by apply IH.
Qed.

(** Distinct keys, no more than the maximum: all of them are stored, in
    the order of insertion. *)
Lemma run_puts_fit M (kvs : list (K * V)) :
  NoDup kvs.*1 → (length kvs ≤ M)%nat →
  run (puts kvs) (init M) = mk kvs M.
Proof.
  induction kvs as [|[k v] kvs IH] using rev_ind; intros Hnd Hlen; [done|].
  rewrite fmap_app in Hnd. apply NoDup_app in Hnd as (Hnd & Hfresh & _).
  rewrite length_app in Hlen. simpl in Hlen.
  unfold puts. rewrite fmap_app. cbn [fmap list_fmap].
  rewrite run_snoc. fold (puts kvs). rewrite IH by (done || lia).
  cbn [step fst snd]. unfold put. cbn [cache max_size].
  rewrite setitem_fresh.
  - rewrite bool_decide_false; [done|]. rewrite length_app. simpl. lia.
  - intros Hin. apply (Hfresh k Hin). cbn. apply list_elem_of_here.
Qed.

(** One key more than the maximum: the first one leaves, the others
    stay. *)
Lemma run_puts_one_more M (kvs : list (K * V)) :
  NoDup kvs.*1 → length kvs = S M →
  cache (run (puts kvs) (init M)) = tail kvs.
Proof.
  destruct kvs as [|[k v] kvs _] using rev_ind; intros Hnd Hlen; [done|].
  rewrite length_app in Hlen. simpl in Hlen.
  rewrite fmap_app in Hnd. apply NoDup_app in Hnd as (Hnd & Hfresh & _).
  unfold puts. rewrite fmap_app. cbn [fmap list_fmap].
  rewrite run_snoc. fold (puts kvs). rewrite run_puts_fit by (done || lia).
  cbn [step fst snd]. unfold put. cbn [cache max_size].
  rewrite setitem_fresh.
  - rewrite bool_decide_true; [done|]. rewrite length_app. simpl. lia.
  - intros Hin. apply (Hfresh k Hin). cbn. apply list_elem_of_here.
Qed.

(** *** Promotion *)

Lemma behind_holds k n c : behind k n c → holds k c.
Proof.
  intros (l & r & Hk & _). unfold holds. rewrite Hk.
  apply elem_of_app. right. apply list_elem_of_here.
Qed.

Lemma get_hit_behind k c : wf c → holds k c → behind k 0 (get k c).1.
Proof.
  intros _ Hin. unfold get, contains.
  rewrite bool_decide_true by done. cbn [fst cache].
  exists (keys (delitem k (cache c))), []. split; [|done].
  by apply keys_move_to_end.
Qed.

Lemma keys_put k v c :
  keys (cache (put k v c)) =
    if bool_decide (max_size c < length (setitem k v (cache c)))%nat
    then tail (keys (setitem k v (cache c)))
    else keys (setitem k v (cache c)).
Proof.
  unfold put. case_bool_decide; cbn [cache]; [|done].
  unfold popitem_first, keys. by destruct (setitem k v (cache c)).
Qed.

Lemma put_behind k n k' v c :
  behind k n c → (S n < max_size c)%nat → behind k (S n) (put k' v c).
Proof.
  intros (l & r & Hk & Hr) Hn. unfold behind.
  rewrite keys_put, keys_setitem, length_setitem.
  assert (length (cache c) = length l + S (length r))%nat as Hlen.
  { rewrite <-(length_fmap fst (cache c)). fold (keys (cache c)).
    rewrite Hk, length_app. done. }
  destruct (decide (k' ∈ keys (cache c))) as [Hin|Hnin].
  - case_bool_decide as Hov.
    + destruct l as [|a l]; simpl in Hlen; [lia|].
      rewrite Hk. cbn [app tail]. exists l, r. split; [done | lia].
    + exists l, r. split; [done | lia].
  - rewrite Hk. case_bool_decide as Hov.
    + destruct l as [|a l]; simpl in Hlen; [lia|].
      cbn [app tail]. exists l, (r ++ [k']).
      split; [by rewrite <-app_assoc | rewrite length_app; simpl; lia].
    + exists l, (r ++ [k']).
      split; [by rewrite <-app_assoc | rewrite length_app; simpl; lia].
Qed.

Lemma puts_behind k (kvs : list (K * V)) : ∀ n c,
  behind k n c → (n + length kvs < max_size c)%nat →
  holds k (run (puts kvs) c).
Proof.
  induction kvs as [|[k' v] kvs IH]; intros n c Hb Hn.
  - by eapply behind_holds.
  - cbn [puts fmap list_fmap run foldl step fst snd].
    apply (IH (S n)).
    + apply put_behind; [done | simpl in Hn; lia].
    + unfold put. case_bool_decide; cbn [max_size]; simpl in Hn; lia.
Qed.

(** *** Eviction order when no [put] overwrites *)

Lemma last_access_snoc k (ops : list (op K V)) o :
  last_access k (ops ++ [o]) =
    if decide (key_of o = k) then S (length ops) else last_access k ops.
Proof.
  induction ops as [|a ops IH]; cbn [app last_access length].
  - by case_decide.
  - rewrite IH. case_decide; [done|]. done.
Qed.

Lemma last_access_le k (ops : list (op K V)) :
  (last_access k ops ≤ length ops)%nat.
Proof.
  induction ops as [|a ops IH]; cbn [last_access length]; [done|].
  destruct (last_access k ops); [case_decide; lia | lia].
Qed.

Lemma sorted_ext (R R' : K → K → Prop) (l : list K) :
  (∀ a b, a ∈ l → b ∈ l → R a b → R' a b) →
  StronglySorted R l → StronglySorted R' l.
Proof.
  induction l as [|x l IH]; intros Himp Hs; [constructor|].
  apply StronglySorted_inv in Hs as [Hs Hall]. constructor.
  - apply IH; [|done]. intros a b Ha Hb. apply Himp; by apply list_elem_of_further.
  - rewrite Forall_forall in *. intros y Hy.
    apply Himp; [apply list_elem_of_here | by apply list_elem_of_further | by apply Hall].
Qed.

Lemma sorted_snoc (R : K → K → Prop) (l : list K) x :
  StronglySorted R l → Forall (λ a, R a x) l → StronglySorted R (l ++ [x]).
Proof.
  induction l as [|y l IH]; intros Hs Hall; cbn [app].
  - repeat constructor.
  - apply StronglySorted_inv in Hs as [Hs Hy].
    apply Forall_cons in Hall as [Hyx Hall]. constructor; [by apply IH|].
    apply Forall_app. split; [done | by constructor].
Qed.

Lemma Forall_keys_delitem (P : K → Prop) k d :
  Forall P (keys d) → Forall P (keys (delitem k d)).
Proof.
  unfold keys. induction d as [|[k0 v0] d IH]; cbn; [done|].
  intros [H0 Hd]%Forall_cons. case_decide; [done|].
  cbn. constructor; auto.
Qed.

Lemma sorted_delitem (R : K → K → Prop) k d :
  StronglySorted R (keys d) → StronglySorted R (keys (delitem k d)).
Proof.
  unfold keys. induction d as [|[k0 v0] d IH]; cbn; [done|].
  intros [Hs Hall]%StronglySorted_inv. case_decide; [done|].
  cbn. constructor; [by apply IH|]. by apply Forall_keys_delitem.
Qed.

Lemma no_overwrite_prefix M (ops : list (op K V)) o :
  no_overwrite M (ops ++ [o]) → no_overwrite M ops.
Proof.
  intros Hno ops1 k v ops2 ->. apply (Hno ops1 k v (ops2 ++ [o])).
  by rewrite <-app_assoc.
Qed.

Lemma older_keep (ops : list (op K V)) o (l : list K) :
  key_of o ∉ l →
  StronglySorted (older ops) l → StronglySorted (older (ops ++ [o])) l.
Proof.
  intros Hl. apply sorted_ext. intros a b Ha Hb. unfold older.
  rewrite !last_access_snoc.
  rewrite !decide_False; [done | |]; intros <-; done.
Qed.

Lemma older_newest (ops : list (op K V)) o (l : list K) :
  key_of o ∉ l → Forall (λ a, older (ops ++ [o]) a (key_of o)) l.
Proof.
  intros Hl. apply Forall_forall. intros a Ha. unfold older.
  rewrite !last_access_snoc.
  rewrite (decide_True (P := key_of o = key_of o)) by done.
  rewrite decide_False by (intros <-; done).
  pose proof (last_access_le a ops). lia.
Qed.

Lemma setitem_sorted (ops : list (op K V)) k v d :
  k ∉ keys d →
  StronglySorted (older ops) (keys d) →
  StronglySorted (older (ops ++ [Put k v])) (keys (setitem k v d)).
Proof.
  intros Hout Hs. rewrite keys_setitem_notin by done.
  apply sorted_snoc.
  - by apply (older_keep ops (Put k v)).
  - by apply (older_newest ops (Put k v)).
Qed.

(** Without overwriting, the entries are stored in the order of their
    last access, oldest first. *)
Lemma keys_sorted_by_access M (ops : list (op K V)) :
  no_overwrite M ops →
  StronglySorted (older ops) (keys (cache (run ops (init M)))).
Proof.
  induction ops as [|o ops IH] using rev_ind; intros Hno.
  { constructor. }
  specialize (IH (no_overwrite_prefix _ _ _ Hno)).
  pose proof (wf_run ops (init M) (wf_init M)) as [Hnd _].
  rewrite run_snoc. set (c := run ops (init M)) in *.
  destruct o as [k|k v]; cbn [step].
  - unfold get, contains. case_bool_decide as Hin; cbn [fst cache].
    + rewrite keys_move_to_end by done.
      assert (k ∉ keys (delitem k (cache c))) as Hout.
      { intros Hk. apply elem_of_keys_delitem in Hk as [_ ?]; done. }
      apply sorted_snoc.
      * apply (older_keep ops (Get k)); [done|]. by apply sorted_delitem.
      * by apply (older_newest ops (Get k)).
    + by apply (older_keep ops (Get k)).
  - assert (k ∉ keys (cache c)) as Hout.
    { apply (Hno ops k v []). done. }
    pose proof (setitem_sorted ops k v _ Hout IH) as Hs.
    rewrite keys_put. case_bool_decide; [|done].
    destruct (keys (setitem k v (cache c))); [done|].
    by apply StronglySorted_inv in Hs as [? _].
Qed.

(** Without overwriting, the entry that a [put] removes is the one
    whose last access is the oldest. *)
Lemma evicted_least_recent M (ops : list (op K V)) k v e :
  no_overwrite M (ops ++ [Put k v]) →
  evicted k v (run ops (init M)) = Some e →
  ∀ k', k' ∈ keys (setitem k v (cache (run ops (init M)))) →
    (last_access e (ops ++ [Put k v]) ≤ last_access k' (ops ++ [Put k v]))%nat.
Proof.
  intros Hno He k' Hk'. set (c := run ops (init M)) in *.
  assert (k ∉ keys (cache c)) as Hout by (apply (Hno ops k v []); done).
  pose proof (keys_sorted_by_access M ops (no_overwrite_prefix _ _ _ Hno)) as Hs.
  fold c in Hs. apply (setitem_sorted ops k v _ Hout) in Hs.
  unfold evicted in He. case_bool_decide; [|done].
  unfold keys in *. destruct (setitem k v (cache c)) as [|[e' v'] d]; [done|].
  cbn in He. injection He as ->. cbn in Hk', Hs.
  apply StronglySorted_inv in Hs as [_ Hall].
  apply elem_of_cons in Hk' as [->|Hk']; [done|].
  rewrite Forall_forall in Hall. specialize (Hall k' Hk').
  unfold older in Hall. lia.
Qed.
(** On a full cache, new distinct keys push the oldest entries out, one
    each. *)
Lemma run_puts_full c (kvs : list (K * V)) :
  size c = max_size c →
  NoDup kvs.*1 → (∀ k', k' ∈ kvs.*1 → ¬ holds k' c) →
  cache (run (puts kvs) c) = drop (length kvs) (cache c ++ kvs).
Proof.
  intros Hfull.
  induction kvs as [|[k v] kvs IH] using rev_ind; intros Hnd Hnew.
  { cbn. by rewrite app_nil_r. }
  rewrite fmap_app in Hnd, Hnew. apply NoDup_app in Hnd as (Hnd & Hdis & _).
  unfold puts. rewrite fmap_app. cbn [fmap list_fmap].
  rewrite run_snoc. fold (puts kvs). cbn [step fst snd].
  assert (cache (run (puts kvs) c) = drop (length kvs) (cache c ++ kvs)) as Hc.
  { apply IH; [done|]. intros k' Hk'. apply Hnew. apply elem_of_app. by left. }
  assert (k ∉ keys (cache (run (puts kvs) c))) as Hfresh.
  { rewrite Hc. unfold keys. rewrite fmap_drop, fmap_app.
    intros Hin. apply (subseteq_drop _ _ k) in Hin.
    apply elem_of_app in Hin as [Hin|Hin].
    - apply (Hnew k); [|exact Hin]. apply elem_of_app. right.
      apply list_elem_of_here.
    - apply (Hdis k Hin). apply list_elem_of_here. }
  unfold put. rewrite setitem_fresh by done. rewrite max_size_run.
  rewrite Hc. unfold size in Hfull.
  rewrite bool_decide_true.
  2:{ rewrite length_app, length_drop, length_app. simpl. lia. }
  cbn [cache]. unfold popitem_first.
  rewrite length_app. simpl. rewrite Nat.add_1_r.
  rewrite (app_assoc (cache c) kvs). 
  rewrite <-drop_app_le by (rewrite length_app; lia).
  generalize ((cache c ++ kvs) ++ [(k, v)]). intros l.
  generalize (length kvs). intros n. revert l.
  induction n as [|n IHn]; intros [|x l]; try done. cbn. apply IHn.
Qed.

Lemma size_get k c : NoDup (keys (cache c)) → size (get k c).1 = size c.
Proof.
  intros Hnd. unfold get, contains, size.
  case_bool_decide as Hin; cbn [fst cache]; [|done].
  rewrite <-!(length_fmap fst). fold (keys (move_to_end k (cache c))).
  fold (keys (cache c)). rewrite keys_move_to_end by done.
  rewrite length_app. simpl. unfold keys. rewrite !length_fmap.
  pose proof (length_delitem k _ Hin). lia.
Qed.

Lemma holds_get k k' c :
  NoDup (keys (cache c)) → holds k' (get k c).1 ↔ holds k' c.
Proof.
  intros Hnd. unfold get, contains, holds.
  case_bool_decide as Hin; cbn [fst cache]; [|done].
  rewrite keys_move_to_end by done.
  rewrite elem_of_app, elem_of_keys_delitem, list_elem_of_singleton by done.
  destruct (decide (k' = k)) as [->|Hne]; [tauto|]. tauto.
Qed.

End facts.

(** C1.  With room for two entries, [put a; put b; put a; put c] removes
    [a]: the second [put a] is the most recent access before [put c], yet
    it left [a] at the front, so the entry that goes is not the least
    recently accessed one ([b] is), and [b] stays. *)
Example overwritten_entry_evicted_first :
  let ops : list (op string Z) := [Put "a" 1; Put "b" 2; Put "a" 3] in
  let c := run ops (init 2) in
  let ops' := ops ++ [Put "c" 4] in
  evicted "c" 4 c = Some "a"
  ∧ cache (put "c" 4 c) = [("b", 2); ("c", 4)]
  ∧ (last_access "b" ops' < last_access "a" ops')%nat.
Proof. cbv zeta. split; [|split]; vm_compute; [done | done | lia]. Qed.

(** C2, as stated, fails: with room for two, a hit on [a] followed by two
    new keys removes [a]. *)
Lemma survives_max_size_puts_fails :
  ¬ survives_max_size_puts (K := string) (V := Z).
Proof.
  intros Hclaim.
  specialize (Hclaim (mk [("a", 1); ("b", 2)] 2) "a" [("c", 3); ("d", 4)]).
  assert (holds "a" (mk [("c", 3); ("d", 4)] 2)) as Hin.
  { apply Hclaim; try done.
    - split; [compute_done | done].
    - unfold holds. compute_done.
    - compute_done.
    - compute_done.
    - intros k' Hk'. unfold holds. cbn in *.
      apply elem_of_cons in Hk' as [->|Hk']; [compute_done|].
      apply list_elem_of_singleton in Hk' as ->. compute_done. }
  revert Hin. unfold holds. compute_done.
Qed.

(** C2, amended.  After a hit on [k], any sequence of fewer than
    [max_size] insertions keeps [k] in the cache, in particular
    [max_size - 1] new distinct keys; on a full cache [max_size] new
    distinct keys replace every entry, [k] included. *)
Theorem get_hit_survives_puts {K V} `{EqDecision K}
    (c : FastImageCache.t K V) (k : K) (kvs : list (K * V)) :
  wf c → holds k c →
  ((length kvs < max_size c)%nat → holds k (run (puts kvs) (get k c).1))
  ∧ (size c = max_size c → length kvs = max_size c →
     NoDup kvs.*1 → (∀ k', k' ∈ kvs.*1 → ¬ holds k' c) →
     cache (run (puts kvs) (get k c).1) = kvs
     ∧ ¬ holds k (run (puts kvs) (get k c).1)).
Proof.
  intros [Hnd Hsz] Hin. split.
  - intros Hlen. apply (puts_behind k kvs 0).
    + by apply get_hit_behind.
    + unfold get. destruct (contains k (cache c)); cbn [fst max_size]; lia.
  - intros Hfull Hlen Hdis Hnew.
    assert (max_size (get k c).1 = max_size c) as Hmax.
    { unfold get. by destruct (contains k (cache c)). }
    assert (cache (run (puts kvs) (get k c).1) = kvs) as Hc.
    { rewrite run_puts_full.
      - apply drop_app_length'. rewrite Hlen, <-Hfull.
        symmetry. by apply size_get.
      - rewrite size_get, Hmax by done. exact Hfull.
      - exact Hdis.
      - intros k' Hk'. rewrite holds_get by done. by apply Hnew. }
    split; [exact Hc|]. unfold holds. rewrite Hc.
    intros Hk. by apply (Hnew k).
Qed.

Lemma get_hit_survives_puts_witness :
  let c : FastImageCache.t string Z := mk [("a", 1); ("b", 2)] 2 in
  holds "a" (run (puts [("c", 3)]) (get "a" c).1)
  ∧ ¬ holds "a" (run (puts [("c", 3); ("d", 4)]) (get "a" c).1).
Proof.
  intros c.
  assert (wf c) as Hwf by (split; [compute_done | cbn; lia]).
  assert (holds "a" c) as Hin by (unfold holds; compute_done).
  split.
  - apply (get_hit_survives_puts c "a" [("c", 3)] Hwf Hin). cbn. lia.
  - apply (get_hit_survives_puts c "a" [("c", 3); ("d", 4)] Hwf Hin);
      [reflexivity | reflexivity | compute_done |].
    intros k' Hk'. unfold holds. cbn in *.
    apply elem_of_cons in Hk' as [->|Hk']; [compute_done|].
    apply list_elem_of_singleton in Hk' as ->. compute_done.
Defined.
End CacheFacts.

(** ** Zoom *)

Module ZoomFacts.
Import NumberFacts.

Lemma debounced_display_frame g :
  zoom_level (debounced_display g) = zoom_level g
  ∧ pan_x (debounced_display g) = pan_x g
  ∧ pan_y (debounced_display g) = pan_y g
  ∧ current_index (debounced_display g) = current_index g
  ∧ filtered_images (debounced_display g) = filtered_images g.
Proof.
  unfold debounced_display, instant_transform.
  destruct (negb (single_view_mode g)); [done|].
  by destruct (items (canvas g)).
Qed.

Lemma zoom_level_zoom_in g :
  zoom_level (zoom_in_fn g) = py_min2 5 (zoom_level g + (1 # 4)).
Proof. unfold zoom_in_fn. by rewrite (proj1 (debounced_display_frame _)). Qed.

Lemma zoom_level_zoom_out g :
  zoom_level (zoom_out_fn g) = py_max2 (1 # 4) (zoom_level g - (1 # 4)).
Proof.
  unfold zoom_out_fn. rewrite (proj1 (debounced_display_frame _)).
  by case_match.
Qed.

Lemma zoom_out_resets_pan g :
  (zoom_level (zoom_out_fn g) <= 1)%Q →
  pan_x (zoom_out_fn g) = 0 ∧ pan_y (zoom_out_fn g) = 0.
Proof.
  rewrite zoom_level_zoom_out. intros Hle. apply Qle_bool_iff in Hle.
  unfold zoom_out_fn. cbv zeta.
  match goal with |- context [debounced_display ?g0] =>
    destruct (debounced_display_frame g0) as (_ & -> & -> & _) end.
  cbn [zoom_level set_zoom_level]. by rewrite Hle.
Qed.

Lemma zoom_in_range_step g o : zoom_in_range g → zoom_in_range (zoom_step g o).
Proof.
  unfold zoom_in_range. intros [Hlo Hhi]. destruct o; cbn [zoom_step].
  - rewrite zoom_level_zoom_in.
    destruct (py_min2_spec 5 (zoom_level g + (1 # 4))) as [[? ->]|[? ->]]; lra.
  - rewrite zoom_level_zoom_out.
    destruct (py_max2_spec (1 # 4) (zoom_level g - (1 # 4))) as [[? ->]|[? ->]]; lra.
Qed.

Lemma zoom_in_range_run ops g : zoom_in_range g → zoom_in_range (zoom_run ops g).
Proof.
  revert g. induction ops as [|o ops IH]; intros g Hg; [done|].
  apply IH. by apply zoom_in_range_step.
Qed.

(** C6, as stated, fails: at the upper bound a press on zoom-in leaves the
    level where it is. *)
Lemma zoom_steps_exact_fails : ¬ zoom_steps_exact.
Proof.
  intros Hclaim.
  destruct (Hclaim (init_gallery (mkCanvas 1200 800 0 None []))
              (replicate 16 ZoomIn)) as (_ & Hin & _).
  { split; cbn; lra. }
  vm_compute in Hin. discriminate Hin.
Qed.

(** C6, amended.  After every sequence of zoom-in and zoom-out presses the
    level lies in [[0.25, 5.0]]; a press changes it by exactly 0.25 when
    the result stays in that range and otherwise sets it to the bound;
    after a zoom-out that leaves the level at most 1.0 the pan offset is
    [(0, 0)]. *)
Theorem zoom_clamped_steps (g : ImageGallery) (ops : list ZoomOp) :
  zoom_in_range g →
  let g' := zoom_run ops g in
  zoom_in_range g'
  ∧ ((zoom_level g' + (1 # 4) <= 5)%Q →
     (zoom_level (zoom_in_fn g') == zoom_level g' + (1 # 4))%Q)
  ∧ ((5 <= zoom_level g' + (1 # 4))%Q →
     (zoom_level (zoom_in_fn g') == 5)%Q)
  ∧ ((1 # 4 <= zoom_level g' - (1 # 4))%Q →
     (zoom_level (zoom_out_fn g') == zoom_level g' - (1 # 4))%Q)
  ∧ ((zoom_level g' - (1 # 4) <= 1 # 4)%Q →
     (zoom_level (zoom_out_fn g') == 1 # 4)%Q)
  ∧ ((zoom_level (zoom_out_fn g') <= 1)%Q →
     pan_x (zoom_out_fn g') = 0 ∧ pan_y (zoom_out_fn g') = 0).
Proof.
  intros Hg g'. pose proof (zoom_in_range_run ops g Hg) as Hg'. fold g' in Hg'.
  destruct Hg' as [Hlo Hhi].
  pose proof (py_min2_spec 5 (zoom_level g' + (1 # 4))) as Hmin.
  pose proof (py_max2_spec (1 # 4) (zoom_level g' - (1 # 4))) as Hmax.
  split; [done|].
  split; [rewrite zoom_level_zoom_in; intros ?; destruct Hmin as [[? ->]|[? ->]]; lra|].
  split; [rewrite zoom_level_zoom_in; intros ?; destruct Hmin as [[? ->]|[? ->]]; lra|].
  split; [rewrite zoom_level_zoom_out; intros ?; destruct Hmax as [[? ->]|[? ->]]; lra|].
  split; [rewrite zoom_level_zoom_out; intros ?; destruct Hmax as [[? ->]|[? ->]]; lra|].
  apply zoom_out_resets_pan.
Qed.

Lemma zoom_clamped_steps_witness :
  let g' := zoom_run [ZoomIn; ZoomOut; ZoomOut]
              (init_gallery (mkCanvas 1200 800 0 None [])) in
  (zoom_level g' == 3 # 4)%Q
  ∧ (zoom_level (zoom_in_fn g') == 1)%Q
  ∧ (zoom_level (zoom_out_fn g') == 1 # 2)%Q
  ∧ pan_x (zoom_out_fn g') = 0 ∧ pan_y (zoom_out_fn g') = 0.
Proof.
  intros g'.
  destruct (zoom_clamped_steps (init_gallery (mkCanvas 1200 800 0 None []))
              [ZoomIn; ZoomOut; ZoomOut]) as (_ & Hin & _ & Hout & _ & Hpan).
  { split; cbn; lra. }
  fold g' in Hin, Hout, Hpan.
  split; [reflexivity|].
  split; [rewrite Hin; [reflexivity | vm_compute; discriminate]|].
  split; [rewrite Hout; [reflexivity | vm_compute; discriminate]|].
  apply Hpan. vm_compute. discriminate.
Defined.
End ZoomFacts.

(** ** Preloading *)

Module PreloadFacts.

(** Preloading touches the image cache and the log of opened files, and
    nothing else. *)
Lemma preload_single_frame pil p g :
  ∃ ic op, preload_single pil p g = set_opened op (set_img_cache ic g).
Proof.
  unfold preload_single, open_image.
  destruct (FastImageCache.get p (img_cache g)) as [ic [img|]].
  - exists ic, (opened g). by destruct g.
  - destruct (image_open pil p) as [[w h]|]; eexists _, _; by destruct g.
Qed.

Lemma preload_adjacent_frame pil g :
  ∃ ic op, preload_adjacent pil g = set_opened op (set_img_cache ic g).
Proof.
  assert (∀ g0, ∃ ic op, g0 = set_opened op (set_img_cache ic g0)) as Hrefl.
  { intros g0. exists (img_cache g0), (opened g0). by destruct g0. }
  unfold preload_adjacent. destruct (_ || _); [apply Hrefl|].
  generalize [-2; -1; 1; 2]. intros l. revert g.
  induction l as [|offset l IH]; intros g; [apply Hrefl|].
  cbn [foldl].
  match goal with |- context [foldl ?f ?g1 l] =>
    assert (∃ ic op, g1 = set_opened op (set_img_cache ic g)) as (ic1 & op1 & ->)
  end.
  { case_decide; [|apply Hrefl].
    destruct (py_getitem _ _) as [img_data|]; [|apply Hrefl].
    apply preload_single_frame. }
  destruct (IH (set_opened op1 (set_img_cache ic1 g))) as (ic2 & op2 & ->).
  exists ic2, op2. by destruct g.
Qed.

End PreloadFacts.

(** ** Navigation *)

Module NavFacts.
Lemma view_of_get_image pil p g : view_of (get_image pil p g).1 = view_of g.
Proof.
  unfold get_image, open_image.
  destruct (FastImageCache.get p (img_cache g)) as [ic [img|]]; [done|].
  cbn. by destruct (image_open pil p) as [[w h]|].
Qed.

Lemma view_of_display_current_image pil g :
  view_of (display_current_image pil g) = view_of g.
Proof.
  unfold display_current_image.
  destruct (_ || _); [done|].
  destruct (py_getitem _ _) as [img_data|]; [|done].
  match goal with |- context [get_image pil ?p ?g0] =>
    pose proof (view_of_get_image pil p g0) as Hget;
    destruct (get_image pil p g0) as [g1 [img|]] end; cbn [fst] in Hget;
    [|done].
  case_decide; [done|].
  destruct (resize_ok _ _ _ _); [|exact Hget].
  match goal with |- context [preload_adjacent pil ?g0] =>
    destruct (PreloadFacts.preload_adjacent_frame pil g0) as (ic & op & ->)
  end.
  exact Hget.
Qed.

Lemma is_empty_length {A} (l : list A) : is_empty l = true ↔ length l = 0%nat.
Proof. by destruct l. Qed.

Lemma next_img_at_end pil g :
  Z.of_nat (length (filtered_images g)) - 1 <= current_index g →
  next_img pil g = g.
Proof.
  intros Hend. unfold next_img.
  rewrite bool_decide_false by lia. by rewrite andb_false_r.
Qed.

Lemma prev_img_at_start pil g : current_index g <= 0 → prev_img pil g = g.
Proof.
  intros Hend. unfold prev_img.
  rewrite bool_decide_false by lia. by rewrite andb_false_r.
Qed.

Lemma next_img_moves pil g :
  current_index g < Z.of_nat (length (filtered_images g)) - 1 →
  filtered_images g ≠ [] →
  view_of (next_img pil g)
  = (filtered_images g, current_index g + 1, 1%Q, 0, 0).
Proof.
  intros Hlt Hne. unfold next_img.
  rewrite bool_decide_true by lia.
  destruct (filtered_images g) eqn:Hf; [done|]. cbn [is_empty negb andb].
  rewrite view_of_display_current_image. unfold view_of. cbn. by rewrite Hf.
Qed.

Lemma prev_img_moves pil g :
  0 < current_index g →
  filtered_images g ≠ [] →
  view_of (prev_img pil g)
  = (filtered_images g, current_index g - 1, 1%Q, 0, 0).
Proof.
  intros Hlt Hne. unfold prev_img.
  rewrite bool_decide_true by lia.
  destruct (filtered_images g) eqn:Hf; [done|]. cbn [is_empty negb andb].
  rewrite view_of_display_current_image. unfold view_of. cbn. by rewrite Hf.
Qed.

Lemma index_in_range_nonempty g : index_in_range g → filtered_images g ≠ [].
Proof.
  unfold index_in_range. intros Hr Hnil. rewrite Hnil in Hr. simpl in Hr. lia.
Qed.

Lemma nav_step_in_range pil g o :
  index_in_range g →
  index_in_range (nav_step pil g o)
  ∧ filtered_images (nav_step pil g o) = filtered_images g.
Proof.
  intros Hr. pose proof (index_in_range_nonempty g Hr) as Hne.
  unfold index_in_range in *. destruct o; cbn [nav_step].
  - destruct (decide (0 < current_index g)) as [Hlt|Hge].
    + pose proof (prev_img_moves pil g Hlt Hne) as Hv.
      unfold view_of in Hv. injection Hv as -> -> _ _ _. split; [lia | done].
    + rewrite prev_img_at_start by lia. done.
  - destruct (decide (current_index g
                      < Z.of_nat (length (filtered_images g)) - 1)) as [Hlt|Hge].
    + pose proof (next_img_moves pil g Hlt Hne) as Hv.
      unfold view_of in Hv. injection Hv as -> -> _ _ _. split; [lia | done].
    + rewrite next_img_at_end by lia. done.
Qed.

Lemma nav_run_in_range pil ops g :
  index_in_range g →
  index_in_range (nav_run pil ops g)
  ∧ filtered_images (nav_run pil ops g) = filtered_images g.
Proof.
  revert g. induction ops as [|o ops IH]; intros g Hr; [done|].
  destruct (nav_step_in_range pil g o Hr) as [Hr' Hf'].
  destruct (IH _ Hr') as [Hr'' Hf'']. unfold nav_run in *. cbn [foldl].
  split; [done | by rewrite Hf''].
Qed.

(** C10.  On a non-empty list with the index in range, every sequence of
    previous/next steps keeps the index in range; at the last index
    [next_img], and at index 0 [prev_img], change nothing; any other step
    moves the index by one and resets the zoom level to 1.0 and the pan
    offsets to [(0, 0)]. *)
Theorem navigation_keeps_index (pil : Pillow) (g : ImageGallery)
    (ops : list NavOp) :
  index_in_range g →
  let g' := nav_run pil ops g in
  let last := Z.of_nat (length (filtered_images g')) - 1 in
  filtered_images g' = filtered_images g
  ∧ 0 <= current_index g' <= last
  ∧ (current_index g' = last → next_img pil g' = g')
  ∧ (current_index g' = 0 → prev_img pil g' = g')
  ∧ (current_index g' < last →
     current_index (next_img pil g') = current_index g' + 1
     ∧ zoom_level (next_img pil g') = 1%Q
     ∧ pan_x (next_img pil g') = 0 ∧ pan_y (next_img pil g') = 0)
  ∧ (0 < current_index g' →
     current_index (prev_img pil g') = current_index g' - 1
     ∧ zoom_level (prev_img pil g') = 1%Q
     ∧ pan_x (prev_img pil g') = 0 ∧ pan_y (prev_img pil g') = 0).
Proof.
  intros Hr g' last.
  destruct (nav_run_in_range pil ops g Hr) as [Hr' Hf']. fold g' in Hr', Hf'.
  pose proof (index_in_range_nonempty g' Hr') as Hne.
  unfold index_in_range in Hr'. fold last in Hr'.
  split; [done|]. split; [subst last; lia|].
  split; [intros ?; apply next_img_at_end; subst last; lia|].
  split; [intros ?; apply prev_img_at_start; lia|].
  split.
  - intros Hlt. pose proof (next_img_moves pil g' Hlt Hne) as Hv.
    unfold view_of in Hv. by injection Hv as _ -> -> -> ->.
  - intros Hlt. pose proof (prev_img_moves pil g' Hlt Hne) as Hv.
    unfold view_of in Hv. by injection Hv as _ -> -> -> ->.
Qed.

Lemma navigation_keeps_index_witness :
  let pil := mkPillow (λ _, Some (640, 480)) (λ _ _ _, true) in
  let imgs := [mkImageData "a.png" "a" false; mkImageData "b.png" "b" false] in
  let g := set_single_view_mode true
             (set_filtered_images imgs
                (init_gallery (mkCanvas 1200 800 0 None []))) in
  let g' := nav_run pil [Next; Next; Prev] g in
  current_index g' = 0 ∧ current_index (next_img pil g') = 1
  ∧ prev_img pil g' = g'.
Proof.
  intros pil imgs g g'.
  destruct (navigation_keeps_index pil g [Next; Next; Prev])
    as (_ & _ & _ & Hprev & Hnext & _).
  { unfold index_in_range. cbn. lia. }
  fold g' in Hprev, Hnext.
  assert (current_index g' = 0) as H0 by (vm_compute; reflexivity).
  split; [exact H0|]. split.
  - destruct Hnext as [-> _]; [rewrite H0; vm_compute; reflexivity|].
    rewrite H0. reflexivity.
  - apply Hprev. exact H0.
Defined.
End NavFacts.

(** ** The aspect-ratio resolver *)

Module ResolverFacts.

Lemma resolve_hit pil p g ratio :
  aspect_cache g !! p = Some ratio → get_aspect_ratio_fast pil p g = (g, ratio).
Proof. intros Hc. unfold get_aspect_ratio_fast. by rewrite Hc. Qed.

Lemma resolve_keeps_entry pil q g p ratio :
  aspect_cache g !! p = Some ratio →
  aspect_cache (get_aspect_ratio_fast pil q g).1 !! p = Some ratio.
Proof.
  intros Hc. unfold get_aspect_ratio_fast, open_image.
  destruct (aspect_cache g !! q) eqn:Hq; [done|].
  destruct (image_open pil q) as [[w h]|]; [|done].
  case_decide; [done|]. cbn.
  rewrite lookup_insert_ne; [done|]. intros ->. congruence.
Qed.

Lemma resolve_many_keeps_entry pil ps g p ratio :
  aspect_cache g !! p = Some ratio →
  aspect_cache (resolve_many pil ps g) !! p = Some ratio.
Proof.
  revert g. induction ps as [|q ps IH]; intros g Hc; [done|].
  apply IH. by apply resolve_keeps_entry.
Qed.

(** C8.  A call for a path that is not memoized opens the file.  When
    the decode fails the call returns 1.0 and memoizes nothing, so the
    next call for the path opens the file again; when the decode
    succeeds the ratio width/height (the quotient of the two ints, a
    float) is returned and memoized, and every later call returns it
    without opening the file. *)
Theorem resolver_memoizes_success_only (pil : Pillow) (p : string)
    (g : ImageGallery) :
  aspect_cache g !! p = None →
  let g1 := (get_aspect_ratio_fast pil p g).1 in
  let r := (get_aspect_ratio_fast pil p g).2 in
  opened g1 = opened g ++ [p]
  ∧ (decode_fails pil p →
     r = 1%Q ∧ aspect_cache g1 = aspect_cache g
     ∧ ∀ pil', opened (get_aspect_ratio_fast pil' p g1).1 = opened g1 ++ [p])
  ∧ (∀ w h, image_open pil p = Some (w, h) → h ≠ 0 →
     r = int_truediv w h
     ∧ aspect_cache g1 = <[p := r]> (aspect_cache g)
     ∧ ∀ pil' ps,
         let g2 := resolve_many pil' ps g1 in
         get_aspect_ratio_fast pil' p g2 = (g2, r)).
Proof.
  intros Hnone g1 r. subst g1 r.
  assert (∀ pil0 g0, aspect_cache g0 !! p = None →
            opened (get_aspect_ratio_fast pil0 p g0).1 = opened g0 ++ [p])
    as Hopen.
  { intros pil0 g0 H0. unfold get_aspect_ratio_fast, open_image. rewrite H0.
    destruct (image_open pil0 p) as [[w h]|]; [|done]. by case_decide. }
  split; [by apply Hopen|]. split.
  - intros Hfail.
    assert ((get_aspect_ratio_fast pil p g).2 = 1%Q
            ∧ aspect_cache (get_aspect_ratio_fast pil p g).1 = aspect_cache g)
      as [Hr Hc].
    { unfold get_aspect_ratio_fast, open_image. rewrite Hnone.
      destruct Hfail as [->|[w ->]]; [done|]. by rewrite decide_True. }
    split; [done|]. split; [done|].
    intros pil'. apply Hopen. by rewrite Hc.
  - intros w h Hopen' Hh.
    assert (get_aspect_ratio_fast pil p g
            = (set_aspect_cache
                 (<[p := int_truediv w h]> (aspect_cache g))
                 (set_opened (opened g ++ [p]) g),
               int_truediv w h)) as ->.
    { unfold get_aspect_ratio_fast, open_image. rewrite Hnone, Hopen'.
      by rewrite decide_False. }
    cbn [fst snd]. split; [reflexivity|]. split; [reflexivity|].
    intros pil' ps. cbv zeta. apply resolve_hit.
    apply resolve_many_keeps_entry. cbn. apply lookup_insert_eq.
Qed.

Lemma resolver_memoizes_success_only_witness :
  let good := mkPillow (λ _, Some (300, 200)) (λ _ _ _, true) in
  let bad := mkPillow (λ _, None) (λ _ _ _, true) in
  let g := init_gallery (mkCanvas 1200 800 0 None []) in
  (get_aspect_ratio_fast bad "x.png" g).2 = 1%Q
  ∧ (get_aspect_ratio_fast good "x.png" g).2 = int_truediv 300 200.
Proof.
  intros good bad g. split.
  - destruct (resolver_memoizes_success_only bad "x.png" g) as (_ & Hf & _);
      [done|].
    apply Hf. by left.
  - destruct (resolver_memoizes_success_only good "x.png" g) as (_ & _ & Hs);
      [done|].
    by apply (Hs 300 200).
Defined.

End ResolverFacts.

(** ** The thumbnail worker *)

Module WorkerFacts.
Import OrderedDict FastImageCache CacheFacts NumberFacts.

Lemma get_hit {V} (k : string) (c : FastImageCache.t string V) :
  holds k c → ∃ v, (get k c).2 = Some v.
Proof.
  intros Hin. unfold get, contains. rewrite bool_decide_true by done.
  cbn [snd]. apply getitem_Some_iff. rewrite keys_move_to_end by done.
  apply elem_of_app. right. apply list_elem_of_here.
Qed.

Lemma get_miss {V} (k : string) (c : FastImageCache.t string V) :
  ¬ holds k c → get k c = (c, None).
Proof.
  intros Hout. unfold get, contains. by rewrite bool_decide_false.
Qed.

(** C7, as stated, fails: a task whose file does not decode publishes
    nothing. *)
Lemma one_result_per_uncached_task_fails : ¬ one_result_per_uncached_task.
Proof.
  intros Hclaim.
  destruct (Hclaim (mkPillow (λ _, None) (λ _ _ _, true)) "x.png" 200 10
              (init_gallery (mkCanvas 1200 800 0 None []))) as [_ Hpub].
  destruct Hpub as [r Hr].
  - unfold holds. compute_done.
  - unfold published in Hr. vm_compute in Hr. discriminate Hr.
Qed.

(** C7, amended.  A task whose key is cached publishes nothing.  Any
    other task opens its file; when the picture decodes with a non-zero
    size and the resampling succeeds, exactly one result is published,
    for the task's key and path, whose height is [int(width / aspect)]
    for the aspect ratio [w / h], both quotients as floats give them, and
    whose filter is LANCZOS for a priority above 5 and BILINEAR
    otherwise; when decoding or resampling fails nothing is published. *)
Theorem worker_task_publishes (pil : Pillow) (p : string)
    (width priority : Z) (g : ImageGallery) :
  let key := thumb_key p width in
  let task : Task := (p, width, priority) in
  (holds key (thumb_cache g) → published pil task g [])
  ∧ (¬ holds key (thumb_cache g) →
     (∀ w h, image_open pil p = Some (w, h) → w ≠ 0 → h ≠ 0 →
        let new_h := py_int (fdiv (float_of_int width) (int_truediv w h)) in
        resize_ok pil p width new_h = true →
        published pil task g
          [(key,
            mkBitmap p width new_h
              (Some (if decide (5 < priority) then LANCZOS else BILINEAR)),
            p)])
     ∧ (image_open pil p = None → published pil task g [])
     ∧ (∀ w h, image_open pil p = Some (w, h) →
          w = 0 ∨ h = 0
          ∨ resize_ok pil p width
              (py_int (fdiv (float_of_int width) (int_truediv w h)))
            = false →
          published pil task g [])).
Proof.
  intros key task. unfold published, task, worker_task. fold key. split.
  - intros Hin. destruct (get_hit key _ Hin) as [v Hv].
    destruct (get key (thumb_cache g)) as [tc cached]. cbn [snd] in Hv.
    subst cached. cbn. by rewrite app_nil_r.
  - intros Hout. rewrite (get_miss key _ Hout). unfold open_image.
    split; [|split].
    + intros w h Hopen Hw Hh. cbv zeta. intros Hok. rewrite Hopen.
      rewrite decide_False by done.
      destruct (Qeq_bool _ _) eqn:Hz.
      { apply ratio_zero_iff in Hz; done. }
      by rewrite Hok.
    + intros ->. cbn. by rewrite app_nil_r.
    + intros w h Hopen Hbad. rewrite Hopen.
      destruct (decide (h = 0)) as [Hh|Hh]; [cbn; by rewrite app_nil_r|].
      destruct (Qeq_bool _ _) eqn:Hz; [cbn; by rewrite app_nil_r|].
      destruct Hbad as [->|[->|Hno]]; [|done|].
      * exfalso. assert (Qeq_bool (int_truediv 0 h) 0 = true) as Ht
          by (by apply ratio_zero_iff).
        congruence.
      * rewrite Hno. cbn. by rewrite app_nil_r.
Qed.

Lemma worker_task_publishes_witness :
  let pil := mkPillow (λ _, Some (300, 200)) (λ _ _ _, true) in
  let g := init_gallery (mkCanvas 1200 800 0 None []) in
  result_queue (worker_task pil ("x.png", 150, 10) g)
  = [("x.png_150", mkBitmap "x.png" 150 100 (Some LANCZOS), "x.png")].
Proof.
  intros pil g.
  destruct (worker_task_publishes pil "x.png" 150 10 g) as [_ Hmiss].
  destruct Hmiss as (Hok & _ & _).
  - unfold holds. compute_done.
  - specialize (Hok 300 200 eq_refl ltac:(done) ltac:(done) eq_refl).
    unfold published in Hok. rewrite Hok. reflexivity.
Defined.

End WorkerFacts.

(** ** The viewport renderer *)

Module RenderFacts.
Import NumberFacts.

Lemma render_entry_culled vt vb g p x y w h :
  outside (vt, vb) (x, y, w, h) → render_entry vt vb g (p, (x, y, w, h)) = g.
Proof.
  cbn [outside fst snd]. intros Hout. cbn [render_entry].
  assert (Qltb (inject_Z (y + h)) vt || Qltb vb (inject_Z y) = true) as ->;
    [|done].
  apply orb_true_iff. destruct Hout as [H|H]; [left|right];
    by apply Qltb_true.
Qed.

(** An entry that reaches into the window is drawn from the cache, or
    gets a placeholder and, unless the queue is full, a task. *)
Lemma render_entry_shown vt vb g p x y w h :
  ¬ outside (vt, vb) (x, y, w, h) →
  let g' := render_entry vt vb g (p, (x, y, w, h)) in
  match (get_thumbnail p w g).2 with
  | Some photo =>
      ThumbImage x y photo ∈ items (canvas g')
      ∧ thumb_queue g' = thumb_queue g
  | None =>
      Placeholder x y (x + w) (y + h) ∈ items (canvas g')
      ∧ ((length (thumb_queue g) < thumb_queue_maxsize)%nat →
         ∃ priority, thumb_queue g' = thumb_queue g ++ [(p, w, priority)])
  end.
Proof.
  cbn [outside fst snd]. intros Hin. cbv zeta. cbn [render_entry].
  assert (Qltb (inject_Z (y + h)) vt = false) as ->.
  { apply Qltb_false. apply Qnot_lt_le. tauto. }
  assert (Qltb vb (inject_Z y) = false) as ->.
  { apply Qltb_false. apply Qnot_lt_le. tauto. }
  cbn [orb]. unfold get_thumbnail.
  destruct (FastImageCache.get _ _) as [tc [photo|]]; cbn [snd].
  - cbn. split; [|done]. rewrite !elem_of_app. right. right.
    apply list_elem_of_here.
  - unfold queue_thumbnail. cbn [thumb_queue set_canvas set_thumb_cache].
    case_decide as Hfull; cbn.
    + split; [|by eauto]. rewrite elem_of_app. right. apply list_elem_of_here.
    + split; [|done]. rewrite elem_of_app. right. apply list_elem_of_here.
Qed.

(** The window that [update_visible_thumbs] computes reaches
    [2×overscan] below the viewport, not [overscan]. *)
Lemma visible_window_eq g :
  let total_h :=
    match scrollregion (canvas g) with
    | Some (_, _, _, h) => h
    | None => winfo_height (canvas g)
    end in
  let top := fmul (round64 (yview_top (canvas g))) (float_of_int total_h) in
  (visible_window g).1 = fsub top (inject_Z overscan)
  ∧ (visible_window g).2
    = fadd (fadd top (float_of_int (winfo_height (canvas g))))
        (2 * inject_Z overscan).
Proof. done. Qed.

(** The window is computed in floats: scrolled to 0.45 of a content of
    2000 pixels, the product is 900.0 and the window starts at 600.0, so
    that a tile which ends at 600 still reaches into it, although the
    float 0.45 lies above 45/100. *)
Lemma visible_window_rounds :
  let g := init_gallery
             (mkCanvas 804 600 (45 # 100) (Some (0, 0, 804, 2000)) []) in
  visible_window g = (600%Q, 2100%Q)
  ∧ (45 # 100 < round64 (45 # 100))%Q
  ∧ ¬ outside (visible_window g) (4, 404, 196, 196).
Proof.
  cbv zeta. split; [by vm_compute|]. split; [by vm_compute|].
  intros [H|H]; vm_compute in H; discriminate H.
Qed.

(** Every item that a pass draws, and every task it queues, belongs to
    an entry that reaches into the window computed by the pass. *)
Lemma render_entries_sound vt vb (l : list (string * Position)) : ∀ g,
  let g' := foldl (render_entry vt vb) g l in
  (∀ it, it ∈ items (canvas g') →
     it ∈ items (canvas g)
     ∨ ∃ p pos, (p, pos) ∈ l ∧ ¬ outside (vt, vb) pos ∧ item_at pos it)
  ∧ (∀ t, t ∈ thumb_queue g' →
     t ∈ thumb_queue g
     ∨ ∃ p pos priority,
         (p, pos) ∈ l ∧ ¬ outside (vt, vb) pos
         ∧ t = (p, pos.1.2, priority)).
Proof.
  induction l as [|[p [[[x y] w] h]] l IH]; intros g; cbn [foldl].
  { cbv zeta. split; auto. }
  cbv zeta. specialize (IH (render_entry vt vb g (p, (x, y, w, h)))).
  cbv zeta in IH. destruct IH as [IHi IHq].
  set (g1 := render_entry vt vb g (p, (x, y, w, h))) in *.
  assert (g1 = g
          ∨ (¬ outside (vt, vb) (x, y, w, h)
             ∧ (∀ it, it ∈ items (canvas g1) →
                  it ∈ items (canvas g) ∨ item_at (x, y, w, h) it)
             ∧ (∀ t, t ∈ thumb_queue g1 →
                  t ∈ thumb_queue g ∨ ∃ priority, t = (p, w, priority))))
    as Hstep.
  { subst g1. cbn [render_entry].
    destruct (Qltb (inject_Z (y + h)) vt) eqn:Ht; [by left|].
    destruct (Qltb vb (inject_Z y)) eqn:Hb; [by left|].
    right. cbn [orb]. split.
    { cbn [outside fst snd].
      apply Qltb_false in Ht, Hb. intros [?|?]; lra. }
    unfold get_thumbnail.
    destruct (FastImageCache.get _ _) as [tc [photo|]].
    - cbn. split; [|by left]. intros it Hit.
      apply elem_of_app in Hit as [?|Hit]; [by left|]. right.
      apply elem_of_app in Hit as [Hit|Hit].
      + destruct (head _) as [img|]; [|by apply elem_of_nil in Hit].
        destruct (selected img); [|by apply elem_of_nil in Hit].
        apply list_elem_of_singleton in Hit as ->. right. by left.
      + apply list_elem_of_singleton in Hit as ->. right. right. by exists photo.
    - unfold queue_thumbnail. case_decide; cbn.
      + split.
        * intros it Hit. apply elem_of_app in Hit as [?|Hit]; [by left|].
          apply list_elem_of_singleton in Hit as ->. right. by left.
        * intros t Ht'. apply elem_of_app in Ht' as [?|Ht']; [by left|].
          apply list_elem_of_singleton in Ht' as ->. right. eauto.
      + split; [|by left].
        intros it Hit. apply elem_of_app in Hit as [?|Hit]; [by left|].
        apply list_elem_of_singleton in Hit as ->. right. by left. }
  split.
  - intros it Hit. destruct (IHi it Hit) as [Hin|(q & pos & Hq & Hw & Hat)].
    + destruct Hstep as [->|(Hw & Hi & _)]; [by left|].
      destruct (Hi it Hin) as [?|Hat]; [by left|].
      right. exists p, (x, y, w, h). split; [apply list_elem_of_here | done].
    + right. exists q, pos. split; [by apply list_elem_of_further | done].
  - intros t Ht. destruct (IHq t Ht) as [Hin|(q & pos & pr & Hq & Hw & ->)].
    + destruct Hstep as [->|(Hw & _ & Hq)]; [by left|].
      destruct (Hq t Hin) as [?|[pr ->]]; [by left|].
      right. exists p, (x, y, w, h), pr. split; [apply list_elem_of_here | done].
    + right. exists q, pos, pr. split; [by apply list_elem_of_further | done].
Qed.

(** C5.  A page 2000 pixels high seen from the top through a viewport of
    500 pixels: the window of the claim is [[-300, 800]] and the entry at
    [y = 1000] lies entirely below it, yet the pass draws its placeholder
    and queues its thumbnail. *)
Example entry_below_window_rendered :
  let pos : Position := (4, 1000, 196, 150) in
  let g :=
    set_image_positions [("a.png", pos)]
      (set_filtered_images [mkImageData "a.png" "a" false]
         (init_gallery (mkCanvas 804 500 0 (Some (0, 0, 804, 2000)) []))) in
  let g' := update_visible_thumbs g in
  ((claimed_window g).1 == -300)%Q ∧ ((claimed_window g).2 == 800)%Q
  ∧ outside (claimed_window g) pos
  ∧ items (canvas g') = [Placeholder 4 1000 200 1150]
  ∧ thumb_queue g' = [("a.png", 196, 5)].
Proof.
  cbv zeta. split; [reflexivity|]. split; [reflexivity|].
  split; [right; reflexivity|]. split; reflexivity.
Qed.

End RenderFacts.

(** ** The masonry layout *)

Module LayoutFacts.
Import OrderedDict NumberFacts.

(** *** Columns *)

Lemma layout_columns_pos g : 1 <= layout_columns g.
Proof.
  unfold layout_columns. repeat case_decide; lia.
Qed.



(** *** The resolver along a layout pass *)

(** The ratio of a decoded size, or the default. *)
Lemma resolved_eq pil g q :
  resolved pil g q =
    match aspect_cache g !! q with
    | Some r => r
    | None =>
        match image_open pil q with
        | Some (w, h) =>
            if decide (h = 0) then 1%Q else int_truediv w h
        | None => 1%Q
        end
    end.
Proof.
  unfold resolved, get_aspect_ratio_fast, open_image.
  destruct (aspect_cache g !! q); [done|].
  destruct (image_open pil q) as [[w h]|]; [|done]. by case_decide.
Qed.

Lemma aspect_cache_resolve pil p g :
  aspect_cache (get_aspect_ratio_fast pil p g).1 =
    match aspect_cache g !! p with
    | Some _ => aspect_cache g
    | None =>
        match image_open pil p with
        | Some (w, h) =>
            if decide (h = 0) then aspect_cache g
            else <[p := int_truediv w h]> (aspect_cache g)
        | None => aspect_cache g
        end
    end.
Proof.
  unfold get_aspect_ratio_fast, open_image.
  destruct (aspect_cache g !! p); [done|].
  destruct (image_open pil p) as [[w h]|]; [|done]. by case_decide.
Qed.

Lemma resolved_stable pil p g q :
  resolved pil (get_aspect_ratio_fast pil p g).1 q = resolved pil g q.
Proof.
  rewrite !resolved_eq, aspect_cache_resolve.
  destruct (aspect_cache g !! p) as [r|] eqn:Hp; [done|].
  destruct (image_open pil p) as [[w h]|] eqn:Ho; [|done].
  destruct (decide (h = 0)) as [Hh|Hh]; [done|].
  destruct (decide (q = p)) as [->|Hne].
  - rewrite lookup_insert_eq, Hp, Ho. by rewrite decide_False.
  - by rewrite lookup_insert_ne.
Qed.

Lemma resolved_set_image_positions pil d g q :
  resolved pil (set_image_positions d g) q = resolved pil g q.
Proof. by rewrite !resolved_eq. Qed.

Lemma get_aspect_frame pil p g :
  image_positions (get_aspect_ratio_fast pil p g).1 = image_positions g
  ∧ canvas (get_aspect_ratio_fast pil p g).1 = canvas g.
Proof.
  unfold get_aspect_ratio_fast, open_image.
  destruct (aspect_cache g !! p); [done|].
  destruct (image_open pil p) as [[w h]|]; [|done]. by case_decide.
Qed.

(** *** Minimum and index *)

Lemma foldl_min_le x l : foldl Z.min x l <= x ∧ ∀ y, y ∈ l → foldl Z.min x l <= y.
Proof.
  revert x. induction l as [|z l IH]; intros x; cbn [foldl].
  - split; [lia|]. by intros y ?%elem_of_nil.
  - destruct (IH (Z.min x z)) as [H1 H2]. split; [lia|].
    intros y [->|Hy]%elem_of_cons; [lia | by apply H2].
Qed.

Lemma foldl_min_elem x l : foldl Z.min x l ∈ x :: l.
Proof.
  revert x. induction l as [|z l IH]; intros x; cbn [foldl].
  - apply list_elem_of_here.
  - specialize (IH (Z.min x z)). apply elem_of_cons in IH as [->|IH].
    + destruct (Z.min_spec x z) as [[_ ->]|[_ ->]].
      * apply list_elem_of_here.
      * apply list_elem_of_further, list_elem_of_here.
    + by do 2 apply list_elem_of_further.
Qed.

Lemma py_min_spec l :
  l ≠ [] → ∃ m, py_min l = Some m ∧ m ∈ l ∧ ∀ y, y ∈ l → m <= y.
Proof.
  destruct l as [|x l]; [done|]. intros _. exists (foldl Z.min x l).
  split; [done|]. split; [apply foldl_min_elem|].
  destruct (foldl_min_le x l) as [H1 H2].
  intros y [->|Hy]%elem_of_cons; [done | by apply H2].
Qed.

Lemma py_index_spec m l :
  m ∈ l → ∃ c, py_index m l = Some c ∧ l !! c = Some m.
Proof.
  induction l as [|y l IH]; [by intros ?%elem_of_nil|].
  intros Hin. cbn [py_index]. destruct (decide (m = y)) as [->|Hne].
  - by exists 0%nat.
  - apply elem_of_cons in Hin as [?|Hin]; [done|].
    destruct (IH Hin) as (c & -> & Hc). by exists (S c).
Qed.

(** *** One step of the placement loop *)

Lemma place_images_unfold pil col_w gap img rest heights g :
  place_images pil col_w gap (img :: rest) heights g =
    match py_min heights ≫= λ m, py_index m heights with
    | None => (g, None)
    | Some min_col =>
        let g1 := (get_aspect_ratio_fast pil (path img) g).1 in
        let aspect := resolved pil g (path img) in
        if Qeq_bool aspect 0 then (g1, None) else
        let img_h := tile_height col_w aspect in
        match heights !! min_col with
        | None => (g1, None)
        | Some y =>
            place_images pil col_w gap rest
              (<[min_col := y + img_h + gap]> heights)
              (set_image_positions
                 (setitem (path img)
                    (column_x col_w gap min_col, y, col_w, img_h)
                    (image_positions g1)) g1)
        end
    end.
Proof.
  cbn [place_images]. destruct (py_min heights ≫= _); [|done].
  unfold resolved. by destruct (get_aspect_ratio_fast pil (path img) g).
Qed.

Lemma layout_frame_refl pil g : layout_frame pil g g.
Proof. by split; [|split; [|split; [|split; [|split]]]]. Qed.

Lemma layout_frame_trans pil g1 g2 g3 :
  layout_frame pil g1 g2 → layout_frame pil g2 g3 → layout_frame pil g1 g3.
Proof.
  intros (?&?&?&?&?&H12) (?&?&?&?&?&H23).
  split; [congruence|]. split; [congruence|]. split; [congruence|].
  split; [congruence|]. split; [congruence|].
  intros q. rewrite H23. apply H12.
Qed.

Lemma layout_frame_resolve pil p g :
  layout_frame pil g (get_aspect_ratio_fast pil p g).1.
Proof.
  assert (∀ A (f : ImageGallery → A),
            (∀ v g0, f (set_opened v g0) = f g0) →
            (∀ v g0, f (set_aspect_cache v g0) = f g0) →
            f (get_aspect_ratio_fast pil p g).1 = f g) as Hf.
  { intros A f Ho Ha. unfold get_aspect_ratio_fast, open_image.
    destruct (aspect_cache g !! p); [done|].
    destruct (image_open pil p) as [[w h]|]; cbn [fst]; [|by rewrite Ho].
    case_decide; cbn [fst]; [by rewrite Ho | by rewrite Ha, Ho]. }
  split; [by apply Hf|]. split; [by apply Hf|]. split; [by apply Hf|].
  split; [by apply Hf|]. split; [by apply (Hf _ (λ g0, winfo_width (canvas g0)))|].
  intros q. apply resolved_stable.
Qed.

Lemma layout_frame_positions pil d g :
  layout_frame pil g (set_image_positions d g).
Proof.
  split; [done|]. split; [done|]. split; [done|]. split; [done|].
  split; [done|]. intros q. apply resolved_set_image_positions.
Qed.

Lemma layout_frame_place pil col_w gap imgs : ∀ heights g,
  layout_frame pil g (place_images pil col_w gap imgs heights g).1.
Proof.
  induction imgs as [|img rest IH]; intros heights g.
  { apply layout_frame_refl. }
  rewrite place_images_unfold.
  destruct (py_min heights ≫= _) as [c|]; [|apply layout_frame_refl].
  cbv zeta. destruct (Qeq_bool _ _); [apply layout_frame_resolve|].
  destruct (heights !! c) as [y|]; [|apply layout_frame_resolve].
  eapply layout_frame_trans; [|apply IH].
  eapply layout_frame_trans; [apply layout_frame_resolve|].
  apply layout_frame_positions.
Qed.

(** *** Two runs *)

Lemma place_images_agree pil1 pil2 col_w gap imgs : ∀ heights g1 g2,
  image_positions g1 = image_positions g2 →
  (∀ img, img ∈ imgs →
     resolved pil1 g1 (path img) = resolved pil2 g2 (path img)) →
  (place_images pil1 col_w gap imgs heights g1).2
  = (place_images pil2 col_w gap imgs heights g2).2
  ∧ image_positions (place_images pil1 col_w gap imgs heights g1).1
    = image_positions (place_images pil2 col_w gap imgs heights g2).1.
Proof.
  induction imgs as [|img rest IH]; intros heights g1 g2 Hpos Hres; [done|].
  rewrite !place_images_unfold.
  destruct (py_min heights ≫= _) as [c|]; [|done]. cbv zeta.
  rewrite <-(Hres img) by apply list_elem_of_here.
  destruct (layout_frame_resolve pil1 (path img) g1) as (_&_&_&_&_&Hs1).
  destruct (layout_frame_resolve pil2 (path img) g2) as (_&_&_&_&_&Hs2).
  destruct (get_aspect_frame pil1 (path img) g1) as [Hp1 _].
  destruct (get_aspect_frame pil2 (path img) g2) as [Hp2 _].
  destruct (Qeq_bool _ _); [split; [done | cbn [fst]; congruence]|].
  destruct (heights !! c) as [y|]; [|split; [done | cbn [fst]; congruence]].
  apply IH.
  - cbn. congruence.
  - intros img' Hin. rewrite !resolved_set_image_positions, Hs1, Hs2.
    apply Hres. by apply list_elem_of_further.
Qed.

(** C9.  Two runs of the layout whose inputs agree (the same ordered
    list of images, the same ratios from the resolver for them, memoized
    or decoded during the run, the same number of columns, canvas width
    and gap) end the same way and produce the same position map and the
    same scroll region, hence the same total height. *)
Theorem layout_deterministic (pil1 pil2 : Pillow) (g1 g2 : ImageGallery) :
  same_layout_inputs pil1 pil2 g1 g2 →
  1 < winfo_width (canvas g1) →
  let r1 := calculate_layout pil1 g1 in
  let r2 := calculate_layout pil2 g2 in
  r1.2 = r2.2
  ∧ image_positions r1.1 = image_positions r2.1
  ∧ (r1.2 = Done →
     scrollregion (canvas r1.1) = scrollregion (canvas r2.1)
     ∧ total_height r1.1 = total_height r2.1).
Proof.
  intros (Himgs & Hcols & Hw & Hgap & Hres) Hwide. cbv zeta.
  unfold calculate_layout. rewrite <-Hw, <-Hcols, <-Hgap.
  destruct (decide (winfo_width (canvas g1) <= 1)) as [?|_]; [lia|].
  cbn [filtered_images set_image_positions]. rewrite <-Himgs.
  match goal with
  | |- context [place_images pil1 ?cw ?gp ?imgs ?hs ?ga] =>
      match goal with
      | |- context [place_images pil2 cw gp imgs hs ?gb] =>
          destruct (place_images_agree pil1 pil2 cw gp imgs hs ga gb)
            as [Hr Hp];
          [done
          |by intros img Hin; rewrite !resolved_set_image_positions; apply Hres
          |destruct (place_images pil1 cw gp imgs hs ga) as [ga' ra];
           destruct (place_images pil2 cw gp imgs hs gb) as [gb' rb]]
      end
  end.
  cbn [fst snd] in Hr, Hp. subst rb.
  destruct ra as [heights|]; cbn [fst snd]; [|done].
  split; [done|]. split; [done|]. intros _. unfold total_height. cbn. done.
Qed.

(** A second run on the gallery that a first run left has the same
    inputs. *)
Lemma layout_rerun_inputs pil g :
  same_layout_inputs pil pil g (calculate_layout pil g).1.
Proof.
  assert (layout_frame pil g (calculate_layout pil g).1) as Hf.
  { unfold calculate_layout. case_decide; [apply layout_frame_refl|].
    match goal with |- context [place_images pil ?cw ?gp ?imgs ?hs ?ga] =>
      pose proof (layout_frame_place pil cw gp imgs hs ga) as Hpl;
      destruct (place_images pil cw gp imgs hs ga) as [g' [heights|]] end;
      cbn [fst] in *.
    - eapply layout_frame_trans; [apply layout_frame_positions|].
      eapply layout_frame_trans; [exact Hpl|].
      split; [done|]. split; [done|]. split; [done|]. split; [done|].
      split; [done|]. intros q. by rewrite !resolved_eq.
    - eapply layout_frame_trans; [apply layout_frame_positions | exact Hpl]. }
  destruct Hf as (Hi & Hv & Hn & Hg & Hc & Hr).
  split; [done|]. split; [unfold layout_columns; by rewrite Hi, Hv, Hn|].
  split; [done|]. split; [done|]. intros img _. by rewrite Hr.
Qed.

(** *** The loop follows the masonry rule *)

Lemma column_width_min cw gap cols : 50 <= column_width cw gap cols.
Proof. unfold column_width. lia. Qed.

Lemma resolved_nonzero (a : Q) : (0 < a)%Q → Qeq_bool a 0 = false.
Proof.
  intros Ha. destruct (Qeq_bool a 0) eqn:Hz; [|done].
  apply Qeq_bool_iff in Hz. lra.
Qed.

Lemma float_quotient_nonneg (col_w : Z) (a : Q) :
  0 <= col_w → (0 < a)%Q → (0 <= fdiv (float_of_int col_w) a)%Q.
Proof.
  intros Hw Ha. apply FloatFacts.round64_nonneg.
  apply Qle_shift_div_l; [done|]. rewrite Qmult_0_l.
  apply FloatFacts.round64_nonneg.
  change 0%Q with (inject_Z 0). by rewrite <-Zle_Qle.
Qed.

Lemma tile_height_floor (col_w : Z) (a : Q) :
  0 <= col_w → (0 < a)%Q →
  tile_height col_w a = Qfloor (fdiv (float_of_int col_w) a).
Proof.
  intros Hw Ha. apply py_int_floor. by apply float_quotient_nonneg.
Qed.

Lemma tile_height_nonneg (col_w : Z) (a : Q) :
  0 <= col_w → (0 < a)%Q → 0 <= tile_height col_w a.
Proof.
  intros Hw Ha. rewrite tile_height_floor by done.
  change 0 with (Qfloor 0). apply Qfloor_resp_le.
  by apply float_quotient_nonneg.
Qed.

Lemma place_images_masonry pil col_w gap imgs : 0 <= col_w → ∀ heights g,
  heights ≠ [] →
  (∀ img, img ∈ imgs → (0 < resolved pil g (path img))%Q) →
  ∃ placed heights',
    (place_images pil col_w gap imgs heights g).2 = Some heights'
    ∧ image_positions (place_images pil col_w gap imgs heights g).1
      = add_placements (image_positions g) placed
    ∧ masonry col_w gap heights
        ((λ img, (path img, resolved pil g (path img))) <$> imgs)
        placed heights'
    ∧ length heights' = length heights.
Proof.
  intros Hw. induction imgs as [|img rest IH]; intros heights g Hne Hpos.
  { exists [], heights. repeat split. apply masonry_done. }
  rewrite place_images_unfold.
  destruct (py_min_spec heights Hne) as (m & Hmin & Hin & Hle).
  destruct (py_index_spec m heights Hin) as (c & Hidx & Hc).
  rewrite Hmin. cbn [mbind option_bind]. rewrite Hidx. cbv zeta.
  pose proof (Hpos img (list_elem_of_here _ _)) as Ha.
  rewrite (resolved_nonzero _ Ha), Hc.
  set (a := resolved pil g (path img)) in *.
  set (g1 := (get_aspect_ratio_fast pil (path img) g).1).
  set (h := tile_height col_w a).
  set (g2 := set_image_positions _ g1).
  assert (∀ q, resolved pil g2 q = resolved pil g q) as Hres.
  { intros q. subst g2 g1.
    by rewrite resolved_set_image_positions, resolved_stable. }
  destruct (IH (<[c := m + h + gap]> heights) g2) as (placed & hs' & Hr & Hp & Hm & Hl).
  { intros Hnil. apply (f_equal length) in Hnil.
    rewrite length_insert in Hnil. by destruct heights. }
  { intros img' Hin'. rewrite Hres. apply Hpos. by apply list_elem_of_further. }
  exists ((path img, (column_x col_w gap c, m, col_w, h)) :: placed), hs'.
  split; [done|]. split; [|split].
  - rewrite Hp. subst g2. cbn [image_positions set_image_positions].
    subst g1. by rewrite (proj1 (get_aspect_frame pil (path img) g)).
  - cbn [fmap list_fmap]. fold a. apply masonry_place; [done | done |].
    fold (masonry col_w gap).
    erewrite list_fmap_ext; [exact Hm|]. intros i x _. cbn. by rewrite Hres.
  - by rewrite Hl, length_insert.
Qed.

Lemma foldl_max_ge x l :
  x <= foldl Z.max x l ∧ ∀ y, y ∈ l → y <= foldl Z.max x l.
Proof.
  revert x. induction l as [|z l IH]; intros x; cbn [foldl].
  - split; [lia|]. by intros y ?%elem_of_nil.
  - destruct (IH (Z.max x z)) as [H1 H2]. split; [lia|].
    intros y [->|Hy]%elem_of_cons; [lia | by apply H2].
Qed.

Lemma foldl_max_elem x l : foldl Z.max x l ∈ x :: l.
Proof.
  revert x. induction l as [|z l IH]; intros x; cbn [foldl].
  - apply list_elem_of_here.
  - specialize (IH (Z.max x z)). apply elem_of_cons in IH as [->|IH].
    + destruct (Z.max_spec x z) as [[_ ->]|[_ ->]].
      * apply list_elem_of_further, list_elem_of_here.
      * apply list_elem_of_here.
    + by do 2 apply list_elem_of_further.
Qed.

Lemma py_max_spec l :
  l ≠ [] → ∃ m, py_max l = Some m ∧ m ∈ l ∧ ∀ y, y ∈ l → y <= m.
Proof.
  destruct l as [|x l]; [done|]. intros _. exists (foldl Z.max x l).
  split; [done|]. split; [apply foldl_max_elem|].
  destruct (foldl_max_ge x l) as [H1 H2].
  intros y [->|Hy]%elem_of_cons; [done | by apply H2].
Qed.

(** The general part of C3. *)
Lemma layout_follows_masonry pil g :
  1 < winfo_width (canvas g) →
  (∀ img, img ∈ filtered_images g → (0 < resolved pil g (path img))%Q) →
  let cols := layout_columns g in
  let col_w := column_width (winfo_width (canvas g)) (gap g) cols in
  1 <= cols
  ∧ ∃ placed heights m,
      (calculate_layout pil g).2 = Done
      ∧ masonry col_w (gap g) (replicate (Z.to_nat cols) (gap g))
          (with_ratios pil g) placed heights
      ∧ image_positions (calculate_layout pil g).1 = add_placements [] placed
      ∧ m ∈ heights ∧ (∀ y, y ∈ heights → y <= m)
      ∧ length heights = Z.to_nat cols
      ∧ total_height (calculate_layout pil g).1 = Some (m + gap g).
Proof.
  intros Hwide Hpos cols col_w. pose proof (layout_columns_pos g) as Hcols.
  fold cols in Hcols. split; [done|].
  unfold calculate_layout. rewrite decide_False by lia. fold cols col_w.
  destruct (place_images_masonry pil col_w (gap g) (filtered_images g)
              ltac:(unfold col_w, column_width; lia)
              (replicate (Z.to_nat cols) (gap g))
              (set_image_positions [] g))
    as (placed & heights & Hr & Hp & Hm & Hl).
  { intros Hnil. apply (f_equal length) in Hnil.
    rewrite length_replicate in Hnil. simpl in Hnil. lia. }
  { intros img Hin. rewrite resolved_set_image_positions. by apply Hpos. }
  cbn [filtered_images set_image_positions] in *.
  destruct (place_images _ _ _ _ _ _) as [g' r]. cbn [fst snd] in Hr, Hp.
  subst r. rewrite length_replicate in Hl.
  destruct (py_max_spec heights) as (m & Hmax & Hin & Hge).
  { intros ->. simpl in Hl. lia. }
  exists placed, heights, m. rewrite Hmax. cbn [fst snd].
  split; [done|]. split.
  { unfold with_ratios. erewrite list_fmap_ext; [exact Hm|].
    intros i x _. cbn. by rewrite resolved_set_image_positions. }
  split; [done|]. split; [done|]. split; [done|]. split; [done|].
  unfold total_height. by cbn.
Qed.

(** A tile that is 196 wide for an image of 560×1000 is 349 high: the
    ratio and the quotient are rounded, and the quotient falls just below
    350, which is the floor of the exact quotient; for an image of 1×5 the
    rounded quotient is 980, above the floor of the exact quotient by the
    rounded ratio. *)
Lemma tile_height_rounds :
  tile_height 196 (int_truediv 560 1000) = 349
  ∧ Qfloor (inject_Z 196 / (inject_Z 560 / inject_Z 1000)) = 350
  ∧ tile_height 196 (int_truediv 1 5) = 980
  ∧ Qfloor (inject_Z 196 / int_truediv 1 5) = 979.
Proof. by vm_compute. Qed.

(** *** Twelve square images in four columns *)

Lemma unit_height (col_w : Z) (a : Q) :
  0 <= col_w < 2 ^ 53 → (a == 1)%Q → tile_height col_w a = col_w.
Proof.
  intros Hw Ha. unfold tile_height, fdiv, float_of_int.
  rewrite (FloatFacts.round64_Z col_w) by done.
  rewrite (FloatFacts.round64_proper _ (inject_Z col_w)) by (rewrite Ha; field).
  rewrite (FloatFacts.round64_Z col_w) by done.
  apply py_int_inject.
Qed.

Lemma place_square pil col_w gap img rest heights g m c :
  0 <= col_w < 2 ^ 53 →
  py_min heights = Some m → py_index m heights = Some c →
  (resolved pil g (path img) == 1)%Q →
  ∃ g',
    place_images pil col_w gap (img :: rest) heights g
    = place_images pil col_w gap rest (<[c := m + col_w + gap]> heights) g'
    ∧ image_positions g'
      = add_placements (image_positions g)
          [(path img, (column_x col_w gap c, m, col_w, col_w))]
    ∧ ∀ q, resolved pil g' q = resolved pil g q.
Proof.
  intros Hw Hmin Hidx Ha.
  assert (heights !! c = Some m) as Hc.
  { clear -Hidx. revert c Hidx. induction heights as [|y l IH]; intros c; [done|].
    cbn [py_index]. case_decide as Hy; [intros [= <-]; by subst|].
    destruct (py_index m l) as [c'|]; [|done]. intros [= <-]. by apply IH. }
  rewrite place_images_unfold, Hmin. cbn [mbind option_bind].
  rewrite Hidx. cbv zeta.
  rewrite resolved_nonzero by (rewrite Ha; lra).
  rewrite Hc, (unit_height _ _ Hw Ha).
  eexists. split; [reflexivity|]. split.
  - cbn. by rewrite (proj1 (get_aspect_frame pil (path img) g)).
  - intros q. by rewrite resolved_set_image_positions, resolved_stable.
Qed.

Lemma add_placements_app d l1 l2 :
  add_placements (add_placements d l1) l2 = add_placements d (l1 ++ l2).
Proof. unfold add_placements. by rewrite foldl_app. Qed.

(** Four squares on four columns of equal height fill one row. *)
Lemma place_row pil col_w gap y i0 i1 i2 i3 rest g :
  0 <= col_w < 2 ^ 53 → 0 < col_w + gap →
  (∀ img, img ∈ [i0; i1; i2; i3] → (resolved pil g (path img) == 1)%Q) →
  let y' := y + col_w + gap in
  ∃ g',
    place_images pil col_w gap (i0 :: i1 :: i2 :: i3 :: rest) [y; y; y; y] g
    = place_images pil col_w gap rest [y'; y'; y'; y'] g'
    ∧ image_positions g'
      = add_placements (image_positions g)
          [(path i0, (column_x col_w gap 0, y, col_w, col_w));
           (path i1, (column_x col_w gap 1, y, col_w, col_w));
           (path i2, (column_x col_w gap 2, y, col_w, col_w));
           (path i3, (column_x col_w gap 3, y, col_w, col_w))]
    ∧ ∀ q, resolved pil g' q = resolved pil g q.
Proof.
  intros Hw Hd Hsq. cbv zeta. set (y' := y + col_w + gap).
  assert (∀ k img, [i0; i1; i2; i3] !! k = Some img →
            (resolved pil g (path img) == 1)%Q) as Hk.
  { intros k img Hl. apply Hsq. by eapply list_elem_of_lookup_2. }
  destruct (place_square pil col_w gap i0 (i1 :: i2 :: i3 :: rest)
              [y; y; y; y] g y 0%nat Hw) as (g1 & -> & Hp1 & Hr1).
  { cbn. f_equal. lia. }
  { cbn. by rewrite decide_True. }
  { by apply (Hk 0%nat). }
  change (<[0%nat := y + col_w + gap]> [y; y; y; y]) with [y'; y; y; y].
  destruct (place_square pil col_w gap i1 (i2 :: i3 :: rest)
              [y'; y; y; y] g1 y 1%nat Hw) as (g2 & -> & Hp2 & Hr2).
  { cbn. f_equal. lia. }
  { cbn. rewrite decide_False by lia. by rewrite decide_True. }
  { rewrite Hr1. by apply (Hk 1%nat). }
  change (<[1%nat := y + col_w + gap]> [y'; y; y; y]) with [y'; y'; y; y].
  destruct (place_square pil col_w gap i2 (i3 :: rest)
              [y'; y'; y; y] g2 y 2%nat Hw) as (g3 & -> & Hp3 & Hr3).
  { cbn. f_equal. lia. }
  { cbn. rewrite !decide_False by lia. by rewrite decide_True. }
  { rewrite Hr2, Hr1. by apply (Hk 2%nat). }
  change (<[2%nat := y + col_w + gap]> [y'; y'; y; y]) with [y'; y'; y'; y].
  destruct (place_square pil col_w gap i3 rest
              [y'; y'; y'; y] g3 y 3%nat Hw) as (g4 & -> & Hp4 & Hr4).
  { cbn. f_equal. lia. }
  { cbn. rewrite !decide_False by lia. by rewrite decide_True. }
  { rewrite Hr3, Hr2, Hr1. by apply (Hk 3%nat). }
  change (<[3%nat := y + col_w + gap]> [y'; y'; y'; y]) with [y'; y'; y'; y'].
  exists g4. split; [done|]. split.
  - rewrite Hp4, Hp3, Hp2, Hp1. by rewrite !add_placements_app.
  - intros q. by rewrite Hr4, Hr3, Hr2, Hr1.
Qed.

Lemma add_placements_fresh (d placed : list (string * Position)) :
  NoDup (keys d ++ placed.*1) → add_placements d placed = d ++ placed.
Proof.
  revert d. induction placed as [|[p pos] placed IH]; intros d Hnd.
  { by rewrite app_nil_r. }
  cbn [add_placements foldl fst snd]. fold (add_placements (setitem p pos d) placed).
  cbn [fmap list_fmap fst] in Hnd.
  assert (p ∉ keys d) as Hp.
  { apply NoDup_app in Hnd as (_ & Hdis & _). intros Hin.
    apply (Hdis p Hin). apply list_elem_of_here. }
  rewrite CacheFacts.setitem_fresh by done. rewrite IH.
  - by rewrite <-app_assoc.
  - unfold keys in *. rewrite fmap_app. cbn. by rewrite <-app_assoc.
Qed.

Lemma twelve_squares_layout pil g :
  twelve_squares pil g →
  let col_w := column_width (winfo_width (canvas g)) 4 4 in
  let g' := (calculate_layout pil g).1 in
  (calculate_layout pil g).2 = Done
  ∧ image_positions g'
    = imap (λ i img,
              (path img,
               (column_x col_w 4 (i mod 4),
                4 + Z.of_nat (i / 4) * (col_w + 4), col_w, col_w)))
        (filtered_images g)
  ∧ (∀ c, (c < 4)%nat →
       length (filter (λ e, e.2.1.1.1 = column_x col_w 4 c)
                 (image_positions g')) = 3%nat)
  ∧ (place_images pil col_w 4 (filtered_images g) (replicate 4 4)
       (set_image_positions [] g)).2
    = Some (replicate 4 (3 * col_w + 4 * 4))
  ∧ total_height g' = Some (3 * col_w + 4 * 4 + 4).
Proof.
  intros (Hwide & Hgap & Hcols & Hlen & Hnd & Hsq) col_w g'.
  assert (50 <= col_w < 2 ^ 53) as Hw.
  { unfold col_w, column_width.
    assert ((winfo_width (canvas g) - 4 * (4 + 1)) `div` 4 < 2 ^ 53)
      by (apply Z.div_lt_upper_bound; lia).
    lia. }
  destruct (filtered_images g)
    as [|i0 [|i1 [|i2 [|i3 [|i4 [|i5 [|i6 [|i7 [|i8 [|i9 [|i10 [|i11 [|]]]]]]]]]]]]]
    eqn:Himgs; try discriminate Hlen.
  set (g0 := set_image_positions [] g).
  assert (∀ img, img ∈ [i0; i1; i2; i3; i4; i5; i6; i7; i8; i9; i10; i11] →
            (resolved pil g0 (path img) == 1)%Q) as Hsq0.
  { intros img Hin. unfold g0. rewrite resolved_set_image_positions.
    by apply Hsq. }
  destruct (place_row pil col_w 4 4 i0 i1 i2 i3
              [i4; i5; i6; i7; i8; i9; i10; i11] g0)
    as (g1 & E1 & P1 & R1); [lia | lia | |].
  { intros img Hin. apply Hsq0. rewrite !elem_of_cons in *. tauto. }
  destruct (place_row pil col_w 4 (4 + col_w + 4) i4 i5 i6 i7
              [i8; i9; i10; i11] g1)
    as (g2 & E2 & P2 & R2); [lia | lia | |].
  { intros img Hin. rewrite R1. apply Hsq0. rewrite !elem_of_cons in *. tauto. }
  destruct (place_row pil col_w 4 (4 + col_w + 4 + col_w + 4) i8 i9 i10 i11
              [] g2)
    as (g3 & E3 & P3 & R3); [lia | lia | |].
  { intros img Hin. rewrite R2, R1. apply Hsq0. rewrite !elem_of_cons in *.
    tauto. }
  cbv zeta in E1, E2, E3.
  assert (place_images pil col_w 4
            [i0; i1; i2; i3; i4; i5; i6; i7; i8; i9; i10; i11]
            (replicate 4 4) g0
          = (g3, Some (replicate 4 (3 * col_w + 4 * 4)))) as Hloop.
  { change (replicate 4 4) with [4; 4; 4; 4]. rewrite E1, E2, E3.
    cbn [place_images replicate]. do 2 f_equal.
    repeat (f_equal; try lia). }
  assert (image_positions g3
          = imap (λ i img,
                    (path img,
                     (column_x col_w 4 (i mod 4),
                      4 + Z.of_nat (i / 4) * (col_w + 4), col_w, col_w)))
              [i0; i1; i2; i3; i4; i5; i6; i7; i8; i9; i10; i11]) as Hpos.
  { rewrite P3, P2, P1. rewrite !add_placements_app.
    rewrite add_placements_fresh by (cbn; exact Hnd).
    cbn. repeat (f_equal; try lia). }
  assert (calculate_layout pil g
          = (set_canvas
               (set_scrollregion
                  (Some (0, 0, winfo_width (canvas g), 3 * col_w + 4 * 4 + 4))
                  (canvas g3)) g3, Done)) as Hcalc.
  { unfold calculate_layout. rewrite decide_False by lia.
    rewrite Hcols, Hgap. fold col_w. fold g0.
    change (Z.to_nat 4) with 4%nat.
    replace (filtered_images g0) with
      [i0; i1; i2; i3; i4; i5; i6; i7; i8; i9; i10; i11]
      by (unfold g0; cbn; by rewrite Himgs).
    rewrite Hloop. cbn [py_max replicate foldl].
    rewrite !Z.max_id. reflexivity. }
  subst g'. rewrite Hcalc. cbn [fst snd].
  split; [done|]. split; [exact Hpos|].
  split; [|split; [by rewrite Hloop | done]].
  intros c Hc. cbn [image_positions set_canvas]. rewrite Hpos.
  cbn -[column_x filter].
  destruct c as [|[|[|[|c]]]]; [| | | |lia];
    repeat first
      [ rewrite filter_cons_True by (cbn; unfold column_x; lia)
      | rewrite filter_cons_False by (cbn; unfold column_x; lia) ];
    reflexivity.
Qed.

(** C3.  With a canvas that has a width and positive ratios for the
    images, the layout uses at least one column, starts every column
    accumulator at the gap, places the images in order, each into a
    column of minimum height at [(column_x, height of the column)] with
    the height [int(column_width / ratio)], which is the floor of this
    quotient as the program computes it, in floats; it advances that
    column by the image height plus the gap, and reports the maximum
    accumulator plus the gap as total height.  With twelve images of
    ratio 1.0, four columns and gap 4, image [i] lands in column
    [i mod 4] of row [i / 4], every column receives three images, every
    accumulator ends at [3×column_width + 4×gap], and the total height is
    one gap more. *)
Theorem masonry_layout (pil : Pillow) (g : ImageGallery) :
  (1 < winfo_width (canvas g) →
   (∀ img, img ∈ filtered_images g → (0 < resolved pil g (path img))%Q) →
   let cols := layout_columns g in
   let col_w := column_width (winfo_width (canvas g)) (gap g) cols in
   1 <= cols
   ∧ (∀ img, img ∈ filtered_images g →
        tile_height col_w (resolved pil g (path img))
        = Qfloor (fdiv (float_of_int col_w) (resolved pil g (path img))))
   ∧ ∃ placed heights m,
       (calculate_layout pil g).2 = Done
       ∧ masonry col_w (gap g) (replicate (Z.to_nat cols) (gap g))
           (with_ratios pil g) placed heights
       ∧ image_positions (calculate_layout pil g).1 = add_placements [] placed
       ∧ m ∈ heights ∧ (∀ y, y ∈ heights → y <= m)
       ∧ length heights = Z.to_nat cols
       ∧ total_height (calculate_layout pil g).1 = Some (m + gap g))
  ∧ (twelve_squares pil g →
     let col_w := column_width (winfo_width (canvas g)) 4 4 in
     let g' := (calculate_layout pil g).1 in
     (calculate_layout pil g).2 = Done
     ∧ image_positions g'
       = imap (λ i img,
                 (path img,
                  (column_x col_w 4 (i mod 4),
                   4 + Z.of_nat (i / 4) * (col_w + 4), col_w, col_w)))
           (filtered_images g)
     ∧ (∀ c, (c < 4)%nat →
          length (filter (λ e, e.2.1.1.1 = column_x col_w 4 c)
                    (image_positions g')) = 3%nat)
     ∧ (place_images pil col_w 4 (filtered_images g) (replicate 4 4)
          (set_image_positions [] g)).2
       = Some (replicate 4 (3 * col_w + 4 * 4))
     ∧ total_height g' = Some (3 * col_w + 4 * 4 + 4)).
Proof.
  split; [|apply twelve_squares_layout].
  intros Hwide Hpos cols col_w.
  destruct (layout_follows_masonry pil g Hwide Hpos) as [Hcols Hm].
  split; [done|]. split; [|exact Hm].
  intros img Hin. apply tile_height_floor; [|by apply Hpos].
  pose proof (column_width_min (winfo_width (canvas g)) (gap g) cols).
  fold col_w in H. lia.
Qed.

Lemma masonry_layout_witness :
  let pil := mkPillow (λ _, Some (100, 100)) (λ _ _ _, true) in
  let g := set_filtered_images catalog_of_twelve
             (init_gallery (mkCanvas 804 600 0 None [])) in
  1 <= layout_columns g
  ∧ total_height (calculate_layout pil g).1 = Some 608
  ∧ length (filter (λ e, e.2.1.1.1 = column_x 196 4 2)
              (image_positions (calculate_layout pil g).1)) = 3%nat.
Proof.
  intros pil g.
  assert (∀ img, img ∈ filtered_images g →
            resolved pil g (path img) = 1%Q)
    as Hratio.
  { intros img Hin. unfold g, catalog_of_twelve in Hin.
    cbn [filtered_images set_filtered_images] in Hin.
    rewrite !elem_of_cons in Hin.
    repeat (destruct Hin as [->|Hin]; [vm_compute; reflexivity|]).
    by apply elem_of_nil in Hin. }
  destruct (masonry_layout pil g) as [Hgen Hsq].
  destruct Hgen as (Hcols & _ & _).
  { cbn. lia. }
  { intros img Hin. rewrite (Hratio img Hin). reflexivity. }
  destruct Hsq as (_ & _ & Hcount & _ & Htotal).
  { split; [cbn; lia|]. split; [reflexivity|]. split; [reflexivity|].
    split; [reflexivity|]. split; [compute_done|].
    intros img Hin. rewrite (Hratio img Hin). reflexivity. }
  split; [exact Hcols|]. split; [exact Htotal | apply Hcount; lia].
Defined.

(** C9, as worded: the same ordered list of images, the same memoized
    ratios, the same number of columns, canvas width and gap do not
    determine the layout.  A file that cannot be read gets the ratio 1.0,
    which is not memoized; the run after it starts with the same memoized
    ratios, reads the file, and gives the tile another height. *)
Lemma memoized_ratios_do_not_determine_layout :
  let g1 := one_image_gallery in
  let g2 := (calculate_layout unreadable g1).1 in
  same_memoized_inputs g1 g2
  ∧ 1 < winfo_width (canvas g1)
  ∧ image_positions (calculate_layout unreadable g1).1
    = [("late.png", (4, 4, 196, 196))]
  ∧ image_positions (calculate_layout readable g2).1
    = [("late.png", (4, 4, 196, 98))]
  ∧ total_height (calculate_layout unreadable g1).1 = Some 208
  ∧ total_height (calculate_layout readable g2).1 = Some 110
  ∧ ¬ same_layout unreadable readable g1 g2.
Proof.
  cbv zeta. split; [by vm_compute|]. split; [by vm_compute|].
  split; [by vm_compute|]. split; [by vm_compute|].
  split; [by vm_compute|]. split; [by vm_compute|].
  intros [Hpos _]. vm_compute in Hpos. discriminate Hpos.
Qed.

Lemma layout_deterministic_witness :
  let pil := mkPillow (λ _, Some (100, 100)) (λ _ _ _, true) in
  let g := set_filtered_images catalog_of_twelve
             (init_gallery (mkCanvas 804 600 0 None [])) in
  let first := calculate_layout pil g in
  let second := calculate_layout pil first.1 in
  image_positions second.1 = image_positions first.1
  ∧ total_height second.1 = total_height first.1.
Proof.
  intros pil g first second.
  destruct (layout_deterministic pil pil g first.1) as (Hout & Hpos & Hdone).
  - apply layout_rerun_inputs.
  - cbn. lia.
  - fold first second in Hout, Hpos, Hdone.
    split; [symmetry; exact Hpos|].
    symmetry. apply Hdone. vm_compute. reflexivity.
Defined.

End LayoutFacts.

(** ** Laws of the cache *)

Module CacheLaws.
Import OrderedDict FastImageCache Recency CacheFacts.
Section laws.
Context {K V : Type} `{EqDecision K}.
Implicit Types (d : list (K * V)) (c : FastImageCache.t K V) (k : K) (v : V).

Lemma getitem_setitem k k' v d :
  getitem k' (setitem k v d) = if decide (k' = k) then Some v else getitem k' d.
Proof.
  induction d as [|[k0 v0] d IH]; cbn [setitem getitem].
  - by repeat case_decide.
  - destruct (decide (k = k0)) as [->|Hne]; cbn [getitem].
    + by repeat case_decide.
    + rewrite IH. repeat case_decide; congruence.
Qed.

Lemma getitem_app_l k d1 d2 :
  k ∈ keys d1 → getitem k (d1 ++ d2) = getitem k d1.
Proof.
  unfold keys. induction d1 as [|[k0 v0] d1 IH]; cbn; intros Hin.
  - by apply elem_of_nil in Hin.
  - case_decide; [done|]. apply IH.
    apply elem_of_cons in Hin as [?|?]; done.
Qed.

Lemma getitem_app_r k d1 d2 :
  k ∉ keys d1 → getitem k (d1 ++ d2) = getitem k d2.
Proof.
  unfold keys. induction d1 as [|[k0 v0] d1 IH]; cbn; intros Hin; [done|].
  apply not_elem_of_cons in Hin as [Hne Hin]. rewrite decide_False by done.
  by apply IH.
Qed.

Lemma getitem_None k d : getitem k d = None ↔ k ∉ keys d.
Proof.
  rewrite <-getitem_Some_iff. rewrite eq_None_not_Some. done.
Qed.

Lemma getitem_delitem_ne k k' d :
  k' ≠ k → getitem k' (delitem k d) = getitem k' d.
Proof.
  intros Hne. induction d as [|[k0 v0] d IH]; cbn [delitem getitem]; [done|].
  destruct (decide (k = k0)) as [->|Hk].
  - by rewrite decide_False.
  - cbn [getitem]. by rewrite IH.
Qed.

Lemma getitem_tail_ne k d :
  NoDup (keys d) → head (keys d) ≠ Some k → getitem k (tail d) = getitem k d.
Proof.
  destruct d as [|[k0 v0] d]; cbn; [done|]. intros _ Hhd.
  rewrite decide_False; [done|]. intros ->. done.
Qed.

(** What [get] returns and what it leaves. *)
Lemma get_lookup k c :
  NoDup (keys (cache c)) → (get k c).2 = getitem k (cache c).
Proof.
  intros Hnd. unfold get, contains. case_bool_decide as Hin; cbn [snd].
  - unfold move_to_end. destruct (getitem k (cache c)) as [v|] eqn:Hv.
    + rewrite getitem_app_r; [cbn; by rewrite decide_True|].
      intros Hk. apply elem_of_keys_delitem in Hk as [_ ?]; done.
    + apply getitem_None in Hv. done.
  - symmetry. by apply getitem_None.
Qed.

Lemma getitem_get k k' c :
  NoDup (keys (cache c)) →
  getitem k' (cache (get k c).1) = getitem k' (cache c).
Proof.
  intros Hnd. unfold get, contains. case_bool_decide as Hin; cbn [fst cache]; [|done].
  unfold move_to_end. destruct (getitem k (cache c)) as [v|] eqn:Hv; [|done].
  destruct (decide (k' = k)) as [->|Hne].
  - rewrite getitem_app_r; [cbn; by rewrite decide_True, Hv|].
    intros Hk. apply elem_of_keys_delitem in Hk as [_ ?]; done.
  - destruct (decide (k' ∈ keys (delitem k (cache c)))) as [Hk|Hk].
    + rewrite getitem_app_l by done. by apply getitem_delitem_ne.
    + rewrite getitem_app_r by done. cbn. rewrite decide_False by done.
      symmetry. apply getitem_None. intros Hk'. apply Hk.
      apply elem_of_keys_delitem; done.
Qed.

Lemma getitem_put_same k v c :
  wf c → (0 < max_size c)%nat → getitem k (cache (put k v c)) = Some v.
Proof.
  intros [Hnd Hsz] Hpos. unfold put, size in *.
  pose proof (getitem_setitem k k v (cache c)) as Hg.
  rewrite decide_True in Hg by done.
  case_bool_decide as Hov; cbn [cache]; [|done].
  unfold popitem_first. rewrite getitem_tail_ne; [done | by apply NoDup_keys_setitem |].
  rewrite length_setitem in Hov.
  destruct (decide (k ∈ keys (cache c))) as [Hin|Hout]; [lia|].
  rewrite keys_setitem_notin by done.
  destruct (keys (cache c)) as [|k0 l] eqn:Hk; cbn.
  - apply (f_equal length) in Hk. unfold keys in Hk. rewrite length_fmap in Hk.
    simpl in Hk. lia.
  - intros [= ->]. apply Hout. apply list_elem_of_here.
Qed.

Lemma head_keys_setitem k v d :
  d ≠ [] → head (keys (setitem k v d)) = head (keys d).
Proof.
  destruct d as [|[k0 v0] d]; [done|]. intros _. cbn [setitem].
  by case_decide; subst.
Qed.

(** X1.  What [put] stores, [get] returns: in a cache with room for at
    least one entry, [get k] right after [put k v] returns [v] and
    leaves [k] as the most recent entry. *)
Theorem put_get_roundtrip c k v :
  wf c → (0 < max_size c)%nat →
  (get k (put k v c)).2 = Some v
  ∧ last (keys (cache (get k (put k v c)).1)) = Some k.
Proof.
  intros Hwf Hpos. pose proof (wf_put k v c Hwf) as [Hnd _].
  pose proof (getitem_put_same k v c Hwf Hpos) as Hg.
  split; [by rewrite get_lookup|].
  assert (k ∈ keys (cache (put k v c))) as Hin.
  { apply getitem_Some_iff. by rewrite Hg. }
  unfold get, contains. rewrite bool_decide_true by done. cbn [fst cache].
  rewrite keys_move_to_end by done. by rewrite last_snoc.
Qed.

(** X2.  [get] never changes what is stored: every key maps to the same
    value before and after, the number of entries is the same, the
    result is the stored value, and a miss leaves the cache as it is. *)
Theorem get_keeps_contents c k :
  wf c →
  (get k c).2 = getitem k (cache c)
  ∧ (∀ k', getitem k' (cache (get k c).1) = getitem k' (cache c))
  ∧ size (get k c).1 = size c
  ∧ (¬ holds k c → get k c = (c, None)).
Proof.
  intros [Hnd _]. split; [by apply get_lookup|].
  split; [intros k'; by apply getitem_get|]. split; [by apply size_get|].
  intros Hout. unfold get, contains. by rewrite bool_decide_false.
Qed.

(** X3.  [put] on a key that is stored replaces its value and nothing
    else: the keys, their order and the number of entries stay, and
    every other key keeps its value. *)
Theorem put_existing_key c k v :
  wf c → holds k c →
  keys (cache (put k v c)) = keys (cache c)
  ∧ size (put k v c) = size c
  ∧ ∀ k', getitem k' (cache (put k v c))
          = if decide (k' = k) then Some v else getitem k' (cache c).
Proof.
  intros [Hnd Hsz] Hin. unfold put, size in *.
  rewrite bool_decide_false.
  2:{ rewrite length_setitem, decide_True by done. lia. }
  cbn [cache]. split; [by apply keys_setitem_in|].
  split; [by rewrite length_setitem, decide_True|].
  intros k'. apply getitem_setitem.
Qed.

(** X4.  [put] costs at most the oldest entry.  Any other key than the
    one written keeps its value, unless the key written is new, the
    cache is full and the other key is the first one, which is then
    dropped; and the size grows by one only for a new key in a cache
    that is not full. *)
Theorem put_drops_at_most_oldest c k v k' :
  wf c → k' ≠ k →
  (getitem k' (cache (put k v c)) = getitem k' (cache c)
   ∨ (head (keys (cache c)) = Some k' ∧ ¬ holds k c
      ∧ size c = max_size c
      ∧ getitem k' (cache (put k v c)) = None))
  ∧ (size c ≤ size (put k v c) ≤ S (size c))%nat
  ∧ (size (put k v c) = S (size c) →
     ¬ holds k c ∧ (size c < max_size c)%nat).
Proof.
  intros [Hnd Hsz] Hne. unfold put, size, holds in *.
  pose proof (getitem_setitem k k' v (cache c)) as Hg.
  rewrite decide_False in Hg by done.
  pose proof (length_setitem k v (cache c)) as Hlen.
  pose proof (NoDup_keys_setitem k v _ Hnd) as Hnd'.
  case_bool_decide as Hov; cbn [cache].
  - destruct (decide (k ∈ keys (cache c))) as [Hin|Hout]; [lia|].
    unfold popitem_first.
    assert (length (tail (setitem k v (cache c))) = length (cache c)) as Ht.
    { destruct (setitem k v (cache c)); simpl in *; lia. }
    rewrite Ht. split; [|split; [lia | intros ?; lia]].
    destruct (decide (head (keys (cache c)) = Some k')) as [Hhd|Hhd].
    + right. split; [done|]. split; [done|]. split; [lia|].
      apply getitem_None. rewrite setitem_fresh in Hnd' |- * by done.
      destruct (cache c) as [|[k0 v0] d]; [done|]. cbn in Hhd.
      injection Hhd as ->. cbn [app tail].
      unfold keys in Hnd'. cbn in Hnd'. by apply NoDup_cons in Hnd' as [Hk' _].
    + left. rewrite getitem_tail_ne; [done | done |].
      destruct (cache c) as [|[k0 v0] d] eqn:Hc.
      * cbn. intros [= ->]. done.
      * rewrite head_keys_setitem by done. done.
  - split; [by left|]. case_decide; split; try lia.
    all: intros ?; split; [done || lia | lia].
Qed.

End laws.

Lemma put_get_roundtrip_witness :
  (get "a" (put "a" 7 (mk [("b", 1); ("c", 2)] 2))).2 = Some 7.
Proof.
  apply (put_get_roundtrip (mk [("b", 1); ("c", 2)] 2) "a" 7).
  - split; [compute_done | cbn; lia].
  - cbn. lia.
Defined.

Lemma get_keeps_contents_witness :
  size (get "b" (mk [("b", 1); ("c", 2)] 2)).1 = 2%nat.
Proof.
  apply (get_keeps_contents (mk [("b", 1); ("c", 2)] 2) "b").
  split; [compute_done | cbn; lia].
Defined.

Lemma put_existing_key_witness :
  keys (cache (put "b" 9 (mk [("b", 1); ("c", 2)] 2))) = ["b"; "c"].
Proof.
  apply (put_existing_key (mk [("b", 1); ("c", 2)] 2) "b" 9).
  - split; [compute_done | cbn; lia].
  - unfold holds. compute_done.
Defined.

Lemma put_drops_at_most_oldest_witness :
  (size (mk [("b", 1); ("c", 2)] 2)
   ≤ size (put "a" 7 (mk [("b", 1); ("c", 2)] 2)))%nat.
Proof.
  destruct (put_drops_at_most_oldest (mk [("b", 1); ("c", 2)] 2) "a" 7 "c")
    as (_ & [Hle _] & _).
  - split; [compute_done | cbn; lia].
  - compute_done.
  - exact Hle.
Defined.

End CacheLaws.

(** ** Cache keys *)

Module KeyFacts.

Lemma underscore_string : String underscore "" = "_".
Proof. reflexivity. Qed.

Lemma pretty_N_char_digit x : pretty_N_char x ≠ underscore.
Proof. unfold pretty_N_char. by repeat case_match. Qed.

Lemma pretty_N_go_occurs x s :
  ¬ occurs underscore s → ¬ occurs underscore (pretty_N_go x s).
Proof.
  revert s. induction (N.lt_wf_0 x) as [x _ IH]; intros s Hs.
  assert (x = 0 ∨ 0 < x)%N as [->|Hx] by lia.
  - by rewrite pretty_N_go_0.
  - rewrite pretty_N_go_step by done. apply IH.
    + by apply N.div_lt.
    + cbn [occurs]. intros [Hc|Ho]; [|done].
      by apply (pretty_N_char_digit (x `mod` 10)%N).
Qed.

Lemma pretty_N_occurs (x : N) : ¬ occurs underscore (pretty x).
Proof.
  unfold pretty, pretty_N. case_decide.
  - cbn. intros [?|?]; done.
  - apply pretty_N_go_occurs. cbn. tauto.
Qed.

Lemma pretty_Z_occurs (z : Z) : ¬ occurs underscore (pretty z).
Proof.
  unfold pretty, pretty_Z. destruct z as [|p|p].
  - cbn. intros [?|?]; done.
  - apply pretty_N_occurs.
  - cbn [String.app occurs]. intros [?|Ho]; [done|].
    by apply (pretty_N_occurs (N.pos p)).
Qed.

Lemma occurs_app_sep p s : occurs underscore (p +:+ "_" +:+ s).
Proof. induction p as [|a p IH]; cbn; [by left | by right]. Qed.

Lemma app_sep_inj p p' s s' :
  ¬ occurs underscore s → ¬ occurs underscore s' →
  p +:+ "_" +:+ s = p' +:+ "_" +:+ s' → p = p' ∧ s = s'.
Proof.
  intros Hs Hs'. revert p'. induction p as [|a p IH]; intros [|a' p'] Heq.
  - change (String underscore s = String underscore s') in Heq.
    by injection Heq.
  - change (String underscore s = String a' (p' +:+ "_" +:+ s')) in Heq.
    injection Heq as _ Heq. destruct Hs. rewrite Heq. apply occurs_app_sep.
  - change (String a (p +:+ "_" +:+ s) = String underscore s') in Heq.
    injection Heq as _ Heq. destruct Hs'. rewrite <-Heq. apply occurs_app_sep.
  - change (String a (p +:+ "_" +:+ s) = String a' (p' +:+ "_" +:+ s')) in Heq.
    injection Heq as -> Heq.
    destruct (IH _ Heq) as [-> ->]. done.
Qed.

(** X5.  Thumbnail keys do not collide: two tasks have the same cache
    key only when they have the same path and the same width, whatever
    underscores and digits the paths contain. *)
Theorem thumb_key_inj (p p' : string) (w w' : Z) :
  thumb_key p w = thumb_key p' w' → p = p' ∧ w = w'.
Proof.
  unfold thumb_key. intros Heq.
  apply app_sep_inj in Heq as [-> Hw]; [|apply pretty_Z_occurs..].
  split; [done|]. by apply (inj pretty).
Qed.

Lemma thumb_key_inj_witness : "a_1" = "a_1" ∧ 20 = 20.
Proof. apply (thumb_key_inj "a_1" "a_1" 20 20). reflexivity. Defined.

End KeyFacts.

(** ** Geometry of a layout *)

Module GeometryFacts.
Import OrderedDict NumberFacts LayoutFacts.

Lemma column_x_inj col_w gap c c' :
  0 < col_w + gap → column_x col_w gap c = column_x col_w gap c' → c = c'.
Proof. unfold column_x. intros Hd Heq. nia. Qed.

Lemma masonry_shape col_w gap hs imgs placed hs' :
  masonry col_w gap hs imgs placed hs' →
  placed.*1 = imgs.*1 ∧ length hs' = length hs.
Proof.
  induction 1 as [hs|hs p a rest c y placed hs' Hc Hmin _ [IH1 IH2]];
    [done|].
  cbn. rewrite IH1, IH2, length_insert. done.
Qed.

(** Where the accumulators and the placements of a run end up. *)
Lemma masonry_geometry col_w gap hs imgs placed hs' :
  0 <= col_w → 0 <= gap →
  (∀ p a, (p, a) ∈ imgs → (0 < a)%Q) →
  masonry col_w gap hs imgs placed hs' →
  (∀ i y y', hs !! i = Some y → hs' !! i = Some y' → y <= y')
  ∧ ∀ p x y w h, (p, (x, y, w, h)) ∈ placed →
      ∃ (c : nat) y0 y1,
        x = column_x col_w gap c
        ∧ hs !! c = Some y0 ∧ hs' !! c = Some y1
        ∧ y0 <= y ∧ y + h + gap <= y1 ∧ w = col_w ∧ 0 <= h.
Proof.
  intros Hw Hgap Hpos Hm.
  induction Hm as [hs|hs p a rest c y placed hs' Hc Hmin Hm IH].
  { split; [intros i y y' ? ?; by simplify_eq|].
    intros ????? Hin. by apply elem_of_nil in Hin. }
  assert (0 < a)%Q as Ha by (apply (Hpos p); apply list_elem_of_here).
  pose proof (tile_height_nonneg col_w a Hw Ha) as Hh.
  set (h0 := tile_height col_w a) in *.
  destruct IH as [IHm IHp].
  { intros p' a' Hin. apply (Hpos p'). by apply list_elem_of_further. }
  pose proof (lookup_lt_Some _ _ _ Hc) as Hlt.
  assert (∀ i y0 y1, hs !! i = Some y0 →
            <[c := y + h0 + gap]> hs !! i = Some y1 → y0 <= y1) as Hstep.
  { intros i y0 y1 H0 H1. destruct (decide (i = c)) as [->|Hne].
    - rewrite list_lookup_insert_eq in H1 by done. simplify_eq. lia.
    - rewrite list_lookup_insert_ne in H1 by done. by simplify_eq. }
  assert (∀ i y0, hs !! i = Some y0 →
            ∃ y1, <[c := y + h0 + gap]> hs !! i = Some y1) as Hex.
  { intros i y0 H0. apply lookup_lt_is_Some. rewrite length_insert.
    by eapply lookup_lt_Some. }
  split.
  - intros i y0 y2 H0 H2. destruct (Hex i y0 H0) as [y1 H1].
    pose proof (Hstep i y0 y1 H0 H1). pose proof (IHm i y1 y2 H1 H2). lia.
  - intros p' x' y' w' h' Hin. apply elem_of_cons in Hin as [Heq|Hin].
    + injection Heq as -> -> -> -> ->.
      destruct (Hex c y Hc) as [y1 H1].
      rewrite list_lookup_insert_eq in H1 by done. injection H1 as <-.
      assert (is_Some (hs' !! c)) as [y2 H2].
      { apply lookup_lt_is_Some.
        destruct (masonry_shape _ _ _ _ _ _ Hm) as [_ ->].
        by rewrite length_insert. }
      exists c, y, y2. repeat split; try done; try lia.
      apply (IHm c (y + h0 + gap) y2); [|done].
      by rewrite list_lookup_insert_eq.
    + destruct (IHp p' x' y' w' h' Hin)
        as (c' & y0 & y1 & -> & H0 & H1 & Hle & Hbot & -> & Hh').
      assert (is_Some (hs !! c')) as [y00 H00].
      { apply lookup_lt_is_Some. apply lookup_lt_Some in H0.
        by rewrite length_insert in H0. }
      exists c', y00, y1. pose proof (Hstep c' y00 y0 H00 H0).
      repeat split; try done; lia.
Qed.

Lemma masonry_stacked col_w gap hs imgs placed hs' :
  0 <= col_w → 0 <= gap → 0 < col_w + gap →
  (∀ p a, (p, a) ∈ imgs → (0 < a)%Q) →
  masonry col_w gap hs imgs placed hs' → stacked gap placed.
Proof.
  intros Hw Hgap Hd Hpos Hm.
  induction Hm as [hs|hs p a rest c y placed hs' Hc Hmin Hm IH].
  { intros i j ??????????? Hi. done. }
  assert (∀ p' a', (p', a') ∈ rest → (0 < a')%Q) as Hpos'.
  { intros p' a' Hin. apply (Hpos p'). by apply list_elem_of_further. }
  intros i j p1 x y1 w1 h1 p2 y2 w2 h2 Hij Hi Hj.
  destruct j as [|j]; [lia|]. cbn in Hj.
  destruct i as [|i].
  - cbn in Hi. injection Hi as <- <- <- <- <-.
    destruct (masonry_geometry _ _ _ _ _ _ Hw Hgap Hpos' Hm) as [_ Hp].
    destruct (Hp p2 _ y2 w2 h2 (list_elem_of_lookup_2 _ _ _ Hj))
      as (c' & y0 & _ & Hx & H0 & _ & Hle & _).
    apply column_x_inj in Hx as <-; [|done].
    rewrite list_lookup_insert_eq in H0 by (by eapply lookup_lt_Some).
    injection H0 as <-. lia.
  - cbn in Hi. apply (IH Hpos' i j p1 x y1 w1 h1 p2 y2 w2 h2); [lia|done..].
Qed.

(** *** Placements and the position map *)

Lemma elem_of_setitem {V} (k : string) (v : V) d e :
  e ∈ setitem k v d → e = (k, v) ∨ e ∈ d.
Proof.
  induction d as [|[k0 v0] d IH]; cbn [setitem].
  - intros ->%list_elem_of_singleton. by left.
  - case_decide; intros [->|Hin]%elem_of_cons.
    + by left.
    + right. by apply list_elem_of_further.
    + right. apply list_elem_of_here.
    + destruct (IH Hin) as [?|?]; [by left|]. right.
      by apply list_elem_of_further.
Qed.

Lemma elem_of_add_placements d placed e :
  e ∈ add_placements d placed → e ∈ d ∨ e ∈ placed.
Proof.
  revert d. induction placed as [|[p pos] placed IH]; intros d.
  - by left.
  - cbn [add_placements foldl fst snd].
    fold (add_placements (setitem p pos d) placed).
    intros Hin. apply IH in Hin as [Hin|Hin].
    + apply elem_of_setitem in Hin as [->|?]; [right; apply list_elem_of_here|].
      by left.
    + right. by apply list_elem_of_further.
Qed.

Lemma keys_add_placements d placed p :
  p ∈ keys (add_placements d placed) ↔ p ∈ keys d ∨ p ∈ placed.*1.
Proof.
  revert d. induction placed as [|[q pos] placed IH]; intros d.
  - cbn. rewrite elem_of_nil. tauto.
  - cbn [add_placements foldl fst snd fmap list_fmap].
    fold (add_placements (setitem q pos d) placed). rewrite IH.
    rewrite CacheFacts.keys_setitem, elem_of_cons.
    case_decide as Hq.
    + split; [tauto|]. intros [?|[->|?]]; tauto.
    + rewrite elem_of_app, list_elem_of_singleton. tauto.
Qed.

Lemma NoDup_keys_add_placements d placed :
  NoDup (keys d) → NoDup (keys (add_placements d placed)).
Proof.
  revert d. induction placed as [|[q pos] placed IH]; intros d Hnd; [done|].
  cbn [add_placements foldl fst snd].
  fold (add_placements (setitem q pos d) placed). apply IH. by apply CacheFacts.NoDup_keys_setitem.
Qed.

Lemma with_ratios_paths pil g :
  (with_ratios pil g).*1 = path <$> filtered_images g.
Proof.
  unfold with_ratios. rewrite <-list_fmap_compose. done.
Qed.

Lemma with_ratios_pos pil g :
  (∀ img, img ∈ filtered_images g → (0 < resolved pil g (path img))%Q) →
  ∀ p a, (p, a) ∈ with_ratios pil g → (0 < a)%Q.
Proof.
  intros Hpos p a [img [[= -> ->] Himg]]%list_elem_of_fmap. by apply Hpos.
Qed.

(** *** Positive ratios *)

Lemma positive_resolved pil g p :
  positive_sizes pil → positive_ratios g → (0 < resolved pil g p)%Q.
Proof.
  intros Hs Hr. rewrite resolved_eq.
  destruct (aspect_cache g !! p) as [r|] eqn:Hp; [by apply (Hr p)|].
  destruct (image_open pil p) as [[w h]|] eqn:Ho; [|done].
  destruct (Hs p w h Ho) as [Hw Hh].
  rewrite decide_False by lia. by apply ratio_pos.
Qed.

Lemma positive_ratios_resolve pil p g :
  positive_sizes pil → positive_ratios g →
  positive_ratios (get_aspect_ratio_fast pil p g).1.
Proof.
  intros Hs Hr q r. rewrite aspect_cache_resolve.
  destruct (aspect_cache g !! p) as [r0|] eqn:Hp; [apply Hr|].
  destruct (image_open pil p) as [[w h]|] eqn:Ho; [|apply Hr].
  destruct (Hs p w h Ho) as [Hw Hh]. rewrite decide_False by lia.
  destruct (decide (q = p)) as [->|Hne].
  - rewrite lookup_insert_eq. intros [= <-]. by apply ratio_pos.
  - rewrite lookup_insert_ne by done. apply Hr.
Qed.

Lemma positive_ratios_place pil col_w gap imgs :
  positive_sizes pil → ∀ heights g,
  positive_ratios g →
  positive_ratios (place_images pil col_w gap imgs heights g).1.
Proof.
  intros Hs. induction imgs as [|img rest IH]; intros heights g Hr; [done|].
  rewrite place_images_unfold.
  pose proof (positive_ratios_resolve pil (path img) g Hs Hr) as Hr1.
  destruct (py_min heights ≫= _) as [c|]; [|done].
  cbv zeta. destruct (Qeq_bool _ _); [done|].
  destruct (heights !! c) as [y|]; [|done].
  apply IH. exact Hr1.
Qed.

(** *** The layout pass *)

Lemma replicate_lookup_gap (n : nat) (gap : Z) (c : nat) y :
  replicate n gap !! c = Some y → y = gap ∧ (c < n)%nat.
Proof. by intros [-> ?]%lookup_replicate. Qed.

(** X6.  The layout pass completes: when the canvas is mapped (wider than
    one pixel), the decoder yields positive sizes only and every memoized
    ratio is positive, [calculate_layout] returns without raising (no
    division by a zero ratio, no failed column lookup), and the ratios
    it memoized are positive again, so that the next pass completes as
    well. *)
Theorem layout_completes (pil : Pillow) (g : ImageGallery) :
  positive_sizes pil → positive_ratios g →
  1 < winfo_width (canvas g) →
  (calculate_layout pil g).2 = Done
  ∧ positive_ratios (calculate_layout pil g).1.
Proof.
  intros Hs Hr Hwide. split.
  - destruct (layout_follows_masonry pil g Hwide) as [_ (? & ? & ? & H & _)];
      [|exact H].
    intros img _. by apply positive_resolved.
  - unfold calculate_layout. rewrite decide_False by lia.
    match goal with |- context [place_images pil ?cw ?gp ?imgs ?hs ?ga] =>
      pose proof (positive_ratios_place pil cw gp imgs Hs hs ga) as Hpl;
      destruct (place_images pil cw gp imgs hs ga) as [g' [heights|]] end;
      cbn [fst] in *; apply Hpl; exact Hr.
Qed.

(** X7.  The layout covers the catalog: after a completed pass the
    position map has exactly the paths of the filtered images as its keys,
    each of them once; when the paths of the catalog are distinct, the keys
    are these paths in catalog order. *)
Theorem layout_covers_catalog (pil : Pillow) (g : ImageGallery) :
  1 < winfo_width (canvas g) →
  (∀ img, img ∈ filtered_images g → (0 < resolved pil g (path img))%Q) →
  let g' := (calculate_layout pil g).1 in
  NoDup (keys (image_positions g'))
  ∧ (∀ p, p ∈ keys (image_positions g') ↔ p ∈ path <$> filtered_images g)
  ∧ (NoDup (path <$> filtered_images g) →
     keys (image_positions g') = path <$> filtered_images g).
Proof.
  intros Hwide Hpos g'.
  destruct (layout_follows_masonry pil g Hwide Hpos)
    as [_ (placed & heights & m & _ & Hm & Hp & _)].
  fold g' in Hp. rewrite Hp.
  destruct (masonry_shape _ _ _ _ _ _ Hm) as [Hk _].
  rewrite with_ratios_paths in Hk.
  split; [apply NoDup_keys_add_placements; constructor|]. split.
  - intros p. rewrite keys_add_placements, Hk. cbn. rewrite elem_of_nil.
    tauto.
  - intros Hnd. rewrite add_placements_fresh by (cbn; by rewrite Hk).
    cbn. exact Hk.
Qed.

Lemma tile_in_column pil g p x y w h :
  1 < winfo_width (canvas g) → 0 <= gap g →
  (∀ img, img ∈ filtered_images g → (0 < resolved pil g (path img))%Q) →
  (p, (x, y, w, h)) ∈ image_positions (calculate_layout pil g).1 →
  ∃ c : nat,
    Z.of_nat c < layout_columns g
    ∧ x = gap g + Z.of_nat c
            * (column_width (winfo_width (canvas g)) (gap g)
                 (layout_columns g) + gap g)
    ∧ w = column_width (winfo_width (canvas g)) (gap g) (layout_columns g).
Proof.
  intros Hwide Hgap Hpos Hin.
  destruct (layout_follows_masonry pil g Hwide Hpos)
    as [Hcols (placed & heights & m & _ & Hm & Hp & _)].
  pose proof (column_width_min (winfo_width (canvas g)) (gap g)
                (layout_columns g)) as H50.
  rewrite Hp in Hin. apply elem_of_add_placements in Hin as [Hin|Hin];
    [by apply elem_of_nil in Hin|].
  assert (0 <= column_width (winfo_width (canvas g)) (gap g)
                 (layout_columns g)) as Hw by lia.
  destruct (masonry_geometry _ _ _ _ _ _ Hw Hgap
              (with_ratios_pos pil g Hpos) Hm) as [_ Hg].
  destruct (Hg p x y w h Hin) as (c & y0 & y1 & -> & H0 & _ & _ & _ & -> & _).
  apply replicate_lookup_gap in H0 as [_ Hc].
  exists c. split; [lia|]. done.
Qed.

(** X8.  Every tile lies within the height of the scroll region: with a
    gap that is not negative, each position that a completed pass stored
    sits in one of the [cols] columns, is as wide as a column (50 at
    least), has a height that is not negative, starts at least a gap below
    the top and ends at least two gaps above the bottom of the scroll
    region.  Nothing is said about the right edge: a column width clamped
    to 50 can place a tile beyond the width of the canvas. *)
Theorem tiles_within_scroll_height (pil : Pillow) (g : ImageGallery)
    (p : string) (x y w h : Z) :
  1 < winfo_width (canvas g) → 0 <= gap g →
  (∀ img, img ∈ filtered_images g → (0 < resolved pil g (path img))%Q) →
  let cols := layout_columns g in
  let col_w := column_width (winfo_width (canvas g)) (gap g) cols in
  let g' := (calculate_layout pil g).1 in
  (p, (x, y, w, h)) ∈ image_positions g' →
  ∃ (c : nat) total,
    Z.of_nat c < cols ∧ x = gap g + Z.of_nat c * (col_w + gap g)
    ∧ w = col_w ∧ 50 <= w ∧ 0 <= h
    ∧ scrollregion (canvas g')
      = Some (0, 0, winfo_width (canvas g), total)
    ∧ gap g <= y ∧ y + h + 2 * gap g <= total.
Proof.
  intros Hwide Hgap Hpos cols col_w g' Hin.
  destruct (layout_follows_masonry pil g Hwide Hpos)
    as [Hcols (placed & heights & m & Hdone & Hm & Hp & Hmh & Hmax & Hlen & Ht)].
  fold cols col_w g' in Hcols, Hm, Hp, Ht.
  pose proof (column_width_min (winfo_width (canvas g)) (gap g) cols) as H50.
  fold col_w in H50.
  rewrite Hp in Hin. apply elem_of_add_placements in Hin as [Hin|Hin];
    [by apply elem_of_nil in Hin|].
  assert (0 <= col_w) as Hw by lia.
  destruct (masonry_geometry _ _ _ _ _ _ Hw Hgap
              (with_ratios_pos pil g Hpos) Hm) as [_ Hg].
  destruct (Hg p x y w h Hin) as (c & y0 & y1 & -> & H0 & H1 & Hle & Hbot & -> & Hh).
  apply replicate_lookup_gap in H0 as [-> Hc].
  pose proof (Hmax y1 (list_elem_of_lookup_2 _ _ _ H1)) as Hy1.
  exists c, (m + gap g).
  split; [lia|]. split; [done|]. split; [done|]. split; [done|].
  split; [done|]. split.
  - unfold total_height in Ht. subst g'. revert Ht Hdone.
    unfold calculate_layout. rewrite decide_False by lia.
    destruct (place_images _ _ _ _ _ _) as [g1 [hs1|]]; [|done].
    cbn. intros [= ->] _. done.
  - lia.
Qed.

(** X9.  Tiles fit the canvas when the column width is not clamped: with a
    gap that is not negative and a computed column width of 50 or more,
    every tile of a completed pass starts at least a gap from the left
    edge and ends at least a gap before the right edge of the canvas. *)
Theorem tiles_fit_canvas_width (pil : Pillow) (g : ImageGallery)
    (p : string) (x y w h : Z) :
  1 < winfo_width (canvas g) → 0 <= gap g →
  (∀ img, img ∈ filtered_images g → (0 < resolved pil g (path img))%Q) →
  50 <= (winfo_width (canvas g) - gap g * (layout_columns g + 1))
          / layout_columns g →
  (p, (x, y, w, h)) ∈ image_positions (calculate_layout pil g).1 →
  gap g <= x ∧ x + w + gap g <= winfo_width (canvas g).
Proof.
  intros Hwide Hgap Hpos Hfit Hin.
  destruct (tile_in_column pil g p x y w h Hwide Hgap Hpos Hin)
    as (c & Hc & -> & ->).
  pose proof (layout_columns_pos g) as Hcols.
  set (cols := layout_columns g) in *. set (cw := winfo_width (canvas g)) in *.
  unfold column_width. rewrite Z.max_r by done.
  set (q := (cw - gap g * (cols + 1)) / cols) in *.
  assert (cols * q <= cw - gap g * (cols + 1)) as Hq
    by (apply Z.mul_div_le; lia).
  split; [nia|]. nia.
Qed.

(** X10.  Tiles of a column do not overlap: with distinct paths and a gap
    that is not negative, of two tiles of a completed pass that have the
    same [x], the one later in the position map starts at least a gap
    below the end of the earlier one. *)
Theorem column_tiles_stacked (pil : Pillow) (g : ImageGallery) :
  1 < winfo_width (canvas g) → 0 <= gap g →
  NoDup (path <$> filtered_images g) →
  (∀ img, img ∈ filtered_images g → (0 < resolved pil g (path img))%Q) →
  stacked (gap g) (image_positions (calculate_layout pil g).1).
Proof.
  intros Hwide Hgap Hnd Hpos.
  destruct (layout_follows_masonry pil g Hwide Hpos)
    as [Hcols (placed & heights & m & _ & Hm & Hp & _)].
  rewrite Hp. destruct (masonry_shape _ _ _ _ _ _ Hm) as [Hk _].
  rewrite with_ratios_paths in Hk.
  rewrite add_placements_fresh by (cbn; by rewrite Hk). cbn.
  pose proof (column_width_min (winfo_width (canvas g)) (gap g)
                (layout_columns g)) as H50.
  eapply masonry_stacked; [| | | |exact Hm];
    [lia | done | lia | by apply with_ratios_pos].
Qed.

(** *** Examples *)

Lemma sample_positive_sizes : positive_sizes sample_pil.
Proof.
  intros p w h. unfold sample_pil. cbn [image_open].
  repeat case_decide; intros [= <- <-]; lia.
Qed.

Lemma sample_positive_ratios : positive_ratios sample_gallery.
Proof. intros p r. cbn. by rewrite lookup_empty. Qed.

Lemma sample_resolved_pos img :
  img ∈ filtered_images sample_gallery →
  (0 < resolved sample_pil sample_gallery (path img))%Q.
Proof.
  intros _. apply positive_resolved;
    [apply sample_positive_sizes | apply sample_positive_ratios].
Qed.

Lemma layout_completes_witness :
  (calculate_layout sample_pil sample_gallery).2 = Done
  ∧ positive_ratios (calculate_layout sample_pil sample_gallery).1.
Proof.
  apply layout_completes;
    [apply sample_positive_sizes | apply sample_positive_ratios | cbn; lia].
Defined.

Lemma layout_covers_catalog_witness :
  keys (image_positions (calculate_layout sample_pil sample_gallery).1)
  = ["wide.png"; "tall.png"; "bad.png"; "d.png"; "e.png"; "f.png"].
Proof.
  destruct (layout_covers_catalog sample_pil sample_gallery)
    as (_ & _ & Hkeys); [cbn; lia | apply sample_resolved_pos|].
  apply Hkeys. cbn. compute_done.
Defined.

Lemma tiles_within_scroll_height_witness :
  ∃ (c : nat) total,
    Z.of_nat c < 4 ∧ 204 = 4 + Z.of_nat c * (196 + 4)
    ∧ 196 = 196 ∧ 50 <= 196 ∧ 0 <= 392
    ∧ scrollregion (canvas (calculate_layout sample_pil sample_gallery).1)
      = Some (0, 0, 804, total)
    ∧ 4 <= 4 ∧ 4 + 392 + 2 * 4 <= total.
Proof.
  apply (tiles_within_scroll_height sample_pil sample_gallery
           "tall.png" 204 4 196 392);
    [cbn; lia | cbn; lia | apply sample_resolved_pos | vm_compute].
  apply list_elem_of_further, list_elem_of_here.
Defined.

Lemma tiles_fit_canvas_width_witness : 4 <= 204 ∧ 204 + 196 + 4 <= 804.
Proof.
  apply (tiles_fit_canvas_width sample_pil sample_gallery
           "tall.png" 204 4 196 392);
    [cbn; lia | cbn; lia | apply sample_resolved_pos | vm_compute; done
    | vm_compute].
  apply list_elem_of_further, list_elem_of_here.
Defined.

Lemma column_tiles_stacked_witness :
  stacked 4 (image_positions (calculate_layout sample_pil sample_gallery).1).
Proof.
  apply (column_tiles_stacked sample_pil sample_gallery);
    [cbn; lia | cbn; lia | cbn; compute_done | apply sample_resolved_pos].
Defined.

End GeometryFacts.

(** ** The render pass as a whole *)

Module PassFacts.
Import OrderedDict FastImageCache Recency CacheFacts CacheLaws NumberFacts
  RenderFacts.

Lemma render_frame_refl g : render_frame g g.
Proof. by repeat split. Qed.

Lemma render_frame_trans g1 g2 g3 :
  render_frame g1 g2 → render_frame g2 g3 → render_frame g1 g3.
Proof.
  intros (?&?&?&?&?&?&?&?&?&?&?) (?&?&?&?&?&?&?&?&?&?&?).
  unfold render_frame. repeat split; congruence.
Qed.

(** What one turn of the loop does to the gallery. *)
Lemma render_entry_step vt vb g e :
  let g1 := render_entry vt vb g e in
  render_frame g g1
  ∧ (wf (thumb_cache g) → wf (thumb_cache g1) ∧ same_thumbs g g1)
  ∧ items (canvas g) `prefix_of` items (canvas g1)
  ∧ thumb_queue g `prefix_of` thumb_queue g1
  ∧ ((length (thumb_queue g) ≤ thumb_queue_maxsize)%nat →
     (length (thumb_queue g1) ≤ thumb_queue_maxsize)%nat)
  ∧ ((thumb_queue_maxsize ≤ length (thumb_queue g))%nat →
     thumb_queue g1 = thumb_queue g).
Proof.
  destruct e as [p [[[x y] w] h]]. cbv zeta. cbn [render_entry].
  destruct (_ || _).
  { split; [apply render_frame_refl|]. split; [done|]. done. }
  unfold get_thumbnail.
  pose proof (λ H, wf_get (thumb_key p w) (thumb_cache g) H) as Hwf.
  pose proof (λ H k, getitem_get (thumb_key p w) k (thumb_cache g) H) as Hget.
  destruct (get (thumb_key p w) (thumb_cache g)) as [tc [photo|]];
    cbn [fst] in Hwf, Hget.
  - cbn. split; [by repeat split|].
    split; [intros Hw; split; [by apply Hwf|]; intros k; apply Hget, Hw|].
    split; [by apply prefix_app_r|]. done.
  - unfold queue_thumbnail.
    cbn [thumb_queue set_canvas set_thumb_cache].
    case_decide as Hfull; cbn.
    + split; [by repeat split|].
      split; [intros Hw; split; [by apply Hwf|]; intros k; apply Hget, Hw|].
      split; [by apply prefix_app_r|]. split; [by apply prefix_app_r|].
      rewrite length_app. cbn. unfold thumb_queue_maxsize in *. lia.
    + split; [by repeat split|].
      split; [intros Hw; split; [by apply Hwf|]; intros k; apply Hget, Hw|].
      split; [by apply prefix_app_r|]. done.
Qed.

Lemma render_entries_step vt vb l : ∀ g,
  let g' := foldl (render_entry vt vb) g l in
  render_frame g g'
  ∧ (wf (thumb_cache g) → wf (thumb_cache g') ∧ same_thumbs g g')
  ∧ items (canvas g) `prefix_of` items (canvas g')
  ∧ thumb_queue g `prefix_of` thumb_queue g'
  ∧ ((length (thumb_queue g) ≤ thumb_queue_maxsize)%nat →
     (length (thumb_queue g') ≤ thumb_queue_maxsize)%nat)
  ∧ ((thumb_queue_maxsize ≤ length (thumb_queue g))%nat →
     thumb_queue g' = thumb_queue g).
Proof.
  induction l as [|e l IH]; intros g; cbn [foldl]; cbv zeta.
  { split; [apply render_frame_refl|]. split; [done|]. done. }
  destruct (render_entry_step vt vb g e) as (F1 & W1 & I1 & Q1 & B1 & U1).
  destruct (IH (render_entry vt vb g e)) as (F2 & W2 & I2 & Q2 & B2 & U2).
  split; [by eapply render_frame_trans|]. split; [|split; [|split; [|split]]].
  - intros Hw. destruct (W1 Hw) as [Hw1 S1]. destruct (W2 Hw1) as [Hw2 S2].
    split; [done|]. intros k. by rewrite S2, S1.
  - by etrans.
  - by etrans.
  - auto.
  - intros Hfull. rewrite U2; rewrite U1; done.
Qed.

(** An entry that reaches into the window is drawn in its turn. *)
Lemma render_entry_draws vt vb g p x y w h :
  wf (thumb_cache g) → ¬ outside (vt, vb) (x, y, w, h) →
  let g1 := render_entry vt vb g (p, (x, y, w, h)) in
  match getitem (thumb_key p w) (cache (thumb_cache g)) with
  | Some photo =>
      ThumbImage x y photo ∈ items (canvas g1)
      ∧ (∀ img, image_of_path p g = Some img → selected img = true →
           Highlight (x - 2) (y - 2) (x + w + 2) (y + h + 2)
             ∈ items (canvas g1))
  | None => Placeholder x y (x + w) (y + h) ∈ items (canvas g1)
  end.
Proof.
  intros [Hnd _]. cbn [outside fst snd]. intros Hin. cbv zeta.
  cbn [render_entry].
  assert (Qltb (inject_Z (y + h)) vt = false) as ->.
  { apply Qltb_false. apply Qnot_lt_le. tauto. }
  assert (Qltb vb (inject_Z y) = false) as ->.
  { apply Qltb_false. apply Qnot_lt_le. tauto. }
  cbn [orb]. unfold get_thumbnail.
  pose proof (get_lookup (thumb_key p w) (thumb_cache g) Hnd) as Hl.
  destruct (get (thumb_key p w) (thumb_cache g)) as [tc r]. cbn [snd] in Hl.
  subst r. destruct (getitem _ _) as [photo|].
  - cbn. split.
    + rewrite !elem_of_app. right. right. apply list_elem_of_here.
    + intros img Himg Hsel. unfold image_of_path in Himg.
      rewrite Himg, Hsel. rewrite !elem_of_app. right. left.
      apply list_elem_of_here.
  - unfold queue_thumbnail. cbn [thumb_queue set_canvas set_thumb_cache].
    case_decide; cbn; rewrite elem_of_app; right; apply list_elem_of_here.
Qed.

Lemma render_entries_complete vt vb l : ∀ g p x y w h,
  wf (thumb_cache g) →
  (p, (x, y, w, h)) ∈ l → ¬ outside (vt, vb) (x, y, w, h) →
  let g' := foldl (render_entry vt vb) g l in
  match getitem (thumb_key p w) (cache (thumb_cache g)) with
  | Some photo =>
      ThumbImage x y photo ∈ items (canvas g')
      ∧ (∀ img, image_of_path p g = Some img → selected img = true →
           Highlight (x - 2) (y - 2) (x + w + 2) (y + h + 2)
             ∈ items (canvas g'))
  | None => Placeholder x y (x + w) (y + h) ∈ items (canvas g')
  end.
Proof.
  induction l as [|e l IH]; intros g p x y w h Hwf Hin Hout;
    [by apply elem_of_nil in Hin|].
  cbn [foldl]. cbv zeta.
  destruct (render_entry_step vt vb g e) as (F1 & W1 & _).
  destruct (W1 Hwf) as [Hwf1 S1].
  apply elem_of_cons in Hin as [<-|Hin].
  - pose proof (render_entry_draws vt vb g p x y w h Hwf Hout) as Hd.
    cbv zeta in Hd.
    destruct (render_entries_step vt vb l
                (render_entry vt vb g (p, (x, y, w, h))))
      as (_ & _ & Hpre & _).
    destruct (getitem _ _) as [photo|].
    + destruct Hd as [Ht Hh]. split.
      * eapply elem_of_prefix; done.
      * intros img Himg Hsel. eapply elem_of_prefix; [|done].
        by apply (Hh img).
    + eapply elem_of_prefix; done.
  - pose proof (IH (render_entry vt vb g e) p x y w h Hwf1 Hin Hout) as Hd.
    cbv zeta in Hd. rewrite S1 in Hd.
    destruct (getitem _ _) as [photo|]; [|done].
    destruct Hd as [Ht Hh]. split; [done|]. intros img Himg Hsel.
    apply (Hh img); [|done].
    unfold image_of_path in *. destruct F1 as [-> _]. done.
Qed.

Lemma update_visible_thumbs_eq g :
  update_visible_thumbs g
  = foldl (render_entry (visible_window g).1 (visible_window g).2)
      (set_canvas (set_items [] (canvas g)) g) (image_positions g).
Proof.
  unfold update_visible_thumbs. by destruct (visible_window g).
Qed.

Lemma visible_window_frame g g' :
  render_frame g g' → visible_window g' = visible_window g.
Proof.
  intros (_&_&_&_&_&_&_&_&Hh&Hy&Hs). unfold visible_window.
  by rewrite Hh, Hy, Hs.
Qed.

(** X11.  A render pass draws nothing outside its window and keeps nothing
    of the previous picture: every item on the canvas after
    [update_visible_thumbs] is the thumbnail, the selection border or the
    placeholder of an entry of [image_positions] that reaches into the
    window computed by the pass, and every task that the pass adds to the
    queue asks for the thumbnail of such an entry at the entry's width. *)
Theorem render_pass_sound (g : ImageGallery) :
  let g' := update_visible_thumbs g in
  (∀ it, it ∈ items (canvas g') →
     ∃ p pos, (p, pos) ∈ image_positions g
              ∧ ¬ outside (visible_window g) pos ∧ item_at pos it)
  ∧ (∀ t, t ∈ thumb_queue g' →
     t ∈ thumb_queue g
     ∨ ∃ p pos priority,
         (p, pos) ∈ image_positions g
         ∧ ¬ outside (visible_window g) pos
         ∧ t = (p, pos.1.2, priority)).
Proof.
  cbv zeta. rewrite update_visible_thumbs_eq.
  destruct (render_entries_sound (visible_window g).1 (visible_window g).2
              (image_positions g) (set_canvas (set_items [] (canvas g)) g))
    as [Hi Hq].
  replace ((visible_window g).1, (visible_window g).2)
    with (visible_window g) in * by by destruct (visible_window g).
  split; [|exact Hq].
  intros it Hit. destruct (Hi it Hit) as [Hold|?]; [|done].
  by apply elem_of_nil in Hold.
Qed.

(** X12.  A render pass draws every entry that reaches into its window:
    when the thumbnail cache has distinct keys, each such entry of
    [image_positions] gets, at its position, its cached thumbnail (with
    the selection border when the image of this path is selected), or,
    when the cache has no thumbnail of this path and width, a
    placeholder of the size of the entry. *)
Theorem render_pass_complete (g : ImageGallery) (p : string)
    (x y w h : Z) :
  wf (thumb_cache g) →
  (p, (x, y, w, h)) ∈ image_positions g →
  ¬ outside (visible_window g) (x, y, w, h) →
  let g' := update_visible_thumbs g in
  match getitem (thumb_key p w) (cache (thumb_cache g)) with
  | Some photo =>
      ThumbImage x y photo ∈ items (canvas g')
      ∧ (∀ img, image_of_path p g = Some img → selected img = true →
           Highlight (x - 2) (y - 2) (x + w + 2) (y + h + 2)
             ∈ items (canvas g'))
  | None => Placeholder x y (x + w) (y + h) ∈ items (canvas g')
  end.
Proof.
  intros Hwf Hin Hout. cbv zeta. rewrite update_visible_thumbs_eq.
  apply (render_entries_complete (visible_window g).1 (visible_window g).2
           (image_positions g) (set_canvas (set_items [] (canvas g)) g)
           p x y w h Hwf Hin).
  by destruct (visible_window g).
Qed.

(** X13.  A render pass respects the capacity of the task queue: it only
    appends to the queue, a queue within its capacity of 100 stays within
    it, and a full queue is left as it is (the tasks are dropped while the
    placeholders are drawn all the same). *)
Theorem render_pass_queue (g : ImageGallery) :
  let g' := update_visible_thumbs g in
  thumb_queue g `prefix_of` thumb_queue g'
  ∧ ((length (thumb_queue g) ≤ thumb_queue_maxsize)%nat →
     (length (thumb_queue g') ≤ thumb_queue_maxsize)%nat)
  ∧ ((thumb_queue_maxsize ≤ length (thumb_queue g))%nat →
     thumb_queue g' = thumb_queue g).
Proof.
  cbv zeta. rewrite update_visible_thumbs_eq.
  destruct (render_entries_step (visible_window g).1 (visible_window g).2
              (image_positions g) (set_canvas (set_items [] (canvas g)) g))
    as (_ & _ & _ & Hq & Hb & Hu).
  done.
Qed.

Lemma render_pass_frame_aux g :
  render_frame g (update_visible_thumbs g)
  ∧ visible_window (update_visible_thumbs g) = visible_window g
  ∧ (wf (thumb_cache g) →
     wf (thumb_cache (update_visible_thumbs g))
     ∧ same_thumbs g (update_visible_thumbs g)).
Proof.
  rewrite update_visible_thumbs_eq.
  destruct (render_entries_step (visible_window g).1 (visible_window g).2
              (image_positions g) (set_canvas (set_items [] (canvas g)) g))
    as (Hf & Hw & _).
  assert (render_frame g (set_canvas (set_items [] (canvas g)) g)) as H0
    by by repeat split.
  pose proof (render_frame_trans _ _ _ H0 Hf) as Hf'.
  split; [done|]. split; [by apply visible_window_frame|]. exact Hw.
Qed.

(** X14.  A render pass changes the canvas items, the recency order of the
    thumbnail cache and the task queue, and nothing else: the layout, the
    catalog, the scroll position and the other caches are as before, and
    so is the window of the next pass; a thumbnail cache with distinct
    keys holds the same bitmaps under the same keys afterwards. *)
Theorem render_pass_frame (g : ImageGallery) :
  let g' := update_visible_thumbs g in
  render_frame g g'
  ∧ visible_window g' = visible_window g
  ∧ (wf (thumb_cache g) → wf (thumb_cache g') ∧ same_thumbs g g').
Proof. apply render_pass_frame_aux. Qed.

(** Two galleries that agree on the catalog, the bitmaps of the thumbnail
    cache and the canvas items draw the same items in a turn. *)
Lemma render_entry_items vt vb g1 g2 e :
  wf (thumb_cache g1) → wf (thumb_cache g2) →
  same_thumbs g1 g2 → filtered_images g2 = filtered_images g1 →
  items (canvas g2) = items (canvas g1) →
  items (canvas (render_entry vt vb g2 e))
  = items (canvas (render_entry vt vb g1 e)).
Proof.
  intros [Hnd1 _] [Hnd2 _] Hsame Hf Hi.
  destruct e as [p [[[x y] w] h]]. cbn [render_entry].
  destruct (_ || _); [done|]. unfold get_thumbnail.
  pose proof (get_lookup (thumb_key p w) (thumb_cache g1) Hnd1) as Hl1.
  pose proof (get_lookup (thumb_key p w) (thumb_cache g2) Hnd2) as Hl2.
  rewrite Hsame, <-Hl1 in Hl2.
  destruct (get (thumb_key p w) (thumb_cache g1)) as [tc1 r1].
  destruct (get (thumb_key p w) (thumb_cache g2)) as [tc2 r2].
  cbn [snd] in Hl2. subst r2. destruct r1 as [photo|].
  - cbn. by rewrite Hf, Hi.
  - unfold queue_thumbnail. cbn [thumb_queue set_canvas set_thumb_cache].
    repeat case_decide; cbn; by rewrite Hi.
Qed.

Lemma render_entries_items vt vb l : ∀ g1 g2,
  wf (thumb_cache g1) → wf (thumb_cache g2) →
  same_thumbs g1 g2 → filtered_images g2 = filtered_images g1 →
  items (canvas g2) = items (canvas g1) →
  items (canvas (foldl (render_entry vt vb) g2 l))
  = items (canvas (foldl (render_entry vt vb) g1 l)).
Proof.
  induction l as [|e l IH]; intros g1 g2 Hw1 Hw2 Hsame Hf Hi; [done|].
  cbn [foldl].
  destruct (render_entry_step vt vb g1 e) as (F1 & W1 & _).
  destruct (render_entry_step vt vb g2 e) as (F2 & W2 & _).
  destruct (W1 Hw1) as [Hw1' S1]. destruct (W2 Hw2) as [Hw2' S2].
  apply IH; [done | done | | |].
  - intros k. by rewrite S2, Hsame, S1.
  - destruct F1 as [-> _], F2 as [-> _]. done.
  - by apply render_entry_items.
Qed.

(** X15.  Rendering again draws the same picture: when the thumbnail cache
    has distinct keys, a second [update_visible_thumbs] right after a
    first one leaves the same items on the canvas, in the same order. *)
Theorem render_pass_idempotent (g : ImageGallery) :
  wf (thumb_cache g) →
  items (canvas (update_visible_thumbs (update_visible_thumbs g)))
  = items (canvas (update_visible_thumbs g)).
Proof.
  intros Hwf.
  destruct (render_pass_frame_aux g) as (Hf & Hv & Hw).
  destruct (Hw Hwf) as [Hwf' Hsame].
  set (g' := update_visible_thumbs g) in *.
  rewrite (update_visible_thumbs_eq g'), Hv.
  destruct Hf as (Hfi & Hpos & _). rewrite Hpos.
  unfold g' at 2. rewrite (update_visible_thumbs_eq g).
  apply render_entries_items; done.
Qed.

(** *** Examples *)

Lemma sample_laid_out_wf : wf (thumb_cache sample_laid_out).
Proof. split; [vm_compute; compute_done | vm_compute; lia]. Qed.

Lemma render_pass_complete_witness :
  ThumbImage 204 4 (mkBitmap "tall.png" 196 392 (Some LANCZOS))
    ∈ items (canvas (update_visible_thumbs sample_laid_out)).
Proof.
  pose proof (render_pass_complete sample_laid_out "tall.png" 204 4 196 392)
    as H.
  assert (getitem (thumb_key "tall.png" 196)
            (cache (thumb_cache sample_laid_out))
          = Some (mkBitmap "tall.png" 196 392 (Some LANCZOS))) as Hget
    by (vm_compute; reflexivity).
  cbv zeta in H. rewrite Hget in H. apply H.
  - apply sample_laid_out_wf.
  - vm_compute. apply list_elem_of_further, list_elem_of_here.
  - vm_compute. intros [H1|H1]; discriminate H1.
Defined.

Lemma render_pass_idempotent_witness :
  items (canvas (update_visible_thumbs
                   (update_visible_thumbs sample_laid_out)))
  = items (canvas (update_visible_thumbs sample_laid_out)).
Proof. apply render_pass_idempotent, sample_laid_out_wf. Defined.

End PassFacts.

(** ** The single view and the image cache *)

Module SingleViewFacts.
Import OrderedDict FastImageCache Recency CacheFacts CacheLaws FloatFacts
  NumberFacts.

Lemma py_int_le (q : Q) (n : Z) :
  0 <= n → (q < inject_Z n + 1)%Q → py_int q <= n.
Proof.
  intros Hn Hq. destruct (Qlt_le_dec q 0) as [Hneg|Hpos].
  - destruct q as [a d]. unfold py_int, Qlt in *. cbn in *.
    assert (0 <= (- a) ÷ Z.pos d) by (apply Z.quot_pos; lia).
    rewrite Z.quot_opp_l in * by lia. lia.
  - rewrite py_int_floor by done.
    assert (Qfloor q < n + 1); [|lia].
    rewrite Zlt_Qlt, inject_Z_plus.
    eapply Qle_lt_trans; [apply Qfloor_le | exact Hq].
Qed.

Lemma scaled_side_le (side c : Z) (m z : Q) :
  0 < side → 0 < c < 2 ^ 50 →
  (0 <= m)%Q → (m <= int_truediv c side)%Q → (z <= 1)%Q →
  py_int (fmul (float_of_int side) (fmul m z)) <= c.
Proof.
  intros Hs [Hc0 Hc] Hm Hle Hz. apply py_int_le; [lia|].
  assert (0 < inject_Z side)%Q as Ht.
  { change 0%Q with (inject_Z 0). by rewrite <-Zlt_Qlt. }
  assert (0 < inject_Z c)%Q as Hc'.
  { change 0%Q with (inject_Z 0). by rewrite <-Zlt_Qlt. }
  assert (inject_Z c < 1125899906842624)%Q as Hc''.
  { change 1125899906842624%Q with (inject_Z (2 ^ 50)). by rewrite <-Zlt_Qlt. }
  pose proof (round64_pos _ Ht) as HT0.
  pose proof (round64_upper (inject_Z side) ltac:(lra)) as HT.
  fold (float_of_int side) in HT0, HT. set (T := float_of_int side) in *.
  assert (0 < ulp_bound)%Q as Hk by (by vm_compute).
  assert (1 <= ulp_bound)%Q as Hk1 by (by vm_compute).
  unfold fmul at 1.
  destruct (Qlt_le_dec 0 (m * z)) as [Hpos|Hneg].
  2:{ pose proof (round64_nonpos _ Hneg) as HS. fold (fmul m z) in HS.
      assert (round64 (T * fmul m z) <= 0)%Q; [|lra].
      apply round64_nonpos.
      pose proof (Qmult_le_0_compat T (- fmul m z) ltac:(lra) ltac:(lra)).
      lra. }
  pose proof (round64_pos _ Hpos) as HS0.
  pose proof (round64_upper (m * z) ltac:(lra)) as HS.
  fold (fmul m z) in HS0, HS. set (S := fmul m z) in *.
  assert (0 < z)%Q as Hz0.
  { destruct (Qlt_le_dec 0 z); [done|].
    pose proof (Qmult_le_0_compat m (- z) Hm ltac:(lra)). lra. }
  assert (0 <= inject_Z c / inject_Z side)%Q as Hq0.
  { apply Qle_shift_div_l; [done | lra]. }
  pose proof (round64_upper _ Hq0) as HD. fold (int_truediv c side) in HD.
  set (D := int_truediv c side) in *. set (k := ulp_bound) in *.
  set (x := (inject_Z c / inject_Z side)%Q) in *.
  assert (S <= x * k * k)%Q as HS'.
  { eapply Qle_trans; [exact HS|]. apply Qmult_le_compat_r; [|lra].
    eapply Qle_trans; [|exact HD]. eapply Qle_trans; [|exact Hle].
    pose proof (Qmult_le_0_compat m (1 - z) Hm ltac:(lra)). lra. }
  assert (0 <= x * k * k)%Q as Hxkk by lra.
  assert (T * S <= inject_Z side * k * (x * k * k))%Q as HTS.
  { apply Qmult_le_compat_nonneg; split; lra. }
  assert (0 <= T * S)%Q as HTS0.
  { apply Qmult_le_0_compat; lra. }
  pose proof (round64_upper _ HTS0) as HP. fold k in HP.
  eapply Qle_lt_trans; [exact HP|].
  assert (T * S * k <= inject_Z side * k * (x * k * k) * k)%Q as H4.
  { apply Qmult_le_compat_r; [done | lra]. }
  eapply Qle_lt_trans; [exact H4|].
  assert (inject_Z side * k * (x * k * k) * k
          == inject_Z c * (k * k * k * k))%Q as ->.
  { unfold x. field. lra. }
  assert (k * k * k * k <= 1 + (5 # 9007199254740992))%Q as Hk4 by (by vm_compute).
  eapply Qle_lt_trans;
    [apply Qmult_le_l; [exact Hc' | exact Hk4]|].
  lra.
Qed.

Lemma get_image_canvas pil p cv g :
  get_image pil p (set_canvas cv g)
  = (set_canvas cv (get_image pil p g).1, (get_image pil p g).2).
Proof.
  unfold get_image, open_image. cbn [img_cache set_canvas].
  destruct (get p (img_cache g)) as [ic [bm|]]; [done|].
  cbn. by destruct (image_open pil p) as [[w h]|].
Qed.

Lemma get_image_view pil p g :
  pan_x (get_image pil p g).1 = pan_x g
  ∧ pan_y (get_image pil p g).1 = pan_y g
  ∧ zoom_level (get_image pil p g).1 = zoom_level g
  ∧ canvas (get_image pil p g).1 = canvas g.
Proof.
  unfold get_image, open_image.
  destruct (get p (img_cache g)) as [ic [bm|]]; [done|].
  cbn. by destruct (image_open pil p) as [[w h]|].
Qed.

(** X16.  The single view shows one picture that fits the canvas: when
    the current image is delivered with a positive size, the zoom level is
    at most 1 and the canvas is less than 2^50 pixels wide and high,
    [display_current_image] computes the size
    [max(1, int(iw * scale)) × max(1, int(ih * scale))] with
    [scale = min(cw / iw, ch / ih) * zoom_level] in floats, and this size
    lies between 1×1 and the size of the canvas (100×100 at least).  When
    the resampling to this size succeeds, the canvas holds exactly one
    item, the picture of the current path resampled with LANCZOS to this
    size, centred at the centre of the canvas moved by the pan offset;
    when it fails, the canvas is left empty.  In both cases the scroll
    region is reset and the size is recorded in [last_size]. *)
Theorem display_fits_canvas (pil : Pillow) (g : ImageGallery)
    (img : ImageData) (bm : Bitmap) :
  current_index g < Z.of_nat (length (filtered_images g)) →
  py_getitem (filtered_images g) (current_index g) = Some img →
  (get_image pil (path img) g).2 = Some bm →
  0 < bm_width bm → 0 < bm_height bm →
  (zoom_level g <= 1)%Q →
  let cw := Z.max (winfo_width (canvas g)) 100 in
  let ch := Z.max (winfo_height (canvas g)) 100 in
  cw < 2 ^ 50 → ch < 2 ^ 50 →
  let scale :=
    fmul (py_min2 (int_truediv cw (bm_width bm))
            (int_truediv ch (bm_height bm))) (zoom_level g) in
  let new_w := Z.max 1 (py_int (fmul (float_of_int (bm_width bm)) scale)) in
  let new_h := Z.max 1 (py_int (fmul (float_of_int (bm_height bm)) scale)) in
  let g' := display_current_image pil g in
  items (canvas g')
  = (if resize_ok pil (path img) new_w new_h
     then [FullImage (cw / 2 + pan_x g) (ch / 2 + pan_y g)
             (mkBitmap (path img) new_w new_h (Some LANCZOS))]
     else [])
  ∧ 1 <= new_w <= cw ∧ 1 <= new_h <= ch
  ∧ last_size g' = Some (new_w, new_h, path img)
  ∧ scrollregion (canvas g') = Some (0, 0, 0, 0).
Proof.
  intros Hidx Himg Hget Hw Hh Hz cw ch Hcw50 Hch50 scale new_w new_h g'.
  assert (0 < cw ∧ 0 < ch) as [Hcw Hch] by (unfold cw, ch; lia).
  set (m := py_min2 (int_truediv cw (bm_width bm))
              (int_truediv ch (bm_height bm))) in *.
  assert (0 <= m ∧ m <= int_truediv cw (bm_width bm)
          ∧ m <= int_truediv ch (bm_height bm))%Q as (Hm0 & Hm1 & Hm2).
  { pose proof (ratio_pos cw _ Hcw Hw). pose proof (ratio_pos ch _ Hch Hh).
    subst m. destruct (py_min2_spec (int_truediv cw (bm_width bm))
                (int_truediv ch (bm_height bm))) as [[? ->]|[? ->]];
      repeat split; lra. }
  assert (1 <= new_w <= cw ∧ 1 <= new_h <= ch) as Hfit.
  { pose proof (scaled_side_le (bm_width bm) cw m (zoom_level g)
                  Hw ltac:(lia) Hm0 Hm1 Hz).
    pose proof (scaled_side_le (bm_height bm) ch m (zoom_level g)
                  Hh ltac:(lia) Hm0 Hm2 Hz).
    unfold new_w, new_h, scale. lia. }
  assert (items (canvas g')
          = (if resize_ok pil (path img) new_w new_h
             then [FullImage (cw / 2 + pan_x g) (ch / 2 + pan_y g)
                     (mkBitmap (path img) new_w new_h (Some LANCZOS))]
             else [])
          ∧ last_size g' = Some (new_w, new_h, path img)
          ∧ scrollregion (canvas g') = Some (0, 0, 0, 0)) as (Hi & Hl & Hs);
    [|by repeat split; try apply Hfit].
  subst g'. unfold display_current_image.
  assert (is_empty (filtered_images g) = false) as ->.
  { destruct (filtered_images g); [|done]. cbn in Hidx.
    unfold py_getitem in Himg. repeat case_decide; done. }
  rewrite bool_decide_false by lia. cbn [orb]. rewrite Himg.
  rewrite get_image_canvas.
  destruct (get_image_view pil (path img) g) as (Hpx & Hpy & Hzl & Hcv).
  destruct (get_image pil (path img) g) as [g1 r]. cbn [fst snd] in *.
  subst r. cbn [canvas set_canvas winfo_width winfo_height set_items
    set_scrollregion zoom_level]. rewrite ?Hcv. fold cw ch.
  rewrite decide_False by lia. rewrite Hzl. fold m scale new_w new_h.
  destruct (resize_ok pil (path img) new_w new_h).
  - match goal with |- context [preload_adjacent pil ?g0] =>
      destruct (PreloadFacts.preload_adjacent_frame pil g0) as (ic & op & ->)
    end.
    cbn. by rewrite Hpx, Hpy.
  - done.
Qed.

(** What a call of [get_image] does, by the state of the cache. *)
Lemma get_image_cases pil p g :
  wf (img_cache g) → (0 < max_size (img_cache g))%nat →
  let r := get_image pil p g in
  wf (img_cache r.1) ∧ max_size (img_cache r.1) = max_size (img_cache g)
  ∧ match getitem p (cache (img_cache g)) with
    | Some bm =>
        r.2 = Some bm ∧ opened r.1 = opened g
        ∧ getitem p (cache (img_cache r.1)) = Some bm
    | None =>
        opened r.1 = opened g ++ [p]
        ∧ match image_open pil p with
          | Some (w, h) =>
              r.2 = Some (mkBitmap p w h None)
              ∧ getitem p (cache (img_cache r.1))
                = Some (mkBitmap p w h None)
          | None => r.2 = None ∧ img_cache r.1 = img_cache g
          end
    end.
Proof.
  intros Hwf Hpos. cbv zeta. unfold get_image, open_image.
  pose proof (get_lookup p (img_cache g) (proj1 Hwf)) as Hl.
  pose proof (getitem_get p p (img_cache g) (proj1 Hwf)) as Hg.
  pose proof (wf_get p (img_cache g) Hwf) as Hwf1.
  assert (max_size (get p (img_cache g)).1 = max_size (img_cache g)) as Hms.
  { unfold get, contains. by case_bool_decide. }
  assert (getitem p (cache (img_cache g)) = None →
          (get p (img_cache g)).1 = img_cache g) as Hmiss.
  { intros Hn. unfold get, contains. rewrite bool_decide_false; [done|].
    by apply getitem_None. }
  destruct (get p (img_cache g)) as [ic r]. cbn [fst snd] in *. subst r.
  destruct (getitem p (cache (img_cache g))) as [bm|] eqn:Hc.
  - cbn. done.
  - specialize (Hmiss eq_refl). subst ic. cbn.
    destruct (image_open pil p) as [[w h]|]; cbn.
    + split; [by apply wf_put|]. split; [unfold put; by case_bool_decide|].
      split; [done|]. split; [done|]. by apply getitem_put_same.
    + done.
Qed.

(** X17.  A picture is decoded once while it stays cached: with an image
    cache of distinct keys and positive capacity, a call of [get_image]
    that returns a picture is followed by a call that returns the same
    picture without opening the file; a call on a path that is not cached
    opens the file once, and when the file does not decode it returns
    [None] and caches nothing, so that the next call tries again. *)
Theorem get_image_memoizes (pil : Pillow) (p : string) (g : ImageGallery) :
  wf (img_cache g) → (0 < max_size (img_cache g))%nat →
  let r := get_image pil p g in
  let r' := get_image pil p r.1 in
  (∀ bm, r.2 = Some bm → r'.2 = Some bm ∧ opened r'.1 = opened r.1)
  ∧ (¬ holds p (img_cache g) → opened r.1 = opened g ++ [p])
  ∧ (holds p (img_cache g) → opened r.1 = opened g ∧ is_Some r.2)
  ∧ (r.2 = None →
     image_open pil p = None ∧ img_cache r.1 = img_cache g
     ∧ opened r'.1 = opened g ++ [p; p]).
Proof.
  intros Hwf Hpos r r'.
  destruct (get_image_cases pil p g Hwf Hpos) as (Hwf1 & Hms & Hc).
  fold r in Hwf1, Hms, Hc.
  destruct (get_image_cases pil p r.1 Hwf1 ltac:(lia)) as (_ & _ & Hc').
  fold r' in Hc'.
  unfold holds. rewrite <-!getitem_Some_iff.
  destruct (getitem p (cache (img_cache g))) as [bm0|] eqn:Hg0.
  - destruct Hc as (Hr & Ho & Hg1). rewrite Hg1 in Hc'.
    destruct Hc' as (Hr' & Ho' & _).
    split; [intros bm Hbm; split; congruence|].
    split; [intros []; eauto|]. split; [by rewrite Hr|].
    intros Hn. congruence.
  - destruct Hc as (Ho & Hc).
    destruct (image_open pil p) as [[w h]|] eqn:Hopen.
    + destruct Hc as (Hr & Hg1). rewrite Hg1 in Hc'.
      destruct Hc' as (Hr' & Ho' & _).
      split; [intros bm Hbm; split; congruence|].
      split; [done|]. split; [by intros [? [=]]|]. intros Hn. congruence.
    + destruct Hc as (Hr & Hic). rewrite Hic, Hg0 in Hc'.
      destruct Hc' as (Ho' & _).
      split; [intros bm Hbm; congruence|].
      split; [done|]. split; [by intros [? [=]]|]. intros _.
      split; [done|]. split; [done|]. rewrite Ho', Ho, <-app_assoc. done.
Qed.

(** X18.  Preloading warms the image cache: after [_preload_single] on a
    path that is cached or whose file decodes, [get_image] returns a
    picture of this path without opening the file; on a path that is not
    cached and does not decode, preloading leaves the image cache as it
    was. *)
Theorem preload_warms_cache (pil : Pillow) (p : string)
    (g : ImageGallery) :
  wf (img_cache g) → (0 < max_size (img_cache g))%nat →
  let g1 := preload_single pil p g in
  ((holds p (img_cache g) ∨ is_Some (image_open pil p)) →
   is_Some (get_image pil p g1).2
   ∧ opened (get_image pil p g1).1 = opened g1)
  ∧ (¬ holds p (img_cache g) → image_open pil p = None →
     img_cache g1 = img_cache g).
Proof.
  intros Hwf Hpos g1.
  assert (g1 = (get_image pil p g).1) as ->.
  { unfold g1, preload_single, get_image, open_image.
    destruct (get p (img_cache g)) as [ic [bm|]]; [done|].
    cbn. by destruct (image_open pil p) as [[w h]|]. }
  destruct (get_image_cases pil p g Hwf Hpos) as (Hwf1 & Hms & Hc).
  destruct (get_image_cases pil p (get_image pil p g).1 Hwf1 ltac:(lia))
    as (_ & _ & Hc').
  unfold holds. rewrite <-!getitem_Some_iff.
  destruct (getitem p (cache (img_cache g))) as [bm0|] eqn:Hg0.
  - destruct Hc as (Hr & Ho & Hg1). rewrite Hg1 in Hc'.
    destruct Hc' as (Hr' & Ho' & _).
    split; [intros _; by rewrite Hr'|]. intros []. eauto.
  - destruct Hc as (Ho & Hc).
    destruct (image_open pil p) as [[w h]|] eqn:Hopen.
    + destruct Hc as (Hr & Hg1). rewrite Hg1 in Hc'.
      destruct Hc' as (Hr' & Ho' & _).
      split; [intros _; by rewrite Hr'|]. done.
    + destruct Hc as (Hr & Hic).
      split; [|done]. intros [[? [=]]|[? [=]]].
Qed.

(** *** Examples *)

Lemma display_fits_canvas_witness :
  let g' := display_current_image sample_pil sample_gallery in
  items (canvas g')
  = [FullImage 402 300 (mkBitmap "wide.png" 803 401 (Some LANCZOS))]
  ∧ 1 <= 803 <= 804 ∧ 1 <= 401 <= 600
  ∧ last_size g' = Some (803, 401, "wide.png")
  ∧ scrollregion (canvas g') = Some (0, 0, 0, 0).
Proof.
  apply (display_fits_canvas sample_pil sample_gallery
           (mkImageData "wide.png" "wide" false)
           (mkBitmap "wide.png" 400 200 None));
    [cbn; lia | reflexivity | reflexivity | cbn; lia | cbn; lia
    | cbn; lra | cbn; lia | cbn; lia].
Defined.

Lemma sample_img_cache_wf : wf (img_cache sample_gallery).
Proof. split; [cbn; constructor | cbn; lia]. Qed.

Lemma get_image_memoizes_witness :
  let r := get_image sample_pil "wide.png" sample_gallery in
  let r' := get_image sample_pil "wide.png" r.1 in
  r'.2 = Some (mkBitmap "wide.png" 400 200 None)
  ∧ opened r'.1 = opened r.1.
Proof.
  intros r r'.
  destruct (get_image_memoizes sample_pil "wide.png" sample_gallery)
    as (Hmemo & _); [apply sample_img_cache_wf | cbn; lia|].
  apply Hmemo. reflexivity.
Defined.

Lemma preload_warms_cache_witness :
  let g1 := preload_single sample_pil "wide.png" sample_gallery in
  is_Some (get_image sample_pil "wide.png" g1).2
  ∧ opened (get_image sample_pil "wide.png" g1).1 = opened g1.
Proof.
  intros g1.
  destruct (preload_warms_cache sample_pil "wide.png" sample_gallery)
    as (Hwarm & _); [apply sample_img_cache_wf | cbn; lia|].
  apply Hwarm. right. by eexists.
Defined.

End SingleViewFacts.

(** ** The handlers *)

Module HandlerFacts.
Import OrderedDict FastImageCache Recency CacheFacts CacheLaws NumberFacts
  ZoomFacts NavFacts PassFacts.

(** *** What the handlers leave alone *)

Lemma mode_get_image pil p g :
  single_view_mode (get_image pil p g).1 = single_view_mode g.
Proof.
  unfold get_image, open_image.
  destruct (get p (img_cache g)) as [ic [img|]]; [done|].
  cbn. by destruct (image_open pil p) as [[w h]|].
Qed.

Lemma mode_display_current_image pil g :
  single_view_mode (display_current_image pil g) = single_view_mode g.
Proof.
  unfold display_current_image.
  destruct (_ || _); [done|].
  destruct (py_getitem _ _) as [img_data|]; [|done].
  match goal with |- context [get_image pil ?p ?g0] =>
    pose proof (mode_get_image pil p g0) as Hget;
    destruct (get_image pil p g0) as [g1 [img|]] end; cbn [fst] in Hget;
    [|done].
  case_decide; [done|].
  destruct (resize_ok _ _ _ _); [|exact Hget].
  match goal with |- context [preload_adjacent pil ?g0] =>
    destruct (PreloadFacts.preload_adjacent_frame pil g0) as (ic & op & ->)
  end.
  exact Hget.
Qed.

Lemma mode_debounced_display g :
  single_view_mode (debounced_display g) = single_view_mode g.
Proof.
  unfold debounced_display, instant_transform.
  destruct (negb (single_view_mode g)); [done|].
  by destruct (items (canvas g)).
Qed.

Lemma mode_zoom_in g : single_view_mode (zoom_in_fn g) = single_view_mode g.
Proof. unfold zoom_in_fn. by rewrite mode_debounced_display. Qed.

Lemma mode_zoom_out g : single_view_mode (zoom_out_fn g) = single_view_mode g.
Proof.
  unfold zoom_out_fn. cbv zeta. rewrite mode_debounced_display.
  by destruct (Qle_bool _ _).
Qed.

Lemma mode_prev_img pil g :
  single_view_mode (prev_img pil g) = single_view_mode g.
Proof.
  unfold prev_img. destruct (_ && _); [|done].
  by rewrite mode_display_current_image.
Qed.

Lemma mode_next_img pil g :
  single_view_mode (next_img pil g) = single_view_mode g.
Proof.
  unfold next_img. destruct (_ && _); [|done].
  by rewrite mode_display_current_image.
Qed.

Lemma mode_render_entry vt vb g e :
  single_view_mode (render_entry vt vb g e) = single_view_mode g.
Proof.
  destruct e as [p [[[x y] w] h]]. cbn [render_entry].
  destruct (_ || _); [done|]. unfold get_thumbnail.
  destruct (get _ _) as [tc [photo|]]; [done|].
  unfold queue_thumbnail. by case_decide.
Qed.

Lemma mode_update_visible_thumbs g :
  single_view_mode (update_visible_thumbs g) = single_view_mode g.
Proof.
  rewrite update_visible_thumbs_eq.
  generalize (visible_window g).1 (visible_window g).2. intros vt vb.
  change (single_view_mode g)
    with (single_view_mode (set_canvas (set_items [] (canvas g)) g)).
  generalize (set_canvas (set_items [] (canvas g)) g).
  induction (image_positions g) as [|e l IH]; intros g0; [done|].
  cbn [foldl]. by rewrite IH, mode_render_entry.
Qed.

(** *** The loop of [check_results] *)

(** The results taken from the queue, as [(key, thumb)] pairs. *)
Lemma drain_results_spec (n : nat) : ∀ g,
  let taken := (λ r : Result, (r.1.1, r.1.2)) <$> take n (result_queue g) in
  drain_results n g
  = (set_thumb_cache (run (puts taken) (thumb_cache g))
       (set_result_queue (drop n (result_queue g)) g),
     length taken).
Proof.
  induction n as [|n IH]; intros g; cbv zeta.
  { cbn. by destruct g. }
  cbn [drain_results].
  destruct (result_queue g) as [|[[key thumb] p] rest] eqn:Hq.
  { cbn. destruct g. cbn in Hq. by subst. }
  rewrite IH. cbn. done.
Qed.

Lemma get_thumbnail_lookup p width g :
  wf (thumb_cache g) →
  (get_thumbnail p width g).2
  = getitem (thumb_key p width) (cache (thumb_cache g)).
Proof.
  intros [Hnd _]. unfold get_thumbnail.
  pose proof (get_lookup (thumb_key p width) (thumb_cache g) Hnd) as Hl.
  by destruct (get _ _).
Qed.

Lemma check_results_spec (s : Viewer) :
  let g := gallery s in
  let taken := (λ r : Result, (r.1.1, r.1.2)) <$> take 10 (result_queue g) in
  let s' := check_results s in
  result_queue (gallery s') = drop 10 (result_queue g)
  ∧ (wf (thumb_cache g) →
     wf (thumb_cache (gallery s'))
     ∧ ∀ k, getitem k (cache (thumb_cache (gallery s')))
            = getitem k (cache (run (puts taken) (thumb_cache g))))
  ∧ opened (gallery s') = opened g.
Proof.
  cbv zeta. unfold check_results. rewrite drain_results_spec. cbv zeta.
  set (taken := (λ r : Result, (r.1.1, r.1.2)) <$> _).
  set (g1 := set_thumb_cache _ _).
  assert (wf (thumb_cache (gallery s)) → wf (thumb_cache g1)) as Hwf1.
  { intros Hwf. subst g1. cbn. by apply wf_run. }
  destruct (render_pass_frame_aux g1) as (Hf & _ & Hsame).
  destruct (bool_decide (0 < length taken)%nat && grid_mode s);
    cbn [gallery set_gallery grid_mode].
  - split; [by destruct Hf as (_&_&_&_&->&_)|].
    split; [|by destruct Hf as (_&_&_&_&_&->&_)].
    intros Hwf. destruct (Hsame (Hwf1 Hwf)) as [Hwf' Hs].
    split; [done|]. intros k. by rewrite Hs.
  - split; [done|]. split; [intros Hwf; split; [by apply Hwf1|done]|]. done.
Qed.

(** X19.  [check_results] moves at most ten results, oldest first, from
    the result queue into the thumbnail cache: the queue loses its first
    ten entries (all of them when it has fewer), the cache holds what
    putting these results in order leaves in it, an empty queue changes
    nothing at all, and outside the grid view the canvas is not
    redrawn. *)
Theorem check_results_drains (s : Viewer) :
  let g := gallery s in
  let taken := (λ r : Result, (r.1.1, r.1.2)) <$> take 10 (result_queue g) in
  let s' := check_results s in
  result_queue (gallery s') = drop 10 (result_queue g)
  ∧ (wf (thumb_cache g) →
     wf (thumb_cache (gallery s'))
     ∧ ∀ k, getitem k (cache (thumb_cache (gallery s')))
            = getitem k (cache (run (puts taken) (thumb_cache g))))
  ∧ (result_queue g = [] → s' = s)
  ∧ (grid_mode s = false → items (canvas (gallery s')) = items (canvas g))
  ∧ grid_mode s' = grid_mode s.
Proof.
  cbv zeta. unfold check_results. rewrite drain_results_spec. cbv zeta.
  set (taken := (λ r : Result, (r.1.1, r.1.2)) <$> _).
  set (g1 := set_thumb_cache _ _).
  assert (wf (thumb_cache (gallery s)) → wf (thumb_cache g1)) as Hwf1.
  { intros Hwf. subst g1. cbn. by apply wf_run. }
  destruct (render_pass_frame_aux g1) as (Hf & _ & Hsame).
  destruct (bool_decide (0 < length taken)%nat && grid_mode s) eqn:Hc;
    cbn [gallery set_gallery grid_mode].
  - apply andb_true_iff in Hc as [Hc Hgrid]. apply bool_decide_eq_true in Hc.
    split; [by destruct Hf as (_&_&_&_&->&_)|].
    split.
    { intros Hwf. destruct (Hsame (Hwf1 Hwf)) as [Hwf' Hs].
      split; [done|]. intros k. by rewrite Hs. }
    split.
    { intros Hnil. subst taken. rewrite Hnil in Hc. cbn in Hc. lia. }
    split; [by rewrite Hgrid|]. done.
  - split; [done|]. split; [intros Hwf; split; [by apply Hwf1|done]|].
    split.
    { intros Hnil. subst g1 taken. rewrite Hnil. cbn.
      destruct s as [g ? ? ?]. cbn in *. destruct g. cbn in *. by subst. }
    done.
Qed.

(** What the worker does with a task whose thumbnail is not cached and
    whose file decodes. *)
Lemma worker_task_decoded pil p width priority g iw ih :
  ¬ holds (thumb_key p width) (thumb_cache g) →
  image_open pil p = Some (iw, ih) → 0 < iw → 0 < ih →
  let new_h := py_int (fdiv (float_of_int width) (int_truediv iw ih)) in
  resize_ok pil p width new_h = true →
  let thumb :=
    mkBitmap p width new_h
      (Some (if decide (5 < priority) then LANCZOS else BILINEAR)) in
  let g' := worker_task pil (p, width, priority) g in
  result_queue g' = result_queue g ++ [(thumb_key p width, thumb, p)]
  ∧ thumb_cache g' = thumb_cache g
  ∧ thumb_queue g' = thumb_queue g
  ∧ opened g' = opened g ++ [p].
Proof.
  intros Hmiss Hopen Hw Hh new_h Hres. subst new_h. cbv zeta.
  unfold worker_task, open_image.
  rewrite (WorkerFacts.get_miss _ _ Hmiss). cbn [image_open]. rewrite Hopen.
  rewrite decide_False by lia.
  rewrite (LayoutFacts.resolved_nonzero _ (ratio_pos iw ih Hw Hh)).
  rewrite Hres. done.
Qed.

(** X20.  From a request to a cached thumbnail: in a gallery with empty
    queues, a thumbnail cache of distinct keys and positive capacity and
    no thumbnail of this path and width, when the file decodes with a
    positive size and the resampling to the computed size succeeds,
    [queue_thumbnail], one turn of the worker and one [check_results] make
    [get_thumbnail] return a thumbnail of this path, of the requested width
    and of the height [int(width / (w / h))] with both quotients taken in
    floats, resampled with LANCZOS for a priority above 5 and with BILINEAR
    otherwise; the file was opened once and the result queue is empty
    again. *)
Theorem thumbnail_pipeline (pil : Pillow) (s : Viewer) (p : string)
    (width priority iw ih : Z) :
  let g := gallery s in
  wf (thumb_cache g) → (0 < max_size (thumb_cache g))%nat →
  thumb_queue g = [] → result_queue g = [] →
  ¬ holds (thumb_key p width) (thumb_cache g) →
  image_open pil p = Some (iw, ih) → 0 < iw → 0 < ih →
  let new_h := py_int (fdiv (float_of_int width) (int_truediv iw ih)) in
  resize_ok pil p width new_h = true →
  let g1 := queue_thumbnail p width priority g in
  let g2 := thumbnail_worker pil g1 in
  let s3 := check_results (set_gallery g2 s) in
  let thumb :=
    mkBitmap p width new_h
      (Some (if decide (5 < priority) then LANCZOS else BILINEAR)) in
  (get_thumbnail p width (gallery s3)).2 = Some thumb
  ∧ result_queue (gallery s3) = []
  ∧ opened (gallery s3) = opened g ++ [p].
Proof.
  intros g Hwf Hpos Htq Hrq Hmiss Hopen Hw Hh new_h Hres g1 g2 s3 thumb.
  assert (thumb_queue g1 = [(p, width, priority)]
          ∧ thumb_cache g1 = thumb_cache g ∧ result_queue g1 = []
          ∧ opened g1 = opened g) as (Hq1 & Hc1 & Hr1 & Ho1).
  { subst g1. unfold queue_thumbnail. rewrite Htq.
    rewrite decide_True by (cbn; unfold thumb_queue_maxsize; lia). done. }
  assert (result_queue g2 = [(thumb_key p width, thumb, p)]
          ∧ thumb_cache g2 = thumb_cache g
          ∧ opened g2 = opened g ++ [p]) as (Hr2 & Hc2 & Ho2).
  { subst g2. unfold thumbnail_worker. rewrite Hq1. cbv beta iota.
    destruct (worker_task_decoded pil p width priority
                (set_thumb_queue [] g1) iw ih) as (Hr & Hc & _ & Ho);
      [by cbn; rewrite Hc1 | done..|].
    cbn [result_queue thumb_cache opened set_thumb_queue] in Hr, Hc, Ho.
    rewrite Hr1 in Hr. rewrite Hc1 in Hc. rewrite Ho1 in Ho.
    split; [exact Hr|]. split; [exact Hc | exact Ho]. }
  destruct (check_results_spec (set_gallery g2 s)) as (Hr3 & Hc3 & Ho3).
  fold s3 in Hr3, Hc3, Ho3. cbn [gallery set_gallery] in Hr3, Hc3, Ho3.
  rewrite Hr2, Hc2 in *. cbn in Hr3, Hc3.
  destruct (Hc3 Hwf) as [Hwf3 Hget].
  split; [|split; [done | by rewrite Ho3, Ho2]].
  rewrite get_thumbnail_lookup by done. rewrite Hget.
  by apply getitem_put_same.
Qed.

Lemma drain_results_frame n g :
  view_of (drain_results n g).1 = view_of g
  ∧ single_view_mode (drain_results n g).1 = single_view_mode g
  ∧ canvas (drain_results n g).1 = canvas g.
Proof. by rewrite drain_results_spec. Qed.

Lemma check_results_frame s :
  view_of (gallery (check_results s)) = view_of (gallery s)
  ∧ single_view_mode (gallery (check_results s))
    = single_view_mode (gallery s)
  ∧ grid_mode (check_results s) = grid_mode s.
Proof.
  unfold check_results.
  destruct (drain_results_frame 10 (gallery s)) as (Hv & Hsv & _).
  destruct (drain_results 10 (gallery s)) as [g count]. cbn [fst] in *.
  destruct (_ && _); cbn [gallery set_gallery grid_mode]; [|done].
  destruct (render_pass_frame_aux g) as (Hf & _).
  destruct Hf as (_&_&_&_&_&_&->&_).
  split; [done|]. split; [|done]. rewrite <-Hsv.
  apply mode_update_visible_thumbs.
Qed.

(** *** Invariants of the view *)

Lemma fit_centred_view g g' :
  view_of g' = view_of g → fit_centred g → fit_centred g'.
Proof. unfold view_of, fit_centred. intros [= _ _ -> -> ->]. done. Qed.

Lemma fit_centred_reset g :
  zoom_level g = 1%Q → pan_x g = 0 → pan_y g = 0 → fit_centred g.
Proof. unfold fit_centred. auto. Qed.

Lemma show_single_img_view pil img s :
  let s' := show_single_img pil img s in
  s' = s
  ∨ (∃ i : nat,
       index_of img (filtered_images (gallery s)) = Some i
       ∧ view_of (gallery s')
         = (filtered_images (gallery s), Z.of_nat i, 1%Q, 0, 0)
       ∧ single_view_mode (gallery s') = true
       ∧ grid_mode s' = false).
Proof.
  cbv zeta. unfold show_single_img.
  destruct (index_of img _) as [i|]; [|by left].
  right. exists i. split; [done|].
  cbn [gallery set_gallery set_grid_mode grid_mode].
  rewrite view_of_display_current_image, mode_display_current_image. done.
Qed.

Lemma grid_click_view pil cx cy entries s :
  let s' := grid_click pil cx cy entries s in
  s' = s
  ∨ (∃ (i : nat),
       view_of (gallery s')
       = (filtered_images (gallery s), Z.of_nat i, 1%Q, 0, 0)
       ∧ single_view_mode (gallery s') = true
       ∧ grid_mode s' = false).
Proof.
  cbv zeta. induction entries as [|[p pos] rest IH]; cbn [grid_click];
    [by left|].
  destruct (hit cx cy pos); [|done].
  destruct (image_of_path p (gallery s)) as [img|]; [|done].
  destruct (show_single_img_view pil img s) as [?|(i & _ & ? & ? & ?)];
    [by left|]. right. by exists i.
Qed.

Lemma view_step_invariants pil s o :
  fit_centred (gallery s) → modes_agree s →
  fit_centred (gallery (view_step pil s o)) ∧ modes_agree (view_step pil s o).
Proof.
  unfold modes_agree. intros Hfit Hmodes.
  destruct o as [| | | |x y cx cy|x y|]; cbn [view_step].
  - cbn [gallery set_gallery grid_mode]. rewrite mode_zoom_in.
    split; [|done]. unfold fit_centred in *.
    rewrite zoom_level_zoom_in. unfold zoom_in_fn. cbv zeta.
    match goal with |- context [debounced_display ?g0] =>
      destruct (debounced_display_frame g0) as (_ & -> & -> & _) end.
    cbn [pan_x pan_y set_zoom_level]. intros Hz. apply Hfit.
    destruct (py_min2_spec 5 (zoom_level (gallery s) + (1 # 4)))
      as [[? Hm]|[? Hm]]; rewrite Hm in Hz; lra.
  - cbn [gallery set_gallery grid_mode]. rewrite mode_zoom_out.
    split; [|done]. intros Hz. by apply zoom_out_resets_pan.
  - cbn [gallery set_gallery grid_mode]. rewrite mode_prev_img.
    split; [|done]. unfold prev_img. destruct (_ && _); [|done].
    eapply fit_centred_view; [apply view_of_display_current_image|].
    by apply fit_centred_reset.
  - cbn [gallery set_gallery grid_mode]. rewrite mode_next_img.
    split; [|done]. unfold next_img. destruct (_ && _); [|done].
    eapply fit_centred_view; [apply view_of_display_current_image|].
    by apply fit_centred_reset.
  - unfold on_click. destruct (grid_mode s) eqn:Hgrid.
    + unfold handle_grid_click.
      destruct (grid_click_view pil cx cy (image_positions (gallery s)) s)
        as [->|(i & Hv & Hsv & Hgm)]; [split; [done | by rewrite Hgrid]|].
      split; [|by rewrite Hsv, Hgm].
      unfold view_of in Hv. injection Hv as _ _ Hz Hx Hy.
      by apply fit_centred_reset.
    + destruct (single_view_mode (gallery s)) eqn:Hsv;
        [|split; [done | by rewrite Hgrid, Hsv]].
      destruct (Qltb 1 _);
        cbn [gallery grid_mode set_pan_start_x set_pan_start_y];
        (split; [done | by rewrite ?Hgrid, Hsv]).
  - unfold on_drag.
    destruct (single_view_mode (gallery s)) eqn:Hsv; cbn [andb];
      [|split; [done | by rewrite Hsv]].
    destruct (Qltb 1 (zoom_level (gallery s))) eqn:Hz;
      [|split; [done | by rewrite Hsv]].
    cbn [andb gallery set_gallery grid_mode set_pan_start_x set_pan_start_y].
    rewrite mode_debounced_display. cbn [single_view_mode set_pan_y set_pan_x].
    split; [|by rewrite Hsv]. unfold fit_centred.
    rewrite (proj1 (debounced_display_frame _)). cbn [zoom_level set_pan_y set_pan_x].
    apply Qltb_true in Hz. intros ?. lra.
  - destruct (check_results_frame s) as (Hv & Hsv & Hgm).
    split; [by eapply fit_centred_view | by rewrite Hgm, Hsv].
Qed.

(** X21.  Two invariants of the view under zooming, stepping to the
    previous or next image, clicking, dragging and collecting results, in
    any order: a picture shown at a zoom level of at most 1 has no pan
    offset (it is centred), and the grid flag is the negation of the
    single-view flag. *)
Theorem view_invariants (pil : Pillow) (s : Viewer) (ops : list ViewOp) :
  fit_centred (gallery s) → modes_agree s →
  fit_centred (gallery (view_run pil ops s))
  ∧ modes_agree (view_run pil ops s).
Proof.
  revert s. induction ops as [|o ops IH]; intros s Hfit Hmodes; [done|].
  unfold view_run. cbn [foldl].
  destruct (view_step_invariants pil s o Hfit Hmodes) as [Hfit' Hmodes'].
  by apply IH.
Qed.

(** *** Dragging *)

Lemma move_item_twice it a b x y :
  move_item (move_item it a b) x y = move_item it x y.
Proof. by destruct it. Qed.

(** One step of a drag in the zoomed single view. *)
Lemma on_drag_step x y s :
  single_view_mode (gallery s) = true → (1 < zoom_level (gallery s))%Q →
  let s' := on_drag x y s in
  let g := gallery s in
  let g' := gallery s' in
  single_view_mode g' = true ∧ zoom_level g' = zoom_level g
  ∧ winfo_width (canvas g') = winfo_width (canvas g)
  ∧ winfo_height (canvas g') = winfo_height (canvas g)
  ∧ pan_x g' = pan_x g + (x - pan_start_x s)
  ∧ pan_y g' = pan_y g + (y - pan_start_y s)
  ∧ pan_start_x s' = x ∧ pan_start_y s' = y
  ∧ grid_mode s' = grid_mode s
  ∧ zoom_pan_timer g' = true
  ∧ items (canvas g')
    = match items (canvas g) with
      | [] => []
      | it :: rest =>
          move_item it
            (Z.max (winfo_width (canvas g)) 100 / 2 + pan_x g')
            (Z.max (winfo_height (canvas g)) 100 / 2 + pan_y g') :: rest
      end.
Proof.
  intros Hsv Hz. cbv zeta. unfold on_drag. rewrite Hsv.
  apply Qltb_true in Hz. rewrite Hz. cbn [andb].
  cbn [gallery set_gallery pan_start_x pan_start_y set_pan_start_x
    set_pan_start_y grid_mode].
  unfold debounced_display, instant_transform.
  cbn [single_view_mode set_pan_x set_pan_y]. rewrite Hsv. cbn [negb].
  cbn [canvas set_pan_x set_pan_y pan_x pan_y].
  destruct (items (canvas (gallery s))) eqn:Hi;
    cbn [single_view_mode zoom_level canvas pan_x pan_y zoom_pan_timer
      set_zoom_pan_timer set_pan_y set_pan_x set_canvas set_items items
      winfo_width winfo_height];
    rewrite ?Hsv, ?Hi; by repeat split.
Qed.

Lemma drag_run_spec pts : ∀ s,
  single_view_mode (gallery s) = true → (1 < zoom_level (gallery s))%Q →
  let s' := drag_run pts s in
  let g := gallery s in
  let g' := gallery s' in
  single_view_mode g' = true ∧ zoom_level g' = zoom_level g
  ∧ winfo_width (canvas g') = winfo_width (canvas g)
  ∧ winfo_height (canvas g') = winfo_height (canvas g)
  ∧ pan_x g' - pan_start_x s' = pan_x g - pan_start_x s
  ∧ pan_y g' - pan_start_y s' = pan_y g - pan_start_y s
  ∧ match items (canvas g) with
    | [] => items (canvas g') = []
    | it :: rest =>
        ∃ it', items (canvas g') = it' :: rest
               ∧ (it' = it ∨ ∃ a b, it' = move_item it a b)
    end.
Proof.
  induction pts as [|pt pts IH]; intros s Hsv Hz; cbv zeta.
  { cbn. repeat split; try done.
    destruct (items _) as [|it rest]; [done|]. exists it. by split; [|left]. }
  unfold drag_run. cbn [foldl]. fold (drag_run pts (on_drag pt.1 pt.2 s)).
  destruct (on_drag_step pt.1 pt.2 s Hsv Hz)
    as (Hsv1 & Hz1 & Hw1 & Hh1 & Hx1 & Hy1 & Hsx1 & Hsy1 & _ & _ & Hi1).
  destruct (IH (on_drag pt.1 pt.2 s) Hsv1 ltac:(by rewrite Hz1))
    as (Hsv2 & Hz2 & Hw2 & Hh2 & Hx2 & Hy2 & Hi2).
  split; [done|]. split; [congruence|]. split; [congruence|].
  split; [congruence|]. split; [lia|]. split; [lia|].
  rewrite Hi1 in Hi2. destruct (items (canvas (gallery s))) as [|it rest];
    [done|].
  destruct Hi2 as (it' & Hit' & Hmoved). exists it'. split; [done|].
  right. destruct Hmoved as [->|(a & b & ->)]; [by eauto|].
  rewrite move_item_twice. by eauto.
Qed.

(** X22.  A drag moves the picture with the pointer: in the single view
    at a zoom level above 1, after a click at [(x0, y0)] and a drag
    through any points that ends at [(x1, y1)], the pan offset has changed
    by exactly [(x1 - x0, y1 - y0)], whatever the path of the pointer; the
    zoom level is unchanged, the first canvas item (the picture) sits at
    the centre of the canvas moved by the new offset, the other items
    are untouched, and a high-quality render is scheduled. *)
Theorem drag_follows_pointer (pil : Pillow) (s : Viewer)
    (x0 y0 : Z) (click_x click_y : Q) (pts : list (Z * Z)) (x1 y1 : Z) :
  grid_mode s = false → single_view_mode (gallery s) = true →
  (1 < zoom_level (gallery s))%Q →
  last pts = Some (x1, y1) →
  let s' := drag_run pts (on_click pil x0 y0 click_x click_y s) in
  let g := gallery s in
  let g' := gallery s' in
  pan_x g' = pan_x g + (x1 - x0) ∧ pan_y g' = pan_y g + (y1 - y0)
  ∧ zoom_level g' = zoom_level g
  ∧ zoom_pan_timer g' = true
  ∧ items (canvas g')
    = match items (canvas g) with
      | [] => []
      | it :: rest =>
          move_item it
            (Z.max (winfo_width (canvas g)) 100 / 2 + pan_x g')
            (Z.max (winfo_height (canvas g)) 100 / 2 + pan_y g') :: rest
      end.
Proof.
  intros Hgrid Hsv Hz Hlast. cbv zeta.
  assert (on_click pil x0 y0 click_x click_y s
          = set_pan_start_y y0 (set_pan_start_x x0 s)) as ->.
  { unfold on_click. rewrite Hgrid, Hsv. apply Qltb_true in Hz.
    by rewrite Hz. }
  set (s0 := set_pan_start_y y0 (set_pan_start_x x0 s)).
  destruct pts as [|pt0 pts0] using rev_ind; [done|]. clear IHpts0.
  rewrite last_snoc in Hlast. injection Hlast as ->.
  unfold drag_run. rewrite foldl_app. cbn [foldl fst snd].
  fold (drag_run pts0 s0).
  destruct (drag_run_spec pts0 s0 Hsv Hz)
    as (Hsv1 & Hz1 & Hw1 & Hh1 & Hx1 & Hy1 & Hi1).
  cbn [gallery pan_start_x pan_start_y set_pan_start_x set_pan_start_y s0]
    in Hz1, Hw1, Hh1, Hx1, Hy1, Hi1.
  destruct (on_drag_step x1 y1 (drag_run pts0 s0) Hsv1
              ltac:(by rewrite Hz1))
    as (_ & Hz2 & Hw2 & Hh2 & Hx2 & Hy2 & _ & _ & _ & Ht2 & Hi2).
  split; [lia|]. split; [lia|]. split; [congruence|]. split; [done|].
  rewrite Hi2, Hw1, Hh1.
  destruct (items (canvas (gallery s))) as [|it rest]; [by rewrite Hi1|].
  destruct Hi1 as (it' & -> & Hmoved).
  destruct Hmoved as [->|(a & b & ->)]; [done|].
  by rewrite move_item_twice.
Qed.

(** *** Clicking a tile *)

Lemma hit_bounds cx cy x y w h :
  hit cx cy (x, y, w, h) = true →
  (inject_Z x <= cx)%Q ∧ (cx <= inject_Z (x + w))%Q
  ∧ (inject_Z y <= cy)%Q ∧ (cy <= inject_Z (y + h))%Q.
Proof.
  unfold hit. rewrite !andb_true_iff, !Qle_bool_iff. tauto.
Qed.

Lemma inject_Z_between (a b : Z) (q : Q) :
  (inject_Z a <= q)%Q → (q <= inject_Z b)%Q → a <= b.
Proof. intros H1 H2. rewrite Zle_Qle. by eapply Qle_trans. Qed.

(** No point lies in two tiles of a layout with a positive gap. *)
Lemma hit_unique col_w gap (placed : list (string * Position)) cx cy
    (i j : nat) e1 e2 :
  0 <= col_w → 0 < gap → stacked gap placed →
  (∀ p x y w h, (p, (x, y, w, h)) ∈ placed →
     ∃ c : nat, x = column_x col_w gap c ∧ w = col_w ∧ 0 <= h) →
  placed !! i = Some e1 → placed !! j = Some e2 →
  hit cx cy e1.2 = true → hit cx cy e2.2 = true → i = j.
Proof.
  intros Hw Hgap Hst Hcol.
  assert (∀ i j e1 e2, (i < j)%nat →
            placed !! i = Some e1 → placed !! j = Some e2 →
            hit cx cy e1.2 = true → hit cx cy e2.2 = true → False) as Hlt.
  { clear i j e1 e2.
    intros i j [p1 [[[x1 y1] w1] h1]] [p2 [[[x2 y2] w2] h2]] Hij H1 H2 Hh1 Hh2.
    cbn [snd] in Hh1, Hh2.
    apply hit_bounds in Hh1 as (Hx1 & Hx1' & Hy1 & Hy1').
    apply hit_bounds in Hh2 as (Hx2 & Hx2' & Hy2 & Hy2').
    destruct (Hcol _ _ _ _ _ (list_elem_of_lookup_2 _ _ _ H1))
      as (c1 & -> & -> & Hh1).
    destruct (Hcol _ _ _ _ _ (list_elem_of_lookup_2 _ _ _ H2))
      as (c2 & -> & -> & Hh2).
    pose proof (inject_Z_between _ _ _ Hx1 Hx2') as Ha.
    pose proof (inject_Z_between _ _ _ Hx2 Hx1') as Hb.
    pose proof (inject_Z_between _ _ _ Hy2 Hy1') as Hc.
    assert (c1 = c2) as <-.
    { unfold column_x in Ha, Hb. nia. }
    pose proof (Hst i j _ _ _ _ _ _ _ _ _ Hij H1 H2). lia. }
  intros H1 H2 Hh1 Hh2.
  destruct (lt_eq_lt_dec i j) as [[Hij|Heq]|Hji]; [|done|].
  - destruct (Hlt i j e1 e2 Hij H1 H2 Hh1 Hh2).
  - destruct (Hlt j i e2 e1 Hji H2 H1 Hh2 Hh1).
Qed.

(** The loop of [handle_grid_click] opens the only tile that is hit. *)
Lemma grid_click_first pil cx cy entries : ∀ (i : nat) p pos img s,
  entries !! i = Some (p, pos) → hit cx cy pos = true →
  (∀ (j : nat) e, entries !! j = Some e → hit cx cy e.2 = true → j = i) →
  image_of_path p (gallery s) = Some img →
  grid_click pil cx cy entries s = show_single_img pil img s.
Proof.
  induction entries as [|[p0 pos0] rest IH]; intros i p pos img s Hi Hhit Huniq
    Himg; [done|].
  cbn [grid_click]. destruct i as [|i].
  - injection Hi as -> ->. by rewrite Hhit, Himg.
  - destruct (hit cx cy pos0) eqn:H0.
    { by specialize (Huniq 0%nat (p0, pos0) eq_refl H0). }
    apply (IH i p pos); [done | done | | done].
    intros j e Hj He. specialize (Huniq (S j) e Hj He). lia.
Qed.

Lemma catalog_lookup_nodup (l : list ImageData) : ∀ (i : nat) img,
  NoDup (path <$> l) → l !! i = Some img →
  head (filter (λ x, path x = path img) l) = Some img
  ∧ index_of img l = Some i.
Proof.
  induction l as [|x l IH]; intros i img Hnd Hi; [done|].
  cbn [fmap list_fmap] in Hnd. apply NoDup_cons in Hnd as [Hx Hnd].
  destruct i as [|i].
  - injection Hi as ->. rewrite filter_cons_True by done.
    cbn [index_of head]. by rewrite decide_True.
  - cbn in Hi. destruct (IH i img Hnd Hi) as [Hh Hidx].
    assert (path x ≠ path img) as Hne.
    { intros Heq. apply Hx. rewrite Heq. apply list_elem_of_fmap.
      exists img. split; [done|]. by eapply list_elem_of_lookup_2. }
    rewrite filter_cons_False by done. split; [done|].
    cbn [index_of]. rewrite decide_False by (intros ->; done).
    by rewrite Hidx.
Qed.

Lemma show_single_img_at pil img s (i : nat) :
  index_of img (filtered_images (gallery s)) = Some i →
  let s' := show_single_img pil img s in
  view_of (gallery s') = (filtered_images (gallery s), Z.of_nat i, 1%Q, 0, 0)
  ∧ single_view_mode (gallery s') = true
  ∧ grid_mode s' = false.
Proof.
  intros Hidx. cbv zeta. unfold show_single_img. rewrite Hidx.
  cbn [gallery set_gallery set_grid_mode grid_mode].
  rewrite view_of_display_current_image, mode_display_current_image. done.
Qed.

(** X23.  A click on a tile opens the image of this tile: after a
    completed layout of a catalog with distinct paths and a positive gap,
    a click in the grid view at a point inside the tile of the image at
    position [i] of the catalog (borders included) switches to the single
    view of image [i], at zoom level 1 and without pan offset, whatever
    the other tiles are. *)
Theorem grid_click_opens_tile (pil : Pillow) (s : Viewer) (i : nat)
    (img : ImageData) (x y w h ex ey : Z) (click_x click_y : Q) :
  let g := gallery s in
  grid_mode s = true →
  1 < winfo_width (canvas g) → 0 < gap g →
  NoDup (path <$> filtered_images g) →
  (∀ img, img ∈ filtered_images g → (0 < resolved pil g (path img))%Q) →
  let s1 := set_gallery (calculate_layout pil g).1 s in
  filtered_images g !! i = Some img →
  (path img, (x, y, w, h)) ∈ image_positions (gallery s1) →
  hit click_x click_y (x, y, w, h) = true →
  let s' := on_click pil ex ey click_x click_y s1 in
  view_of (gallery s') = (filtered_images g, Z.of_nat i, 1%Q, 0, 0)
  ∧ single_view_mode (gallery s') = true
  ∧ grid_mode s' = false.
Proof.
  intros g Hgrid Hwide Hgap Hnd Hpos s1 Hi Hin Hhit s'.
  destruct (LayoutFacts.layout_follows_masonry pil g Hwide Hpos)
    as [Hcols (placed & heights & m & _ & Hm & Hp & _)].
  destruct (GeometryFacts.masonry_shape _ _ _ _ _ _ Hm) as [Hk _].
  rewrite GeometryFacts.with_ratios_paths in Hk.
  rewrite LayoutFacts.add_placements_fresh in Hp by (cbn; by rewrite Hk).
  cbn [app] in Hp.
  pose proof (LayoutFacts.column_width_min (winfo_width (canvas g))
                (gap g) (layout_columns g)) as H50.
  set (col_w := column_width _ _ _) in *.
  assert (0 <= col_w) as Hcw by lia.
  assert (0 <= gap g) as Hgap0 by lia.
  assert (0 < col_w + gap g) as Hstep by lia.
  pose proof (GeometryFacts.masonry_stacked _ _ _ _ _ _ Hcw Hgap0 Hstep
                (GeometryFacts.with_ratios_pos pil g Hpos) Hm) as Hst.
  destruct (GeometryFacts.masonry_geometry _ _ _ _ _ _ Hcw Hgap0
              (GeometryFacts.with_ratios_pos pil g Hpos) Hm) as [_ Hgeo].
  assert (filtered_images (gallery s1) = filtered_images g) as Hf.
  { destruct (LayoutFacts.layout_rerun_inputs pil g) as [Hf _]. done. }
  cbn [gallery set_gallery s1] in Hin, Hf. rewrite Hp in Hin.
  apply list_elem_of_lookup_1 in Hin as [j Hj].
  destruct (catalog_lookup_nodup _ i img Hnd Hi) as [Himg Hidx].
  subst s'. unfold on_click, handle_grid_click.
  cbn [grid_mode set_gallery s1 gallery]. rewrite Hgrid, Hp.
  rewrite (grid_click_first pil click_x click_y placed j (path img)
             (x, y, w, h) img); [| done | done | |].
  - destruct (show_single_img_at pil img
                (set_gallery (calculate_layout pil g).1 s) i)
      as (Hv & Hsv & Hgm).
    { cbn [gallery set_gallery]. by rewrite Hf. }
    cbn [gallery set_gallery] in Hv. rewrite Hf in Hv. done.
  - intros j' e Hj' He.
    assert (∀ p0 x0 y0 w0 h0, (p0, (x0, y0, w0, h0)) ∈ placed →
              ∃ c : nat, x0 = column_x col_w (gap g) c ∧ w0 = col_w
                         ∧ 0 <= h0) as Hcol.
    { intros p0 x0 y0 w0 h0 Hin0.
      destruct (Hgeo p0 x0 y0 w0 h0 Hin0)
        as (c & _ & _ & -> & _ & _ & _ & _ & -> & Hh0).
      by exists c. }
    exact (hit_unique col_w (gap g) placed click_x click_y j' j e
             (path img, (x, y, w, h)) Hcw Hgap Hst Hcol Hj' Hj He Hhit).
  - unfold image_of_path, s1. cbn [gallery set_gallery]. by rewrite Hf.
Qed.

(** *** Examples *)

Lemma sample_thumb_cache_wf : wf (thumb_cache sample_gallery).
Proof. split; [cbn; constructor | cbn; lia]. Qed.

Lemma thumbnail_pipeline_witness :
  let g1 := queue_thumbnail "wide.png" 196 10 sample_gallery in
  let g2 := thumbnail_worker sample_pil g1 in
  let s3 := check_results (set_gallery g2 sample_viewer) in
  (get_thumbnail "wide.png" 196 (gallery s3)).2
  = Some (mkBitmap "wide.png" 196 98 (Some LANCZOS))
  ∧ opened (gallery s3) = ["wide.png"].
Proof.
  intros g1 g2 s3.
  destruct (thumbnail_pipeline sample_pil sample_viewer "wide.png"
              196 10 400 200) as (Hget & _ & Hopened);
    [apply sample_thumb_cache_wf | cbn; lia | reflexivity | reflexivity
    | unfold holds; cbn; apply not_elem_of_nil | reflexivity | lia | lia
    | reflexivity|].
  split; [exact Hget | exact Hopened].
Defined.

Lemma view_invariants_witness :
  let s := mkViewer sample_laid_out true 0 0 in
  let ops :=
    [OpClick 300 100 300 100; OpZoomIn; OpZoomIn; OpClick 100 100 100 100;
     OpDrag 130 90; OpResults; OpZoomOut; OpZoomOut; OpNext] in
  fit_centred (gallery (view_run sample_pil ops s))
  ∧ modes_agree (view_run sample_pil ops s).
Proof.
  intros s ops. apply view_invariants.
  - intros _. split; reflexivity.
  - reflexivity.
Defined.

Lemma drag_follows_pointer_witness :
  let s' :=
    drag_run [(110, 95); (130, 90)]
      (on_click sample_pil 100 100 100 100 sample_zoomed) in
  pan_x (gallery s') = 0 + (130 - 100)
  ∧ pan_y (gallery s') = 0 + (90 - 100).
Proof.
  intros s'.
  destruct (drag_follows_pointer sample_pil sample_zoomed 100 100 100 100
              [(110, 95); (130, 90)] 130 90) as (Hx & Hy & _);
    [reflexivity | reflexivity | reflexivity | reflexivity|].
  split; [exact Hx | exact Hy].
Defined.

Lemma grid_click_opens_tile_witness :
  let s1 :=
    set_gallery (calculate_layout sample_pil sample_gallery).1
      sample_viewer in
  let s' := on_click sample_pil 300 100 300 100 s1 in
  view_of (gallery s') = (filtered_images sample_gallery, 1, 1%Q, 0, 0)
  ∧ single_view_mode (gallery s') = true
  ∧ grid_mode s' = false.
Proof.
  intros s1 s'.
  apply (grid_click_opens_tile sample_pil sample_viewer 1
           (mkImageData "tall.png" "tall" true) 204 4 196 392 300 100
           300 100);
    [reflexivity | cbn; lia | cbn; lia | cbn; compute_done
    | apply GeometryFacts.sample_resolved_pos | reflexivity
    | vm_compute; apply list_elem_of_further, list_elem_of_here
    | reflexivity].
Defined.

End HandlerFacts.

(** ** Columns, thumbnails and round trips *)

Module TileFacts.
Import OrderedDict FloatFacts NumberFacts LayoutFacts GeometryFacts.

Lemma masonry_balanced col_w gap H hs imgs placed hs' :
  0 <= col_w → 0 <= gap →
  (∀ p a, (p, a) ∈ imgs → (0 < a)%Q ∧ tile_height col_w a <= H) →
  masonry col_w gap hs imgs placed hs' →
  balanced (H + gap) hs → balanced (H + gap) hs'.
Proof.
  intros Hw Hgap Himgs Hm.
  induction Hm as [hs|hs p a rest c y placed hs' Hc Hmin Hm IH]; [done|].
  intros Hbal. apply IH.
  { intros p' a' Hin. apply (Himgs p'). by apply list_elem_of_further. }
  destruct (Himgs p a (list_elem_of_here _ _)) as [Ha Hh].
  pose proof (tile_height_nonneg col_w a Hw Ha) as Hh0.
  set (h := tile_height col_w a) in *.
  pose proof (list_elem_of_lookup_2 _ _ _ Hc) as Hy.
  assert (∀ v, v ∈ <[c := y + h + gap]> hs → v = y + h + gap ∨ v ∈ hs)
    as Hins.
  { intros v [i Hi]%list_elem_of_lookup_1.
    apply list_lookup_insert_Some in Hi as [(_ & <- & _)|[_ Hi]];
      [by left|]. right. by eapply list_elem_of_lookup_2. }
  intros v1 v2 [->|H1]%Hins [->|H2]%Hins.
  - lia.
  - pose proof (Hmin v2 H2). lia.
  - pose proof (Hbal v1 y H1 Hy). lia.
  - by apply Hbal.
Qed.

Lemma balanced_replicate (n : nat) (v bound : Z) :
  0 <= bound → balanced bound (replicate n v).
Proof.
  intros Hb a b [-> _]%elem_of_replicate [-> _]%elem_of_replicate. lia.
Qed.

(** What the loop computes for a placement. *)
Lemma masonry_heights col_w gap hs imgs placed hs' :
  masonry col_w gap hs imgs placed hs' →
  ∀ p x y w h, (p, (x, y, w, h)) ∈ placed →
    ∃ a, (p, a) ∈ imgs ∧ w = col_w ∧ h = tile_height col_w a.
Proof.
  induction 1 as [hs|hs p a rest c y placed hs' Hc Hmin Hm IH];
    intros p' x' y' w' h' Hin; [by apply elem_of_nil in Hin|].
  apply elem_of_cons in Hin as [[= -> -> -> -> ->]|Hin].
  - exists a. split; [apply list_elem_of_here | done].
  - destruct (IH _ _ _ _ _ Hin) as (a' & Ha' & ? & ?).
    exists a'. split; [by apply list_elem_of_further | done].
Qed.

(** X24.  The columns stay balanced: when every image gets a tile of
    height at most [H], the column accumulators that a completed layout
    pass ends with differ by at most [H + gap] from each other, so that
    no column ends more than [H + 2×gap] above the bottom of the scroll
    region. *)
Theorem columns_balanced (pil : Pillow) (g : ImageGallery) (H : Z) :
  1 < winfo_width (canvas g) → 0 <= gap g →
  (∀ img, img ∈ filtered_images g → (0 < resolved pil g (path img))%Q) →
  let cols := layout_columns g in
  let col_w := column_width (winfo_width (canvas g)) (gap g) cols in
  0 <= H →
  (∀ img, img ∈ filtered_images g →
     py_int (fdiv (float_of_int col_w) (resolved pil g (path img))) <= H) →
  ∃ heights total,
    final_col_heights pil g = Some heights
    ∧ length heights = Z.to_nat cols
    ∧ balanced (H + gap g) heights
    ∧ total_height (calculate_layout pil g).1 = Some total
    ∧ ∀ a, a ∈ heights → total - (H + 2 * gap g) <= a <= total - gap g.
Proof.
  intros Hwide Hgap Hpos cols col_w HH Hbound.
  pose proof (layout_columns_pos g) as Hcols. fold cols in Hcols.
  pose proof (column_width_min (winfo_width (canvas g)) (gap g) cols) as H50.
  fold col_w in H50. assert (0 <= col_w) as Hw by lia.
  unfold final_col_heights, total_height, calculate_layout.
  rewrite !decide_False by lia. fold cols col_w.
  destruct (place_images_masonry pil col_w (gap g) (filtered_images g) Hw
              (replicate (Z.to_nat cols) (gap g)) (set_image_positions [] g))
    as (placed & heights & Hr & _ & Hm & Hlen).
  { intros Hnil. apply (f_equal length) in Hnil.
    rewrite length_replicate in Hnil. cbn in Hnil. lia. }
  { intros img Hin. rewrite resolved_set_image_positions. by apply Hpos. }
  assert (balanced (H + gap g) heights) as Hbal.
  { eapply (masonry_balanced col_w (gap g) H); [done | done | | exact Hm |].
    - intros p a [img [[= -> ->] Himg]]%list_elem_of_fmap.
      cbn [filtered_images set_image_positions] in Himg.
      rewrite resolved_set_image_positions.
      split; [by apply Hpos | by apply Hbound].
    - apply balanced_replicate. lia. }
  cbn [filtered_images set_image_positions] in Hr.
  destruct (place_images _ _ _ _ _ _) as [g1 r]. cbn [snd] in Hr. subst r.
  rewrite length_replicate in Hlen.
  destruct (py_max_spec heights) as (m & Hmax & Hmin & Hmle).
  { intros ->. cbn in Hlen. lia. }
  rewrite Hmax. cbn.
  exists heights, (m + gap g). split; [done|]. split; [done|].
  split; [done|]. split; [done|].
  intros a Ha. pose proof (Hbal m a Hmin Ha). pose proof (Hmle a Ha). lia.
Qed.

(** X25.  The thumbnail fits its tile: for a tile that a completed layout
    stored for a file which decodes to the ratio the layout used, one pass
    of the worker on the task that the renderer queues for this tile (the
    tile's path and width) computes exactly the width and the height of
    the tile; when the resampling to this size succeeds it publishes one
    thumbnail of this size, and when it fails (as for a tile of height 0)
    it publishes nothing. *)
Theorem thumbnail_fits_tile (pil : Pillow) (g : ImageGallery)
    (p : string) (x y w h iw ih priority : Z) :
  1 < winfo_width (canvas g) →
  (∀ img, img ∈ filtered_images g → (0 < resolved pil g (path img))%Q) →
  let g1 := (calculate_layout pil g).1 in
  (p, (x, y, w, h)) ∈ image_positions g1 →
  image_open pil p = Some (iw, ih) → 0 < iw → 0 < ih →
  resolved pil g p = int_truediv iw ih →
  ¬ FastImageCache.holds (thumb_key p w) (thumb_cache g1) →
  let thumb :=
    mkBitmap p w h
      (Some (if decide (5 < priority) then LANCZOS else BILINEAR)) in
  result_queue (worker_task pil (p, w, priority) g1)
  = if resize_ok pil p w h
    then result_queue g1 ++ [(thumb_key p w, thumb, p)]
    else result_queue g1.
Proof.
  intros Hwide Hpos g1 Hin Hopen Hiw Hih Hratio Hmiss thumb.
  destruct (layout_follows_masonry pil g Hwide Hpos)
    as [Hcols (placed & heights & m & _ & Hm & Hp & _)].
  fold g1 in Hp. rewrite Hp in Hin.
  apply elem_of_add_placements in Hin as [Hin|Hin];
    [by apply elem_of_nil in Hin|].
  destruct (masonry_heights _ _ _ _ _ _ Hm _ _ _ _ _ Hin)
    as (a & [img [[= Hpath ->] Himg]]%list_elem_of_fmap & -> & Hh).
  subst p thumb. rewrite Hratio in Hh. unfold tile_height in Hh.
  set (col_w := column_width _ _ _) in *.
  unfold worker_task, open_image.
  rewrite (WorkerFacts.get_miss _ _ Hmiss). cbn [image_open]. rewrite Hopen.
  rewrite decide_False by lia.
  rewrite (resolved_nonzero _ (ratio_pos iw ih Hiw Hih)).
  rewrite <-Hh. by destruct (resize_ok pil (path img) col_w h).
Qed.



(** The loop stops at the first image whose ratio is zero. *)
Lemma place_images_zero_ratio pil col_w gap l1 img0 l2 :
  0 <= col_w → ∀ heights g,
  heights ≠ [] →
  (∀ img, img ∈ l1 → (0 < resolved pil g (path img))%Q) →
  (resolved pil g (path img0) == 0)%Q →
  ∃ placed,
    (place_images pil col_w gap (l1 ++ img0 :: l2) heights g).2 = None
    ∧ image_positions
        (place_images pil col_w gap (l1 ++ img0 :: l2) heights g).1
      = add_placements (image_positions g) placed
    ∧ placed.*1 = path <$> l1
    ∧ canvas (place_images pil col_w gap (l1 ++ img0 :: l2) heights g).1
      = canvas g.
Proof.
  intros Hw. induction l1 as [|img rest IH]; intros heights g Hne Hpos Hzero.
  - cbn [app]. rewrite place_images_unfold.
    destruct (py_min_spec heights Hne) as (m & Hmin & Hin & Hle).
    destruct (py_index_spec m heights Hin) as (c & Hidx & Hc).
    rewrite Hmin. cbn [mbind option_bind]. rewrite Hidx. cbv zeta.
    apply Qeq_bool_iff in Hzero. rewrite Hzero.
    exists []. cbn [snd fst]. split; [done|].
    destruct (get_aspect_frame pil (path img0) g) as [-> ->]. done.
  - cbn [app]. rewrite place_images_unfold.
    destruct (py_min_spec heights Hne) as (m & Hmin & Hin & Hle).
    destruct (py_index_spec m heights Hin) as (c & Hidx & Hc).
    rewrite Hmin. cbn [mbind option_bind]. rewrite Hidx. cbv zeta.
    pose proof (Hpos img (list_elem_of_here _ _)) as Ha.
    rewrite (resolved_nonzero _ Ha), Hc.
    set (g1 := (get_aspect_ratio_fast pil (path img) g).1).
    set (g2 := set_image_positions _ g1).
    assert (∀ q, resolved pil g2 q = resolved pil g q) as Hres.
    { intros q. subst g2 g1.
      by rewrite resolved_set_image_positions, resolved_stable. }
    match goal with |- context [place_images pil col_w gap _ ?hs g2] =>
      destruct (IH hs g2) as (placed & Hr & Hp & Hk & Hcv) end.
    { intros Hnil. apply (f_equal length) in Hnil.
      rewrite length_insert in Hnil. by destruct heights. }
    { intros img' Hin'. rewrite Hres. apply Hpos.
      by apply list_elem_of_further. }
    { by rewrite Hres. }
    eexists ((path img, _) :: placed). split; [exact Hr|].
    split; [|split].
    + rewrite Hp. subst g2. cbn [image_positions set_image_positions].
      subst g1. rewrite (proj1 (get_aspect_frame pil (path img) g)). done.
    + cbn [fmap list_fmap fst]. by rewrite Hk.
    + rewrite Hcv. subst g2 g1. cbn [canvas set_image_positions].
      apply (get_aspect_frame pil (path img) g).
Qed.

(** X27.  A zero ratio aborts the layout half-way: when the first image
    whose ratio is zero comes after images with positive ratios, the pass
    on a mapped canvas raises (the division by the ratio fails); the
    position map then holds the tiles of the images before this one and
    of no other, and the scroll region is the one from before the
    pass. *)
Theorem layout_zero_ratio_raises (pil : Pillow) (g : ImageGallery)
    (l1 l2 : list ImageData) (img0 : ImageData) :
  1 < winfo_width (canvas g) →
  filtered_images g = l1 ++ img0 :: l2 →
  (∀ img, img ∈ l1 → (0 < resolved pil g (path img))%Q) →
  (resolved pil g (path img0) == 0)%Q →
  let r := calculate_layout pil g in
  r.2 = Raised
  ∧ scrollregion (canvas r.1) = scrollregion (canvas g)
  ∧ ∀ p, p ∈ keys (image_positions r.1) ↔ p ∈ path <$> l1.
Proof.
  intros Hwide Hf Hpos Hzero. cbv zeta.
  pose proof (layout_columns_pos g) as Hcols.
  pose proof (column_width_min (winfo_width (canvas g)) (gap g)
                (layout_columns g)) as H50.
  unfold calculate_layout. rewrite decide_False by lia.
  cbn [filtered_images set_image_positions]. rewrite Hf.
  set (col_w := column_width _ _ _) in *.
  destruct (place_images_zero_ratio pil col_w (gap g) l1 img0 l2
              ltac:(lia) (replicate (Z.to_nat (layout_columns g)) (gap g))
              (set_image_positions [] g))
    as (placed & Hr & Hp & Hk & Hcv).
  { intros Hnil. apply (f_equal length) in Hnil.
    rewrite length_replicate in Hnil. cbn in Hnil. lia. }
  { intros img Hin. rewrite resolved_set_image_positions. by apply Hpos. }
  { by rewrite resolved_set_image_positions. }
  destruct (place_images _ _ _ _ _ _) as [g1 res]. cbn [fst snd] in *.
  subst res. cbn [fst snd]. split; [done|]. split; [by rewrite Hcv|].
  intros p. rewrite Hp, keys_add_placements, Hk. cbn.
  rewrite elem_of_nil. tauto.
Qed.

(** *** Examples *)

Lemma columns_balanced_witness :
  ∃ heights total,
    final_col_heights sample_pil sample_gallery = Some heights
    ∧ length heights = Z.to_nat 4
    ∧ balanced (392 + 4) heights
    ∧ total_height (calculate_layout sample_pil sample_gallery).1
      = Some total
    ∧ ∀ a, a ∈ heights → total - (392 + 2 * 4) <= a <= total - 4.
Proof.
  apply (columns_balanced sample_pil sample_gallery 392);
    [cbn; lia | cbn; lia | apply sample_resolved_pos | lia|].
  intros img Hin. unfold sample_gallery in Hin.
  cbn [filtered_images set_filtered_images] in Hin.
  rewrite !elem_of_cons in Hin.
  repeat (destruct Hin as [->|Hin]; [vm_compute; discriminate|]).
  by apply elem_of_nil in Hin.
Defined.

Lemma thumbnail_fits_tile_witness :
  let g1 := (calculate_layout sample_pil sample_gallery).1 in
  result_queue (worker_task sample_pil ("tall.png", 196, 10) g1)
  = result_queue g1
    ++ [(thumb_key "tall.png" 196,
         mkBitmap "tall.png" 196 392 (Some LANCZOS), "tall.png")].
Proof.
  apply (thumbnail_fits_tile sample_pil sample_gallery "tall.png"
           204 4 196 392 200 400 10);
    [cbn; lia | apply sample_resolved_pos
    | vm_compute; apply list_elem_of_further, list_elem_of_here
    | reflexivity | lia | lia | reflexivity
    | unfold FastImageCache.holds; vm_compute; apply not_elem_of_nil].
Defined.


Lemma layout_zero_ratio_raises_witness :
  let pil := mkPillow (λ p, if decide (p = "flat.png") then Some (0, 7)
                            else Some (300, 200)) (λ _ _ _, true) in
  let g :=
    set_filtered_images
      [mkImageData "a.png" "a" false; mkImageData "flat.png" "flat" false;
       mkImageData "b.png" "b" false]
      (init_gallery (mkCanvas 804 600 0 None [])) in
  (calculate_layout pil g).2 = Raised
  ∧ scrollregion (canvas (calculate_layout pil g).1) = None.
Proof.
  intros pil g.
  destruct (layout_zero_ratio_raises pil g
              [mkImageData "a.png" "a" false] [mkImageData "b.png" "b" false]
              (mkImageData "flat.png" "flat" false))
    as (Hraised & Hregion & _);
    [cbn; lia | reflexivity | | reflexivity|].
  - intros img ->%list_elem_of_singleton. reflexivity.
  - split; [exact Hraised | exact Hregion].
Defined.

End TileFacts.
